(** * A shallow embedding of the VulnerableAPIGateway data-flow helpers

    The development follows the JavaScript sources:
    - [utils/sanitizers.js]      (module [WeakSanitizers]),
    - [sources/HttpSource.js]    (module [JwtSource]),
    - the data-flow helpers      (modules [TaintRelay], [TaintTransform],
                                  [ChainBuilder], [ContextPropagation]).

    JavaScript strings are sequences of UTF-16 code units, so a string is a
    list of code units here; values are the data the gateway handles. *)

From Stdlib Require Import NArith ZArith Lia.
From Stdlib Require DecimalN DecimalPos.
From stdpp Require Import base option list gmap strings.

Set Default Proof Using "Type".

(** ** Strings *)

(** A UTF-16 code unit, [0 <= u < 65536]. *)
Abbreviation code_unit := N (only parsing).
Abbreviation jsstring := (list N) (only parsing).

(** An ASCII literal as a JavaScript string. *)
Fixpoint js (s : string) : jsstring :=
  match s with
  | EmptyString => []
  | String a r => Ascii.N_of_ascii a :: js r
  end.

(** [s.startsWith(p)] *)
Fixpoint starts_with (p s : jsstring) : bool :=
  match p, s with
  | [], _ => true
  | _ :: _, [] => false
  | a :: p', b :: s' => (a =? b)%N && starts_with p' s'
  end.

(** [s.includes(p)] *)
Fixpoint includes (p s : jsstring) : bool :=
  starts_with p s ||
  match s with
  | [] => false
  | _ :: s' => includes p s'
  end.

(** [s.replace(pat, rep)] with a string pattern: only the first occurrence
    of [pat] is replaced.  [rep] is inserted as it is, which is what
    JavaScript does for a replacement without [$] (the sources only use the
    empty replacement and plain data). *)
Fixpoint String_replace (pat rep s : jsstring) : jsstring :=
  if starts_with pat s then rep ++ drop (length pat) s
  else match s with
       | [] => []
       | c :: s' => c :: String_replace pat rep s'
       end.

(** [s.replace(/pat/g, '')] for a pattern that is a literal, non-empty
    string: matches are found left to right and do not overlap; [skip]
    counts the code units of the current match still to be dropped. *)
Fixpoint remove_all_from (pat : jsstring) (skip : nat) (s : jsstring) : jsstring :=
  match s with
  | [] => []
  | c :: s' =>
      match skip with
      | S k => remove_all_from pat k s'
      | O => if starts_with pat s then remove_all_from pat (pred (length pat)) s'
             else c :: remove_all_from pat 0 s'
      end
  end.

Definition String_remove_all (pat s : jsstring) : jsstring :=
  remove_all_from pat 0 s.

(** Number of occurrences of a code unit. *)
Definition occurrences (c : code_unit) (s : jsstring) : nat :=
  length (filter (λ x, x = c) s).

(** [s.split(sep)] for a separator of one code unit. *)
Fixpoint split_on (sep : code_unit) (s : jsstring) : list jsstring :=
  match s with
  | [] => [[]]
  | c :: s' =>
      if (c =? sep)%N then [] :: split_on sep s'
      else match split_on sep s' with
           | p :: ps => (c :: p) :: ps
           | [] => [[c]]
           end
  end.

(** ** Values

    The values that flow from sources to sinks are data: what a request
    body, a query string, a header or a parsed JSON document delivers.
    Numbers are the integer-valued ones; nothing in the sources computes on
    fractions.  An object is the list of its own properties in enumeration
    order (keys are distinct in a JavaScript object); all data objects have
    the prototype [Object.prototype], all arrays [Array.prototype]. *)
#[local] Set Warnings "-register-all".
Inductive value :=
| VUndefined
| VNull
| VBool (b : bool)
| VNum (n : Z)
| VStr (s : jsstring)
| VArr (elems : list value)
| VObj (props : list (jsstring * value)).

(** What a property read evaluates to: a data value or, when the read goes
    up the prototype chain, one of the realm's built-in objects (named by
    its path, as in [Object.prototype.toString]). *)
Inductive jsval :=
| Data (v : value)
| Builtin (path : jsstring).

(** What a [throw] carries: a data value or a native error object, named by
    its constructor ([TypeError], [SyntaxError]). *)
Inductive exn :=
| Thrown (v : value)
| NativeError (name : jsstring).

(** Synchronous code either completes with a result or throws. *)
Inductive completion (A : Type) :=
| Normal (a : A)
| Throw (e : exn).
Arguments Normal {A} a.
Arguments Throw {A} e.

#[global] Instance completion_ret : MRet completion := λ A a, Normal a.
#[global] Instance completion_bind : MBind completion := λ A B f m,
  match m with
  | Normal a => f a
  | Throw e => Throw e
  end.

(** [try { body } catch (e) { handler }] *)
Definition try_catch {A} (body : completion A) (handler : exn -> completion A) : completion A :=
  match body with
  | Normal a => Normal a
  | Throw e => handler e
  end.

(** *** Property reads *)

(** The own property [k] of an object, if it has one. *)
Fixpoint own_property (k : jsstring) (props : list (jsstring * value)) : option value :=
  match props with
  | [] => None
  | (k', v) :: props' => if decide (k' = k) then Some v else own_property k props'
  end.

(** The function-valued properties of [Object.prototype]. *)
Definition Object_prototype_functions : list jsstring :=
  [js "__defineGetter__"; js "__defineSetter__"; js "hasOwnProperty";
   js "__lookupGetter__"; js "__lookupSetter__"; js "isPrototypeOf";
   js "propertyIsEnumerable"; js "toString"; js "valueOf"; js "toLocaleString"].

(** The names [Object.prototype] defines. *)
Definition Object_prototype_names : list jsstring :=
  js "__proto__" :: js "constructor" :: Object_prototype_functions.

(** A read of [k] that has reached [Object.prototype]; [proto] is what the
    [__proto__] getter returns for the receiver, its prototype. *)
Definition Object_prototype_get (proto : jsval) (k : jsstring) : jsval :=
  if decide (k = js "__proto__") then proto
  else if decide (k = js "constructor") then Builtin (js "Object")
  else if decide (k ∈ Object_prototype_functions) then Builtin (js "Object.prototype." ++ k)
  else Data VUndefined.

(** The properties of [Array.prototype] (ECMAScript 2023), [length] apart. *)
Definition Array_prototype_functions : list jsstring :=
  [js "at"; js "concat"; js "copyWithin"; js "entries"; js "every"; js "fill";
   js "filter"; js "find"; js "findIndex"; js "findLast"; js "findLastIndex";
   js "flat"; js "flatMap"; js "forEach"; js "includes"; js "indexOf"; js "join";
   js "keys"; js "lastIndexOf"; js "map"; js "pop"; js "push"; js "reduce";
   js "reduceRight"; js "reverse"; js "shift"; js "slice"; js "some"; js "sort";
   js "splice"; js "toLocaleString"; js "toReversed"; js "toSorted";
   js "toSpliced"; js "toString"; js "unshift"; js "values"; js "with"].

(** [obj[k]] for a data object. *)
Definition Object_get (props : list (jsstring * value)) (k : jsstring) : jsval :=
  match own_property k props with
  | Some v => Data v
  | None => Object_prototype_get (Builtin (js "Object.prototype")) k
  end.

(** [arr[i]] for a numeric index: the element, or [undefined] past the end
    (no prototype carries index properties). *)
Definition Array_at (elems : list value) (i : nat) : value :=
  default VUndefined (elems !! i).

(** Decimal digits, most significant first. *)
Fixpoint digits_of_uint (d : Decimal.uint) : jsstring :=
  match d with
  | Decimal.Nil => []
  | Decimal.D0 d => 48%N :: digits_of_uint d
  | Decimal.D1 d => 49%N :: digits_of_uint d
  | Decimal.D2 d => 50%N :: digits_of_uint d
  | Decimal.D3 d => 51%N :: digits_of_uint d
  | Decimal.D4 d => 52%N :: digits_of_uint d
  | Decimal.D5 d => 53%N :: digits_of_uint d
  | Decimal.D6 d => 54%N :: digits_of_uint d
  | Decimal.D7 d => 55%N :: digits_of_uint d
  | Decimal.D8 d => 56%N :: digits_of_uint d
  | Decimal.D9 d => 57%N :: digits_of_uint d
  end.

(** A decimal numeral read back, digit by digit. *)
Fixpoint uint_of_digits (s : jsstring) : option Decimal.uint :=
  match s with
  | [] => Some Decimal.Nil
  | c :: s' =>
      d ← uint_of_digits s';
      if (c =? 48)%N then Some (Decimal.D0 d)
      else if (c =? 49)%N then Some (Decimal.D1 d)
      else if (c =? 50)%N then Some (Decimal.D2 d)
      else if (c =? 51)%N then Some (Decimal.D3 d)
      else if (c =? 52)%N then Some (Decimal.D4 d)
      else if (c =? 53)%N then Some (Decimal.D5 d)
      else if (c =? 54)%N then Some (Decimal.D6 d)
      else if (c =? 55)%N then Some (Decimal.D7 d)
      else if (c =? 56)%N then Some (Decimal.D8 d)
      else if (c =? 57)%N then Some (Decimal.D9 d)
      else None
  end.

(** An array index: a key that is the canonical decimal numeral of an
    integer below [2^32 - 1]. *)
Definition array_index (k : jsstring) : option nat :=
  match k with
  | [] => None
  | _ =>
      d ← uint_of_digits k;
      let n := N.of_uint d in
      if decide (digits_of_uint (N.to_uint n) = k ∧ (n < 4294967295)%N)
      then Some (N.to_nat n) else None
  end.

(** [arr[k]] for an array; [proto] is the prototype of the receiver of the
    read, for the [__proto__] getter. *)
Definition Array_get (proto : jsval) (elems : list value) (k : jsstring) : jsval :=
  match array_index k with
  | Some i => Data (Array_at elems i)
  | None =>
      if decide (k = js "length") then Data (VNum (Z.of_nat (length elems)))
      else if decide (k = js "constructor") then Builtin (js "Array")
      else if decide (k ∈ Array_prototype_functions) then Builtin (js "Array.prototype." ++ k)
      else Object_prototype_get proto k
  end.

(** *** Conversions *)

(** [ToBoolean] *)
Definition ToBoolean (v : value) : bool :=
  match v with
  | VUndefined | VNull => false
  | VBool b => b
  | VNum n => negb (n =? 0)%Z
  | VStr s => match s with [] => false | _ => true end
  | VArr _ | VObj _ => true
  end.

(** [Number::toString] on a safe integer (of absolute value below [2^53]):
    its decimal digits.  JavaScript has the larger integers only rounded,
    and writes them in other digits, from [10^21] on with an exponent. *)
Definition Number_toString (n : Z) : jsstring :=
  match n with
  | Z0 => js "0"
  | Zpos p => digits_of_uint (N.to_uint (Npos p))
  | Zneg p => js "-" ++ digits_of_uint (N.to_uint (Npos p))
  end.

(** [elems.join(sep)], given the conversion of one element *)
Definition join_with (sep : jsstring) (parts : list jsstring) : jsstring :=
  match parts with
  | [] => []
  | p :: ps => p ++ concat ((λ q, sep ++ q) <$> ps)
  end.

(** [ToString].  An object converts through [Object.prototype.toString]
    unless an own data property named [toString] hides it: then neither
    [toString] nor [valueOf] yields a primitive and the conversion throws a
    [TypeError].  An array converts through [join], with [undefined] and
    [null] elements as the empty string. *)
Fixpoint ToString (v : value) : completion jsstring :=
  match v with
  | VUndefined => Normal (js "undefined")
  | VNull => Normal (js "null")
  | VBool true => Normal (js "true")
  | VBool false => Normal (js "false")
  | VNum n => Normal (Number_toString n)
  | VStr s => Normal s
  | VArr elems =>
      let fix go (xs : list value) : completion (list jsstring) :=
        match xs with
        | [] => Normal []
        | x :: xs' =>
            p ← match x with
                | VUndefined | VNull => Normal []
                | _ => ToString x
                end;
            ps ← go xs';
            mret (p :: ps)
        end in
      parts ← go elems;
      mret (join_with (js ",") parts)
  | VObj props =>
      match own_property (js "toString") props with
      | Some _ => Throw (NativeError (js "TypeError"))
      | None => Normal (js "[object Object]")
      end
  end.

(** ** Promises and async functions

    Time is counted in turns of the event loop: the synchronous run of a
    call and the promise jobs it leaves behind make one turn, every timer
    or I/O callback starts a later one.  A promise is described by the turn
    in which it settles and by how it settles. *)
Inductive outcome :=
| Fulfilled (v : value)
| Rejected (e : exn).

Inductive promise :=
| Settles (turn : nat) (o : outcome)
| Forever.                           (* never settled *)

(** What a call hands back: a plain value or a promise. *)
Inductive returned :=
| Plain (v : value)
| Thenable (p : promise).

(** The functions a chain is given, and the record of their invocations. *)
Inductive callee :=
| Transformer
| Sink (i : nat).

Record event := Invoke { callee_of : callee; argument_of : value; turn_of : nat }.

(** The body of an async function: started in some turn, it leaves a trace
    of invocations and either finishes (in a turn, normally or by a throw)
    or stays suspended on a promise that never settles. *)
Inductive status (A : Type) :=
| Done (turn : nat) (c : completion A)
| Suspended.
Arguments Done {A} turn c.
Arguments Suspended {A}.

Record run (A : Type) := Run { trace : list event; status_of : status A }.
Arguments Run {A} trace status_of.
Arguments trace {A} r.
Arguments status_of {A} r.

Definition async (A : Type) : Type := nat -> run A.

#[global] Instance async_ret : MRet async := λ A a now, Run [] (Done now (Normal a)).
#[global] Instance async_bind : MBind async := λ A B f m now,
  match m now with
  | Run t (Done now' (Normal a)) => let r := f a now' in Run (t ++ trace r) (status_of r)
  | Run t (Done now' (Throw e)) => Run t (Done now' (Throw e))
  | Run t Suspended => Run t Suspended
  end.

(** [f(arg)], recorded in the trace *)
Definition call {B} (who : callee) (f : value -> completion B) (arg : value) : async B :=
  λ now, Run [Invoke who arg now] (Done now (f arg)).

(** [await x] *)
Definition await (x : returned) : async value :=
  λ now,
    match x with
    | Plain v => Run [] (Done now (Normal v))
    | Thenable (Settles t (Fulfilled v)) => Run [] (Done (max now t) (Normal v))
    | Thenable (Settles t (Rejected e)) => Run [] (Done (max now t) (Throw e))
    | Thenable Forever => Run [] Suspended
    end.

(** A promise seen from turn [now]: reactions to a promise settled earlier
    run in the current turn. *)
Definition seen_from (now : nat) (p : promise) : promise :=
  match p with
  | Settles t o => Settles (max now t) o
  | Forever => Forever
  end.

(** The call of an async function: the invocations it makes and the promise
    it returns.  A returned promise is adopted. *)
Record started := Started { events : list event; result : promise }.

Definition async_function (body : async returned) (now : nat) : started :=
  let r := body now in
  Started (trace r)
    match status_of r with
    | Done t (Normal (Plain v)) => Settles t (Fulfilled v)
    | Done t (Normal (Thenable p)) => seen_from t p
    | Done t (Throw e) => Settles t (Rejected e)
    | Suspended => Forever
    end.

(** What an executor does with the resolving functions of the promise under
    construction: it settles it at once, or sets a timer whose callback
    settles it. *)
Inductive settle :=
| Resolve (v : value)                          (* [resolve(v)] *)
| Reject (e : exn).                            (* [reject(e)] *)

Inductive stmt :=
| Now (s : settle)
| SetTimeout (callback : list settle) (ms : nat). (* [setTimeout(() => { callback }, ms)] *)

Definition outcome_of (s : settle) : outcome :=
  match s with
  | Resolve v => Fulfilled v
  | Reject e => Rejected e
  end.

(** The settlements that running the executor in turn [now] attempts, in
    program order; a timer callback runs in a later turn, later for a
    longer delay. *)
Fixpoint attempts (now : nat) (executor : list stmt) : list (nat * outcome) :=
  match executor with
  | [] => []
  | Now s :: rest => (now, outcome_of s) :: attempts now rest
  | SetTimeout callback ms :: rest =>
      ((λ s, (S (now + ms), outcome_of s)) <$> callback) ++ attempts now rest
  end.

(** The first of the attempts in time; among attempts of one turn, the first
    in program order. *)
Fixpoint earliest {A} (xs : list (nat * A)) : option (nat * A) :=
  match xs with
  | [] => None
  | (t, a) :: xs' =>
      match earliest xs' with
      | Some (t', a') => if (t' <? t)%nat then Some (t', a') else Some (t, a)
      | None => Some (t, a)
      end
  end.

(** [new Promise(resolve => { executor })]: only the first settlement
    counts. *)
Definition new_Promise (executor : list stmt) : async returned :=
  λ now,
    Run [] (Done now (Normal (Thenable
      match earliest (attempts now executor) with
      | Some (t, o) => Settles t o
      | None => Forever
      end))).

(** The rejections among promises, each with its turn. *)
Definition rejections (ps : list promise) : list (nat * exn) :=
  omap (λ p, match p with Settles t (Rejected e) => Some (t, e) | _ => None end) ps.

(** The values of promises that all fulfil, with the last turn. *)
Fixpoint fulfilments (now : nat) (ps : list promise) : option (nat * list value) :=
  match ps with
  | [] => Some (now, [])
  | Settles t (Fulfilled v) :: ps' =>
      match fulfilments now ps' with
      | Some (t', vs) => Some (max t t', v :: vs)
      | None => None
      end
  | _ => None
  end.

(** [Promise.resolve(x)], seen from turn [now]: a plain value is a promise
    fulfilled at once. *)
Definition as_promise (now : nat) (x : returned) : promise :=
  match x with
  | Plain v => Settles now (Fulfilled v)
  | Thenable p => seen_from now p
  end.

(** [Promise.all(xs)]: rejected with the first rejection in time, whatever
    the other promises do; fulfilled with the array of all values when all
    fulfil; pending otherwise. *)
Definition Promise_all (xs : list returned) : async returned :=
  λ now,
    let ps := as_promise now <$> xs in
    Run [] (Done now (Normal (Thenable
      match earliest (rejections ps) with
      | Some (t, e) => Settles t (Rejected e)
      | None =>
          match fulfilments now ps with
          | Some (t, vs) => Settles t (Fulfilled (VArr vs))
          | None => Forever
          end
      end))).

(** [sinks.map(sink => sink(source))]: the sinks are called one after the
    other, in the turn of the call; a throw ends the loop. *)
Fixpoint map_invoke (i : nat) (sinks : list (value -> completion returned)) (source : value)
  : async (list returned) :=
  match sinks with
  | [] => mret []
  | sink :: sinks' =>
      r ← call (Sink i) sink source;
      rs ← map_invoke (S i) sinks' source;
      mret (r :: rs)
  end.

Module WeakSanitizers.

(** [const blacklist = [';', '&', '|', '`', '$', '(', ')', '{', '}']] *)
Definition blacklist : list jsstring :=
  [js ";"; js "&"; js "|"; js "`"; js "$"; js "("; js ")"; js "{"; js "}"].

(** [for (const char of blacklist) input = input.replace(char, '')] *)
Definition sanitizeCommand (input : jsstring) : jsstring :=
  fold_left (λ input char, String_replace char [] input) blacklist input.

(** [input.replace(/\.\.\//g, '')] *)
Definition sanitizePath (input : jsstring) : jsstring :=
  String_remove_all (js "../") input.

(** The blacklisted code units. *)
Definition blacklisted : list code_unit := concat blacklist.

(** Written from the description: one pass over the input that drops a
    code unit when it is blacklisted and has not been met before;
    [todo] holds the blacklisted units not met yet. *)
Fixpoint drop_first_of_each (todo : list code_unit) (s : jsstring) : jsstring :=
  match s with
  | [] => []
  | c :: s' =>
      if decide (c ∈ todo)
      then drop_first_of_each (filter (λ x, x ≠ c) todo) s'
      else c :: drop_first_of_each todo s'
  end.

(** [s.replace(/c/g, rep)] for a pattern that is one literal character and
    a replacement without [$]. *)
Fixpoint replace_each (c : code_unit) (rep s : jsstring) : jsstring :=
  match s with
  | [] => []
  | x :: s' => (if (x =? c)%N then rep else [x]) ++ replace_each c rep s'
  end.

(** [input.replace(/'/g, "''")] *)
Definition sanitizeSQL (input : jsstring) : jsstring :=
  replace_each 39%N [39; 39]%N input.

(** Written from the description of SQL string literals: two quotes in a
    row stand for one. *)
Fixpoint unescape_quotes (s : jsstring) : jsstring :=
  match s with
  | [] => []
  | c :: s' =>
      match s' with
      | d :: s'' =>
          if (c =? 39)%N && (d =? 39)%N then 39%N :: unescape_quotes s''
          else c :: unescape_quotes s'
      | [] => [c]
      end
  end.

(** [s.replace(/<[^>]*>/g, '')]: a match starts at a [<] that has a [>]
    somewhere after it and ends at the first such [>]; [inside] tells that
    a match is being dropped. *)
Fixpoint strip_tags (inside : bool) (s : jsstring) : jsstring :=
  match s with
  | [] => []
  | c :: s' =>
      if inside then
        if (c =? 62)%N then strip_tags false s' else strip_tags true s'
      else if (c =? 60)%N && bool_decide (62%N ∈ s') then strip_tags true s'
      else c :: strip_tags false s'
  end.

(** [input.replace(/<[^>]*>/g, '')] *)
Definition sanitizeHTML (input : jsstring) : jsstring := strip_tags false input.

(** Is there a complete tag, a [<] with a [>] after it? *)
Fixpoint has_tag (s : jsstring) : bool :=
  match s with
  | [] => false
  | c :: s' => ((c =? 60)%N && bool_decide (62%N ∈ s')) || has_tag s'
  end.

(** [url.startsWith('http://') || url.startsWith('https://')] *)
Definition validateURL (url : jsstring) : bool :=
  if starts_with (js "http://") url || starts_with (js "https://") url then true else false.

(** The character class of the pattern: solidus, reverse solidus, colon,
    asterisk, question mark, quotation mark, less-than, greater-than,
    vertical line. *)
Definition filename_forbidden : list code_unit := [47; 92; 58; 42; 63; 34; 60; 62; 124]%N.

(** [filename.replace(pattern, '')], the pattern being the global
    character class above *)
Definition sanitizeFilename (filename : jsstring) : jsstring :=
  filter (λ c, c ∉ filename_forbidden) filename.

(** Does a non-empty string without [@] have a full stop that is neither
    its first nor its last character?  This is [[^@]+\.[^@]+] on it. *)
Definition dotted (domain : jsstring) : bool :=
  match domain with
  | [] => false
  | _ :: rest => bool_decide (46%N ∈ removelast rest)
  end.

(** [/^[^@]+@[^@]+\.[^@]+$/.test(email)]: exactly one [@], something before
    it, and after it a part with a full stop inside. *)
Definition validateEmail (email : jsstring) : bool :=
  match split_on 64%N email with
  | [local; domain] => negb (bool_decide (local = [])) && dotted domain
  | _ => false
  end.

(** [obj.hasOwnProperty(k)] on data: [undefined] and [null] have no
    properties to read, and an own data property named [hasOwnProperty]
    hides the method and is not callable. *)
Definition hasOwnProperty_call (obj : value) (k : jsstring) : completion bool :=
  match obj with
  | VUndefined | VNull => Throw (NativeError (js "TypeError"))
  | VBool _ | VNum _ => Normal false
  | VStr s =>
      Normal (bool_decide (k = js "length")
              || match array_index k with
                 | Some i => bool_decide (i < length s)
                 | None => false
                 end)
  | VArr elems =>
      Normal (bool_decide (k = js "length")
              || match array_index k with
                 | Some i => bool_decide (i < length elems)
                 | None => false
                 end)
  | VObj props =>
      match own_property (js "hasOwnProperty") props with
      | Some _ => Throw (NativeError (js "TypeError"))
      | None => Normal (bool_decide (is_Some (own_property k props)))
      end
  end.

(** [delete obj[k]] on a data object. *)
Definition delete_property (k : jsstring) (props : list (jsstring * value))
  : list (jsstring * value) :=
  filter (λ kv, kv.1 ≠ k) props.

(** [if (obj.hasOwnProperty('__proto__')) { delete obj['__proto__']; }
     return obj] *)
Definition sanitizeJSON (obj : value) : completion value :=
  has ← hasOwnProperty_call obj (js "__proto__");
  if (has : bool) then
    match obj with
    | VObj props => Normal (VObj (delete_property (js "__proto__") props))
    | _ => Normal obj
    end
  else Normal obj.

(** [const internalRanges = ['127.', '10.', '192.168.', '172.16.', '172.17.',
     '172.18.']] *)
Definition internalRanges : list jsstring :=
  [js "127."; js "10."; js "192.168."; js "172.16."; js "172.17."; js "172.18."].

(** [internalRanges.some(range => ip.startsWith(range))] *)
Definition isInternalIP (ip : jsstring) : bool :=
  existsb (λ range, starts_with range ip) internalRanges.

(** An input that [sanitizePath] turns into [target]: a ["../"] is put
    before every solidus that follows two full stops.  [dots] counts the
    full stops just written, up to two. *)
Fixpoint bypass_path (dots : nat) (target : jsstring) : jsstring :=
  match target with
  | [] => []
  | c :: t =>
      if (c =? 46)%N then c :: bypass_path (min 2 (S dots)) t
      else if (c =? 47)%N && bool_decide (dots = 2) then js "../" ++ c :: bypass_path 0 t
      else c :: bypass_path 0 t
  end.

End WeakSanitizers.

(** ** JSON

    [JSON.stringify] and [JSON.parse] on data, after ECMA-262 (25.5).  A
    number is written in decimal; a literal with a fraction or an exponent,
    the literal [-0] and an integer too large to be exact denote numbers
    that are not an integer value of this embedding: the parser answers
    [NotModelled] for them. *)

Definition is_high_surrogate (c : code_unit) : bool := (55296 <=? c)%N && (c <=? 56319)%N.
Definition is_low_surrogate (c : code_unit) : bool := (56320 <=? c)%N && (c <=? 57343)%N.

(** A hexadecimal digit, lower case. *)
Definition hex_digit (d : N) : code_unit :=
  if (d <? 10)%N then (48 + d)%N else (87 + d)%N.

Definition hex_value (c : code_unit) : option N :=
  if (48 <=? c)%N && (c <=? 57)%N then Some (c - 48)%N
  else if (97 <=? c)%N && (c <=? 102)%N then Some (c - 87)%N
  else if (65 <=? c)%N && (c <=? 70)%N then Some (c - 55)%N
  else None.

(** The escape of a code unit by its four hexadecimal digits. *)
Definition unicode_escape (c : code_unit) : jsstring :=
  [92; 117; hex_digit (c / 4096 mod 16); hex_digit (c / 256 mod 16);
   hex_digit (c / 16 mod 16); hex_digit (c mod 16)]%N.

(** The text of one code unit that is not part of a surrogate pair. *)
Definition quote_unit (c : code_unit) : jsstring :=
  if (c =? 8)%N then js "\b"
  else if (c =? 9)%N then js "\t"
  else if (c =? 10)%N then js "\n"
  else if (c =? 12)%N then js "\f"
  else if (c =? 13)%N then js "\r"
  else if (c =? 34)%N then [92; 34]%N
  else if (c =? 92)%N then [92; 92]%N
  else if (c <? 32)%N || is_high_surrogate c || is_low_surrogate c then unicode_escape c
  else [c].

(** [QuoteJSONString] without the enclosing quotes: a surrogate pair is kept
    as it is, a lone surrogate is escaped. *)
Fixpoint quote_body (s : jsstring) : jsstring :=
  match s with
  | [] => []
  | c :: s' =>
      match s' with
      | d :: s'' =>
          if is_high_surrogate c && is_low_surrogate d
          then c :: d :: quote_body s''
          else quote_unit c ++ quote_body s'
      | [] => quote_unit c
      end
  end.

Definition quote (s : jsstring) : jsstring := [34%N] ++ quote_body s ++ [34%N].

(** [SerializeJSONProperty]: [None] stands for [undefined], the result for a
    value that has no JSON text. *)
Fixpoint JSON_stringify (v : value) : option jsstring :=
  match v with
  | VUndefined => None
  | VNull => Some (js "null")
  | VBool true => Some (js "true")
  | VBool false => Some (js "false")
  | VNum n => Some (Number_toString n)
  | VStr s => Some (quote s)
  | VArr elems =>
      let fix items (xs : list value) : list jsstring :=
        match xs with
        | [] => []
        | x :: xs' => default (js "null") (JSON_stringify x) :: items xs'
        end in
      Some (js "[" ++ join_with (js ",") (items elems) ++ js "]")
  | VObj props =>
      let fix members (ps : list (jsstring * value)) : list jsstring :=
        match ps with
        | [] => []
        | (k, x) :: ps' =>
            match JSON_stringify x with
            | Some text => (quote k ++ js ":" ++ text) :: members ps'
            | None => members ps'
            end
        end in
      Some (js "{" ++ join_with (js ",") (members props) ++ js "}")
  end.

Inductive parse_result (A : Type) :=
| Parsed (a : A) (rest : jsstring)
| SyntaxError
| NotModelled.
Arguments Parsed {A} a rest.
Arguments SyntaxError {A}.
Arguments NotModelled {A}.

(** JSON white space: tab, line feed, carriage return, space. *)
Definition is_ws (c : code_unit) : bool :=
  (c =? 9)%N || (c =? 10)%N || (c =? 13)%N || (c =? 32)%N.

Fixpoint skip_ws (s : jsstring) : jsstring :=
  match s with
  | c :: s' => if is_ws c then skip_ws s' else s
  | [] => []
  end.

Definition is_digit (c : code_unit) : bool := (48 <=? c)%N && (c <=? 57)%N.

(** The longest prefix of digits, and what follows. *)
Fixpoint span_digits (s : jsstring) : jsstring * jsstring :=
  match s with
  | c :: s' =>
      if is_digit c then let '(ds, rest) := span_digits s' in (c :: ds, rest)
      else ([], s)
  | [] => ([], [])
  end.

Definition simple_escape (c : code_unit) : option code_unit :=
  if (c =? 34)%N then Some 34%N          (* quotation mark *)
  else if (c =? 92)%N then Some 92%N     (* reverse solidus *)
  else if (c =? 47)%N then Some 47%N     (* solidus *)
  else if (c =? 98)%N then Some 8%N      (* b: backspace *)
  else if (c =? 102)%N then Some 12%N    (* f: form feed *)
  else if (c =? 110)%N then Some 10%N    (* n: line feed *)
  else if (c =? 114)%N then Some 13%N    (* r: carriage return *)
  else if (c =? 116)%N then Some 9%N     (* t: tab *)
  else None.

Definition hex4 (h1 h2 h3 h4 : code_unit) : option code_unit :=
  a ← hex_value h1; b ← hex_value h2; c ← hex_value h3; d ← hex_value h4;
  Some (a * 4096 + b * 256 + c * 16 + d)%N.

Definition cons_parsed (c : code_unit) (r : parse_result jsstring) : parse_result jsstring :=
  match r with
  | Parsed s rest => Parsed (c :: s) rest
  | SyntaxError => SyntaxError
  | NotModelled => NotModelled
  end.

(** A string literal after its opening quote. *)
Fixpoint parse_string_body (s : jsstring) : parse_result jsstring :=
  match s with
  | [] => SyntaxError
  | c :: s' =>
      if (c =? 34)%N then Parsed [] s'
      else if (c =? 92)%N then
        match s' with
        | e :: s'' =>
            if (e =? 117)%N then
              match s'' with
              | h1 :: h2 :: h3 :: h4 :: s5 =>
                  match hex4 h1 h2 h3 h4 with
                  | Some u => cons_parsed u (parse_string_body s5)
                  | None => SyntaxError
                  end
              | _ => SyntaxError
              end
            else
              match simple_escape e with
              | Some u => cons_parsed u (parse_string_body s'')
              | None => SyntaxError
              end
        | [] => SyntaxError
        end
      else if (c <? 32)%N then SyntaxError
      else cons_parsed c (parse_string_body s')
  end.

(** The largest integer below which every integer is a number value. *)
Definition MAX_SAFE_INTEGER : Z := 9007199254740991.

(** A number literal.  [negative] tells whether a minus sign was read. *)
Definition parse_number (negative : bool) (s : jsstring) : parse_result value :=
  let '(ds, rest) := span_digits s in
  match ds with
  | [] => SyntaxError
  | d :: ds' =>
      if (d =? 48)%N && negb (bool_decide (ds' = [])) then SyntaxError
      else
        match rest with
        | c :: _ =>
            if (c =? 46)%N || (c =? 101)%N || (c =? 69)%N then NotModelled
            else
              match uint_of_digits ds with
              | Some u =>
                  let n := Z.of_N (N.of_uint u) in
                  if (MAX_SAFE_INTEGER <? n)%Z then NotModelled
                  else if negative then (if (n =? 0)%Z then NotModelled else Parsed (VNum (- n)) rest)
                  else Parsed (VNum n) rest
              | None => SyntaxError
              end
        | [] =>
            match uint_of_digits ds with
            | Some u =>
                let n := Z.of_N (N.of_uint u) in
                if (MAX_SAFE_INTEGER <? n)%Z then NotModelled
                else if negative then (if (n =? 0)%Z then NotModelled else Parsed (VNum (- n)) rest)
                else Parsed (VNum n) rest
            | None => SyntaxError
            end
        end
  end.

(** [CreateDataProperty] while an object is built: a key met again keeps its
    place and takes the new value; a new key is put last.  That is its place
    in the enumeration unless it is an array index: those an object
    enumerates first, in ascending order, so the list is in enumeration
    order when the index keys of the text come first and ascending, as they
    do in every text [JSON.stringify] writes. *)
Fixpoint define_property (k : jsstring) (v : value) (props : list (jsstring * value))
  : list (jsstring * value) :=
  match props with
  | [] => [(k, v)]
  | (k', v') :: props' =>
      if decide (k' = k) then (k, v) :: props'
      else (k', v') :: define_property k v props'
  end.

(** A literal name: [true], [false], [null]. *)
Definition parse_name (name : jsstring) (v : value) (s : jsstring) : parse_result value :=
  if starts_with name s then Parsed v (drop (length name) s) else SyntaxError.

(** The parser descends with a fuel that bounds its calls; the length of
    the text is enough. *)
Fixpoint parse_value (fuel : nat) (s : jsstring) : parse_result value :=
  match fuel with
  | O => NotModelled
  | S fuel' =>
      match skip_ws s with
      | [] => SyntaxError
      | c :: s' =>
          if (c =? 34)%N then
            match parse_string_body s' with
            | Parsed str rest => Parsed (VStr str) rest
            | SyntaxError => SyntaxError
            | NotModelled => NotModelled
            end
          else if (c =? 91)%N then
            match skip_ws s' with
            | d :: rest => if (d =? 93)%N then Parsed (VArr []) rest
                           else parse_elements fuel' s' []
            | [] => SyntaxError
            end
          else if (c =? 123)%N then
            match skip_ws s' with
            | d :: rest => if (d =? 125)%N then Parsed (VObj []) rest
                           else parse_members fuel' s' []
            | [] => SyntaxError
            end
          else if (c =? 116)%N then parse_name (js "true") (VBool true) (c :: s')
          else if (c =? 102)%N then parse_name (js "false") (VBool false) (c :: s')
          else if (c =? 110)%N then parse_name (js "null") VNull (c :: s')
          else if (c =? 45)%N then parse_number true s'
          else if is_digit c then parse_number false (c :: s')
          else SyntaxError
      end
  end
with parse_elements (fuel : nat) (s : jsstring) (acc : list value) : parse_result value :=
  match fuel with
  | O => NotModelled
  | S fuel' =>
      match parse_value fuel' s with
      | Parsed v rest =>
          match skip_ws rest with
          | c :: rest' =>
              if (c =? 44)%N then parse_elements fuel' rest' (acc ++ [v])
              else if (c =? 93)%N then Parsed (VArr (acc ++ [v])) rest'
              else SyntaxError
          | [] => SyntaxError
          end
      | SyntaxError => SyntaxError
      | NotModelled => NotModelled
      end
  end
with parse_members (fuel : nat) (s : jsstring) (acc : list (jsstring * value)) : parse_result value :=
  match fuel with
  | O => NotModelled
  | S fuel' =>
      match skip_ws s with
      | q :: s1 =>
          if (q =? 34)%N then
            match parse_string_body s1 with
            | Parsed k s2 =>
                match skip_ws s2 with
                | colon :: s3 =>
                    if (colon =? 58)%N then
                      match parse_value fuel' s3 with
                      | Parsed v rest =>
                          match skip_ws rest with
                          | c :: rest' =>
                              if (c =? 44)%N then parse_members fuel' rest' (define_property k v acc)
                              else if (c =? 125)%N then Parsed (VObj (define_property k v acc)) rest'
                              else SyntaxError
                          | [] => SyntaxError
                          end
                      | SyntaxError => SyntaxError
                      | NotModelled => NotModelled
                      end
                    else SyntaxError
                | [] => SyntaxError
                end
            | SyntaxError => SyntaxError
            | NotModelled => NotModelled
            end
          else SyntaxError
      | [] => SyntaxError
      end
  end.

(** [JSON.parse(text)]: one value, then nothing but white space. *)
Definition JSON_parse (text : jsstring) : parse_result value :=
  match parse_value (S (length text)) text with
  | Parsed v rest =>
      match skip_ws rest with
      | [] => Parsed v []
      | _ => SyntaxError
      end
  | SyntaxError => SyntaxError
  | NotModelled => NotModelled
  end.

(** ** Buffer

    A buffer is a list of bytes.  [Buffer.from(string)] encodes the string
    in UTF-8 and [buf.toString()] decodes UTF-8; both replace what they
    cannot convert by U+FFFD. *)

Definition REPLACEMENT : code_unit := 65533%N.

(** The UTF-8 bytes of a code point. *)
Definition utf8_bytes (cp : N) : list N :=
  if (cp <? 128)%N then [cp]
  else if (cp <? 2048)%N then [192 + cp / 64; 128 + cp mod 64]%N
  else if (cp <? 65536)%N then [224 + cp / 4096; 128 + cp / 64 mod 64; 128 + cp mod 64]%N
  else [240 + cp / 262144; 128 + cp / 4096 mod 64; 128 + cp / 64 mod 64; 128 + cp mod 64]%N.

(** The code point of a surrogate pair. *)
Definition pair_code_point (hi lo : code_unit) : N :=
  (65536 + (hi - 55296) * 1024 + (lo - 56320))%N.

(** [Buffer.from(s)]: a surrogate pair is one code point, a lone surrogate
    is written as U+FFFD. *)
Fixpoint utf8_encode (s : jsstring) : list N :=
  match s with
  | [] => []
  | c :: s' =>
      if is_high_surrogate c then
        match s' with
        | d :: s'' =>
            if is_low_surrogate d then utf8_bytes (pair_code_point c d) ++ utf8_encode s''
            else utf8_bytes REPLACEMENT ++ utf8_encode s'
        | [] => utf8_bytes REPLACEMENT
        end
      else if is_low_surrogate c then utf8_bytes REPLACEMENT ++ utf8_encode s'
      else utf8_bytes c ++ utf8_encode s'
  end.

(** The code units of a code point. *)
Definition utf16_units (cp : N) : jsstring :=
  if (cp <? 65536)%N then [cp]
  else [55296 + (cp - 65536) / 1024; 56320 + (cp - 65536) mod 1024]%N.

Definition in_range (lo hi b : N) : bool := (lo <=? b)%N && (b <=? hi)%N.

(** The bounds of the second byte of a sequence, given the first: they
    exclude overlong forms, surrogates and code points above U+10FFFF. *)
Definition second_lower (b0 : N) : N :=
  if (b0 =? 224)%N then 160%N else if (b0 =? 240)%N then 144%N else 128%N.
Definition second_upper (b0 : N) : N :=
  if (b0 =? 237)%N then 159%N else if (b0 =? 244)%N then 143%N else 191%N.

(** [buf.toString()]: UTF-8 decoding; an ill-formed sequence yields one
    U+FFFD for its longest well-formed start, and decoding goes on with the
    byte that broke it. *)
Fixpoint utf8_decode (bytes : list N) : jsstring :=
  match bytes with
  | [] => []
  | b0 :: r0 =>
      if (b0 <? 128)%N then b0 :: utf8_decode r0
      else if in_range 194 223 b0 then
        match r0 with
        | b1 :: r1 =>
            if in_range 128 191 b1
            then ((b0 - 192) * 64 + (b1 - 128))%N :: utf8_decode r1
            else REPLACEMENT :: utf8_decode r0
        | [] => [REPLACEMENT]
        end
      else if in_range 224 239 b0 then
        match r0 with
        | b1 :: r1 =>
            if in_range (second_lower b0) (second_upper b0) b1 then
              match r1 with
              | b2 :: r2 =>
                  if in_range 128 191 b2
                  then ((b0 - 224) * 4096 + (b1 - 128) * 64 + (b2 - 128))%N :: utf8_decode r2
                  else REPLACEMENT :: utf8_decode r1
              | [] => [REPLACEMENT]
              end
            else REPLACEMENT :: utf8_decode r0
        | [] => [REPLACEMENT]
        end
      else if in_range 240 244 b0 then
        match r0 with
        | b1 :: r1 =>
            if in_range (second_lower b0) (second_upper b0) b1 then
              match r1 with
              | b2 :: r2 =>
                  if in_range 128 191 b2 then
                    match r2 with
                    | b3 :: r3 =>
                        if in_range 128 191 b3
                        then utf16_units ((b0 - 240) * 262144 + (b1 - 128) * 4096
                                          + (b2 - 128) * 64 + (b3 - 128))%N
                             ++ utf8_decode r3
                        else REPLACEMENT :: utf8_decode r2
                    | [] => [REPLACEMENT]
                    end
                  else REPLACEMENT :: utf8_decode r1
              | [] => [REPLACEMENT]
              end
            else REPLACEMENT :: utf8_decode r0
        | [] => [REPLACEMENT]
        end
      else REPLACEMENT :: utf8_decode r0
  end.

(** The base64 digit of a value below 64. *)
Definition base64_digit (i : N) : code_unit :=
  if (i <? 26)%N then (65 + i)%N
  else if (i <? 52)%N then (71 + i)%N
  else if (i <? 62)%N then (i - 4)%N
  else if (i =? 62)%N then 43%N
  else 47%N.

(** The value of a base64 digit, of the standard or of the URL alphabet. *)
Definition base64_value (c : code_unit) : option N :=
  if in_range 65 90 c then Some (c - 65)%N
  else if in_range 97 122 c then Some (c - 71)%N
  else if in_range 48 57 c then Some (c + 4)%N
  else if (c =? 43)%N || (c =? 45)%N then Some 62%N
  else if (c =? 47)%N || (c =? 95)%N then Some 63%N
  else None.

(** [buf.toString('base64')] *)
Fixpoint base64_encode (bytes : list N) : jsstring :=
  match bytes with
  | [] => []
  | [a] => [base64_digit (a / 4); base64_digit (a mod 4 * 16); 61; 61]%N
  | [a; b] =>
      [base64_digit (a / 4); base64_digit (a mod 4 * 16 + b / 16);
       base64_digit (b mod 16 * 4); 61]%N
  | a :: b :: c :: rest =>
      [base64_digit (a / 4); base64_digit (a mod 4 * 16 + b / 16);
       base64_digit (b mod 16 * 4 + c / 64); base64_digit (c mod 64)]%N
      ++ base64_encode rest
  end.

(** The digits of a base64 text of code units below 256 (every text the
    encoder writes is one) as Node reads it: it stops at the first [=] and
    skips what is not a digit. *)
Fixpoint base64_sextets (s : jsstring) : list N :=
  match s with
  | [] => []
  | c :: s' =>
      if (c =? 61)%N then []
      else match base64_value c with
           | Some v => v :: base64_sextets s'
           | None => base64_sextets s'
           end
  end.

Fixpoint bytes_of_sextets (l : list N) : list N :=
  match l with
  | a :: b :: c :: d :: rest =>
      [a * 4 + b / 16; b mod 16 * 16 + c / 4; c mod 4 * 64 + d]%N ++ bytes_of_sextets rest
  | [a; b; c] => [a * 4 + b / 16; b mod 16 * 16 + c / 4]%N
  | [a; b] => [a * 4 + b / 16]%N
  | _ => []
  end.

(** [Buffer.from(s, 'base64')] *)
Definition base64_decode (s : jsstring) : list N :=
  bytes_of_sextets (base64_sextets s).

(** A Unicode scalar value: a code point that is not a surrogate. *)
Definition scalar (cp : N) : Prop :=
  ((cp < 55296)%N ∨ (57344 <= cp)%N) ∧ (cp < 1114112)%N.

(** A string without a lone surrogate, all of whose code units are below
    [2^16]. *)
Fixpoint well_formed (s : jsstring) : bool :=
  match s with
  | [] => true
  | c :: s' =>
      if is_high_surrogate c then
        match s' with
        | d :: s'' => is_low_surrogate d && well_formed s''
        | [] => false
        end
      else negb (is_low_surrogate c) && (c <? 65536)%N && well_formed s'
  end.

(** Written from the description of [String.prototype.toWellFormed]: every
    lone surrogate becomes U+FFFD, everything else stays. *)
Fixpoint toWellFormed (s : jsstring) : jsstring :=
  match s with
  | [] => []
  | c :: s' =>
      if is_high_surrogate c then
        match s' with
        | d :: s'' =>
            if is_low_surrogate d then c :: d :: toWellFormed s''
            else REPLACEMENT :: toWellFormed s'
        | [] => [REPLACEMENT]
        end
      else if is_low_surrogate c then REPLACEMENT :: toWellFormed s'
      else c :: toWellFormed s'
  end.

(** *** JSON data

    The values [JSON.stringify] writes without loss: no [undefined]
    anywhere, numbers that are safe integers, and objects whose keys are
    distinct (as they are in every JavaScript object). *)
Fixpoint json_data (v : value) : bool :=
  match v with
  | VUndefined => false
  | VNull | VBool _ | VStr _ => true
  | VNum n => (- MAX_SAFE_INTEGER <=? n)%Z && (n <=? MAX_SAFE_INTEGER)%Z
  | VArr elems =>
      (fix all (xs : list value) : bool :=
         match xs with
         | [] => true
         | x :: xs' => json_data x && all xs'
         end) elems
  | VObj props =>
      bool_decide (NoDup props.*1)
      && (fix all (ps : list (jsstring * value)) : bool :=
            match ps with
            | [] => true
            | (_, x) :: ps' => json_data x && all ps'
            end) props
  end.

(** The data of this embedding that are JavaScript values: numbers are safe
    integers and the keys of an object are distinct. *)
Fixpoint representable (v : value) : bool :=
  match v with
  | VUndefined | VNull | VBool _ | VStr _ => true
  | VNum n => (- MAX_SAFE_INTEGER <=? n)%Z && (n <=? MAX_SAFE_INTEGER)%Z
  | VArr elems =>
      (fix all (xs : list value) : bool :=
         match xs with
         | [] => true
         | x :: xs' => representable x && all xs'
         end) elems
  | VObj props =>
      bool_decide (NoDup props.*1)
      && (fix all (ps : list (jsstring * value)) : bool :=
            match ps with
            | [] => true
            | (_, x) :: ps' => representable x && all ps'
            end) props
  end.

(** Written from the description of JSON: what is left of a value in its
    JSON text.  [undefined] has no text; as an array element it is written
    [null], as a property it is left out. *)
Fixpoint json_image (v : value) : option value :=
  match v with
  | VUndefined => None
  | VArr elems =>
      Some (VArr ((fix go (xs : list value) : list value :=
                     match xs with
                     | [] => []
                     | x :: xs' => default VNull (json_image x) :: go xs'
                     end) elems))
  | VObj props =>
      Some (VObj ((fix go (ps : list (jsstring * value)) : list (jsstring * value) :=
                     match ps with
                     | [] => []
                     | (k, x) :: ps' =>
                         match json_image x with
                         | Some y => (k, y) :: go ps'
                         | None => go ps'
                         end
                     end) props))
  | _ => Some v
  end.

(** The fuel the parser needs to read back the text of a value: one call
    for the value, and for a list of elements one call each on the way to
    the last. *)
Fixpoint need_elems (ns : list nat) : nat :=
  match ns with
  | [] => 0
  | n :: ns' => S (max n (need_elems ns'))
  end.

Fixpoint need (v : value) : nat :=
  match v with
  | VArr elems =>
      S (need_elems ((fix go (xs : list value) : list nat :=
                        match xs with
                        | [] => []
                        | x :: xs' => need x :: go xs'
                        end) elems))
  | VObj props =>
      S (need_elems ((fix go (ps : list (jsstring * value)) : list nat :=
                        match ps with
                        | [] => []
                        | (_, x) :: ps' => need x :: go ps'
                        end) props))
  | _ => 1
  end.

(** What may follow a value inside a JSON text: nothing, a comma, or a
    closing bracket or brace. *)
Definition terminated (rest : jsstring) : Prop :=
  match rest with
  | [] => True
  | c :: _ => c = 44%N ∨ c = 93%N ∨ c = 125%N
  end.

(** [text] is a text of [v] that the parser reads back: it is long enough
    for the fuel, it starts with the first character of a value, and it
    parses to [v] whatever follows it. *)
Definition reads_back (v : value) (text : jsstring) : Prop :=
  need v <= length text
  ∧ (∃ c t, text = c :: t ∧ is_ws c = false ∧ c ≠ 93%N ∧ c ≠ 125%N)
  ∧ ∀ fuel rest, need v <= fuel -> terminated rest ->
      parse_value fuel (text ++ rest) = Parsed v rest.

(** The text of a member whose value has the text [t]. *)
Definition member_of (kv : jsstring * value) (mt : jsstring) : Prop :=
  ∃ t, mt = quote kv.1 ++ js ":" ++ t ∧ reads_back kv.2 t.

(** The text of a value and its image go together. *)
Definition image_read_back (v : value) : Prop :=
  match JSON_stringify v, json_image v with
  | Some text, Some w => reads_back w text
  | None, None => True
  | _, _ => False
  end.

(** *** More of the string and object built-ins *)

(** [GetSubstitution] for a string pattern, which has no captures: in the
    replacement text [$$] is a dollar sign, [$&] the matched text, [$`] what
    comes before the match and [$'] what comes after it; any other [$]
    stands for itself. *)
Fixpoint substitution (matched before after rep : jsstring) : jsstring :=
  match rep with
  | [] => []
  | c :: rep' =>
      if (c =? 36)%N then
        match rep' with
        | d :: rep'' =>
            if (d =? 36)%N then 36%N :: substitution matched before after rep''
            else if (d =? 38)%N then matched ++ substitution matched before after rep''
            else if (d =? 96)%N then before ++ substitution matched before after rep''
            else if (d =? 39)%N then after ++ substitution matched before after rep''
            else c :: substitution matched before after rep'
        | [] => [c]
        end
      else c :: substitution matched before after rep'
  end.

(** [s.replace(pat, rep)] with a string pattern and a string replacement:
    the first occurrence of [pat] is replaced by the expansion of [rep];
    [before] is the part of the string already passed. *)
Fixpoint replace_first (pat rep before s : jsstring) : jsstring :=
  if starts_with pat s
  then before ++ substitution pat before (drop (length pat) s) rep ++ drop (length pat) s
  else match s with
       | [] => before
       | c :: s' => replace_first pat rep (before ++ [c]) s'
       end.

(** [receiver.replace(pat, replaceValue)] on data: only a string has the
    method; the replacement is converted to a string first. *)
Definition replace_method (receiver : value) (pat : jsstring) (replaceValue : value)
  : completion value :=
  match receiver with
  | VStr s =>
      rep ← ToString replaceValue;
      mret (VStr (replace_first pat rep [] s))
  | _ => Throw (NativeError (js "TypeError"))
  end.

(** The decimal numeral of an index. *)
Definition index_key (i : nat) : jsstring := Number_toString (Z.of_nat i).

(** [Object.entries(v)] on data: the own enumerable properties, in
    enumeration order. *)
Definition Object_entries (v : value) : completion (list (jsstring * value)) :=
  match v with
  | VUndefined | VNull => Throw (NativeError (js "TypeError"))
  | VBool _ | VNum _ => Normal []
  | VStr s => Normal (imap (λ i c, (index_key i, VStr [c])) s)
  | VArr elems => Normal (imap (λ i x, (index_key i, x)) elems)
  | VObj props => Normal props
  end.

(** Lifting a synchronous step into the body of an async function. *)
Definition lift {A} (c : completion A) : async A := λ now, Run [] (Done now c).

Module TaintRelay.

(** [return data] *)
Definition passthrough (data : value) : value := data.

(** [const arr = [data]; return arr[0]] *)
Definition arrayRelay (data : value) : value :=
  let arr := [data] in
  Array_at arr 0.

(** [const obj = { value: data }; return obj.value] *)
Definition objectRelay (data : value) : jsval :=
  let obj := [(js "value", data)] in
  Object_get obj (js "value").

(** [return new Promise(resolve => { setTimeout(() => resolve(data), 0); })] *)
Definition asyncRelay (data : value) : nat -> started :=
  async_function (new_Promise [SetTimeout [Resolve data] 0]).

(** [step1 = passthrough(data); step2 = arrayRelay(step1);
    step3 = objectRelay(step2); return step3] *)
Definition multiHopRelay (data : value) : jsval :=
  let step1 := passthrough data in
  let step2 := arrayRelay step1 in
  let step3 := objectRelay step2 in
  step3.

End TaintRelay.

Module TaintTransform.

(** [return `${prefix}${taintedData}${suffix}`] *)
Definition concat (prefix taintedData suffix : value) : completion value :=
  p ← ToString prefix;
  d ← ToString taintedData;
  s ← ToString suffix;
  mret (VStr (p ++ d ++ s)).

(** [const json = JSON.stringify(data); return JSON.parse(json)];
    [JSON.parse] converts its argument to a string, so [undefined] is read
    as the text ["undefined"]. *)
Definition jsonRoundTrip (data : value) : parse_result value :=
  let json := JSON_stringify data in
  JSON_parse (default (js "undefined") json).

(** [const encoded = Buffer.from(data).toString('base64');
     return Buffer.from(encoded, 'base64').toString()], for a string *)
Definition base64RoundTrip (data : jsstring) : jsstring :=
  let encoded := base64_encode (utf8_encode data) in
  utf8_decode (base64_decode encoded).

(** [let result = template;
     for (const [key, value] of Object.entries(values))
       result = result.replace(`{${key}}`, value);
     return result] *)
Definition interpolate (template values : value) : completion value :=
  entries ← Object_entries values;
  foldl (λ (result : completion value) (entry : jsstring * value),
           r ← result;
           replace_method r (js "{" ++ entry.1 ++ js "}") entry.2)
        (Normal template) entries.

(** [taintedArray.map(item => item).filter(item => item)
       .reduce((acc, item) => [...acc, item], [])]: only an array has [map] *)
Definition arrayOperations (taintedArray : value) : completion value :=
  match taintedArray with
  | VArr elems =>
      let mapped := (λ item, item) <$> elems in
      let filtered := filter (λ item, ToBoolean item = true) mapped in
      Normal (VArr (foldl (λ acc item, acc ++ [item]) [] filtered))
  | _ => Throw (NativeError (js "TypeError"))
  end.

(** [return { ...taintedObj }]: the own enumerable properties are copied,
    one after the other, into a new object; [undefined] and [null] give
    an empty one. *)
Definition objectSpread (taintedObj : value) : value :=
  VObj (foldl (λ acc entry, define_property entry.1 entry.2 acc) []
          match Object_entries taintedObj with
          | Normal entries => entries
          | Throw _ => []
          end).

(** A read of a property named [a], [b] or [c]: no built-in prototype
    defines these names, so the read yields the own property of an object
    and [undefined] in every other case. *)
Definition read_field (v : value) (k : jsstring) : value :=
  match v with
  | VObj props => default VUndefined (own_property k props)
  | _ => VUndefined
  end.

(** [const { a, b, c } = taintedObj; return { a, b, c }] *)
Definition destructure (taintedObj : value) : completion value :=
  match taintedObj with
  | VUndefined | VNull => Throw (NativeError (js "TypeError"))
  | _ =>
      let a := read_field taintedObj (js "a") in
      let b := read_field taintedObj (js "b") in
      let c := read_field taintedObj (js "c") in
      Normal (VObj [(js "a", a); (js "b", b); (js "c", c)])
  end.

End TaintTransform.

Module ChainBuilder.

(** [const transformed = transformer(source); return await sink(transformed)] *)
Definition simpleChain (source : value)
    (transformer : value -> completion value)
    (sink : value -> completion returned) : nat -> started :=
  async_function (
    transformed ← call Transformer transformer source;
    r ← call (Sink 0) sink transformed;
    v ← await r;
    mret (Plain v)).

(** [return await Promise.all(sinks.map(sink => sink(source)))] *)
Definition parallelSinks (source : value)
    (sinks : list (value -> completion returned)) : nat -> started :=
  async_function (
    rs ← map_invoke 0 sinks source;
    all ← Promise_all rs;
    v ← await all;
    mret (Plain v)).

(** [const result1 = await sink1(source); return await sink2(result1)] *)
Definition sequentialSinks (source : value)
    (sink1 sink2 : value -> completion returned) : nat -> started :=
  async_function (
    r1 ← call (Sink 0) sink1 source;
    result1 ← await r1;
    r2 ← call (Sink 1) sink2 result1;
    v ← await r2;
    mret (Plain v)).

(** [const merged = merger(...sources); return await sink(merged)] *)
Definition mergedSources (sources : list value)
    (merger : list value -> completion value)
    (sink : value -> completion returned) : nat -> started :=
  async_function (
    merged ← lift (merger sources);
    r ← call (Sink 0) sink merged;
    v ← await r;
    mret (Plain v)).

End ChainBuilder.

Module ContextPropagation.

(** The prototype of the context object: [Object.prototype] at first; the
    [__proto__] setter can replace it by a data object, an array or
    [null]. *)
Inductive prototype :=
| ObjectPrototype
| NoPrototype
| DataObject (props : list (jsstring * value))
| DataArray (elems : list value).

(** [this.context]: an ordinary object, its own properties and its
    prototype. *)
Record context := Context { own : gmap (list N) value; proto : prototype }.

(** [this.context = {}] *)
Definition new : context := Context ∅ ObjectPrototype.

Definition prototype_value (p : prototype) : jsval :=
  match p with
  | ObjectPrototype => Builtin (js "Object.prototype")
  | NoPrototype => Data VNull
  | DataObject props => Data (VObj props)
  | DataArray elems => Data (VArr elems)
  end.

(** A read that did not find an own property goes up the chain. *)
Definition inherited (p : prototype) (k : jsstring) : jsval :=
  match p with
  | ObjectPrototype => Object_prototype_get (prototype_value p) k
  | NoPrototype => Data VUndefined
  | DataObject props =>
      match own_property k props with
      | Some v => Data v
      | None => Object_prototype_get (prototype_value p) k
      end
  | DataArray elems => Array_get (prototype_value p) elems k
  end.

(** Does a write of [__proto__] that finds no own property reach the
    accessor of [Object.prototype]?  A data property of that name on the
    way hides it, and a [null] prototype ends the chain before it. *)
Definition reaches_proto_accessor (p : prototype) : bool :=
  match p with
  | ObjectPrototype => true
  | NoPrototype => false
  | DataObject props => bool_decide (own_property (js "__proto__") props = None)
  | DataArray _ => true
  end.

(** The [__proto__] setter: an object or [null] becomes the prototype,
    anything else is ignored. *)
Definition set_prototype (v : value) (c : context) : context :=
  match v with
  | VObj props => Context (own c) (DataObject props)
  | VArr elems => Context (own c) (DataArray elems)
  | VNull => Context (own c) NoPrototype
  | _ => c
  end.

(** [this.context[key] = value].  Every inherited property but the
    [__proto__] accessor is a writable data property, so the write makes
    or updates an own property. *)
Definition set (key : jsstring) (v : value) (c : context) : context :=
  if bool_decide (key = js "__proto__") && bool_decide (own c !! key = None)
     && reaches_proto_accessor (proto c)
  then set_prototype v c
  else Context (<[key := v]> (own c)) (proto c).

(** [return this.context[key]] *)
Definition get (key : jsstring) (c : context) : jsval :=
  match own c !! key with
  | Some v => Data v
  | None => inherited (proto c) key
  end.

End ContextPropagation.

Module JwtSource.
Section builtins.

(** The two built-ins [extractClaims] relies on, for any behaviour they
    may have: [Buffer.from(s, 'base64').toString()], which never throws,
    and [JSON.parse], which returns the parsed value or throws. *)
Variable base64_to_text : jsstring -> jsstring.
Variable JSON_parse : jsstring -> completion value.

(** [token.split('.')]: only a string has a [split] method; on other data
    the property is missing or not callable and the call throws. *)
Definition split_method (token : value) (sep : code_unit) : completion (list jsstring) :=
  match token with
  | VStr s => Normal (split_on sep s)
  | _ => Throw (NativeError (js "TypeError"))
  end.

(** [if (!token) return null;
     try { const parts = token.split('.');
           if (parts.length !== 3) return null;
           const payload = Buffer.from(parts[1], 'base64').toString();
           return JSON.parse(payload); }
     catch (e) { return null; }] *)
Definition extractClaims (token : value) : completion value :=
  if negb (ToBoolean token) then Normal VNull
  else
    try_catch
      (parts ← split_method token 46%N;
       if negb (length parts =? 3)%nat then Normal VNull
       else
         let payload := base64_to_text (default [] (parts !! 1)) in
         JSON_parse payload)
      (λ e, Normal VNull).

(** Written from the description: [null] for a missing or empty token,
    for a token that does not split into exactly three parts at the dots,
    and for a payload that does not parse; the parsed claims otherwise. *)
Definition described_claims (token : value) : value :=
  match token with
  | VStr [] => VNull
  | VStr s =>
      match split_on 46%N s with
      | [_; payload; _] =>
          match JSON_parse (base64_to_text payload) with
          | Normal claims => claims
          | Throw _ => VNull
          end
      | _ => VNull
      end
  | _ => VNull
  end.

(** An ASCII capital letter as the small one. *)
Definition ascii_lower (c : code_unit) : code_unit :=
  if (65 <=? c)%N && (c <=? 90)%N then (c + 32)%N else c.

(** [scheme.toLowerCase() === 'bearer'].  No character outside ASCII has one
    of the letters of [bearer] as its lower case, so the comparison holds
    exactly for the spellings of the word in ASCII letters of either case. *)
Definition is_bearer (scheme : jsstring) : bool :=
  bool_decide (ascii_lower <$> scheme = js "bearer").

(** [if (!authHeader) return null;
     const [scheme, token] = authHeader.split(' ');
     if (scheme?.toLowerCase() === 'bearer') return this.extractClaims(token);
     return null] *)
Definition extractFromHeader (authHeader : value) : completion value :=
  if negb (ToBoolean authHeader) then Normal VNull
  else
    parts ← split_method authHeader 32%N;
    let scheme := parts !! 0 in
    let token := match parts !! 1 with
                 | Some t => VStr t
                 | None => VUndefined
                 end in
    match scheme with
    | Some s => if is_bearer s then extractClaims token else Normal VNull
    | None => Normal VNull
    end.

End builtins.
End JwtSource.

Module AuthMiddleware.

(** The claims [extractUser] reads. *)
Inductive claim_name := claim_sub | claim_email | claim_role | claim_permissions.

Definition name_of (n : claim_name) : jsstring :=
  match n with
  | claim_sub => js "sub"
  | claim_email => js "email"
  | claim_role => js "role"
  | claim_permissions => js "permissions"
  end.

(** [claims.sub], [claims.email], [claims.role], [claims.permissions]: the
    own property of an object, or what the prototype chain has under the
    name.  Of the four names the built-in prototypes define one,
    [String.prototype.sub]. *)
Definition claim (claims : value) (n : claim_name) : completion jsval :=
  match claims with
  | VUndefined | VNull => Throw (NativeError (js "TypeError"))
  | VBool _ | VNum _ => Normal (Data VUndefined)
  | VStr _ =>
      Normal match n with
             | claim_sub => Builtin (js "String.prototype.sub")
             | _ => Data VUndefined
             end
  | VArr elems => Normal (Array_get (Builtin (js "Array.prototype")) elems (name_of n))
  | VObj props => Normal (Object_get props (name_of n))
  end.

(** [req.user] as [extractUser] sets it. *)
Record user := User { id : jsval; email : jsval; role : jsval; permissions : jsval }.

(** What a middleware does with a request: it answers with
    [res.status(code).json({ error })], or it calls [next()]; [req.user] is
    what the request carries then. *)
Inductive reply :=
| Status (code : nat) (error : jsstring)
| Next (req_user : option user).

Section builtins.
Variable base64_to_text : jsstring -> jsstring.
Variable JSON_parse : jsstring -> completion value.

(** [const authHeader = req.headers['authorization'];
     if (!authHeader) return res.status(401).json({ error: 'No authorization header' });
     const claims = JwtSource.extractFromHeader(authHeader);
     if (!claims) return res.status(401).json({ error: 'Invalid token' });
     req.user = { id: claims.sub, email: claims.email, role: claims.role,
                  permissions: claims.permissions };
     next()] *)
Definition extractUser (authHeader : value) : completion reply :=
  if negb (ToBoolean authHeader)
  then Normal (Status 401 (js "No authorization header"))
  else
    claims ← JwtSource.extractFromHeader base64_to_text JSON_parse authHeader;
    if negb (ToBoolean claims) then Normal (Status 401 (js "Invalid token"))
    else
      sub ← claim claims claim_sub;
      email ← claim claims claim_email;
      role ← claim claims claim_role;
      permissions ← claim claims claim_permissions;
      Normal (Next (Some (User sub email role permissions))).

End builtins.

(** [if (req.user?.role !== role) return res.status(403).json(...); next()],
    for a role that is a string: the comparison is strict, so only the same
    string passes. *)
Definition requireRole (role : jsstring) (req_user : option user) : reply :=
  match req_user with
  | Some (User _ _ (Data (VStr s)) _) =>
      if decide (s = role) then Next req_user
      else Status 403 (js "Insufficient permissions")
  | _ => Status 403 (js "Insufficient permissions")
  end.

(** [return AuthMiddleware.requireRole('admin')(req, res, next)] *)
Definition requireAdmin (req_user : option user) : reply :=
  requireRole (js "admin") req_user.

End AuthMiddleware.

(** ** Provenance

    The sources keep no label objects: provenance is what an analysis
    attributes to a value.  A labelling gives every value its set of origin
    labels.  The notion of the code ("still tainted") is data flow: a
    labelling respects flow when a string that embeds another one carries at
    least the labels of the embedded one. *)
Section provenance.
Context {label : Type} `{Countable label}.
Variable labels : value -> gset label.

Definition labels_of (x : jsval) : gset label :=
  match x with
  | Data v => labels v
  | Builtin _ => ∅
  end.

Definition labels_delivered (p : promise) : gset label :=
  match p with
  | Settles _ (Fulfilled v) => labels v
  | _ => ∅
  end.

Definition respects_flow : Prop :=
  ∀ pre s post : jsstring, labels (VStr s) ⊆ labels (VStr (pre ++ s ++ post)).

End provenance.

(** The labelling of a data-flow analysis for one origin: a string carries
    the origin when it embeds the payload that came from it. *)
Definition embeds_label (origin : string) (payload : jsstring) (v : value) : gset string :=
  match v with
  | VStr s => if includes payload s then {[origin]} else ∅
  | _ => ∅
  end.

(** The arguments the sinks of a run were invoked with, in order. *)
Definition sink_arguments (evs : list event) : list value :=
  omap (λ ev, match callee_of ev with
              | Sink _ => Some (argument_of ev)
              | Transformer => None
              end) evs.

(** The sinks a run invoked, in order. *)
Definition sinks_invoked (evs : list event) : list nat :=
  omap (λ ev, match callee_of ev with
              | Sink i => Some i
              | Transformer => None
              end) evs.

(** [x] delivers [v]: it is [v], or a promise fulfilled with [v]. *)
Definition delivers (x : returned) (v : value) : Prop :=
  x = Plain v ∨ ∃ t, x = Thenable (Settles t (Fulfilled v)).

(** [x] is a promise rejected with [e]. *)
Definition rejects (x : returned) (e : exn) : Prop :=
  ∃ t, x = Thenable (Settles t (Rejected e)).

(** Taint-loss detection as a harness with a verification layer would have
    it: when the transformer of a chain strips every label of a labelled
    source, the run is rejected with a [TaintLossError] and no sink is
    reached. *)
Definition taint_loss_reported (labels : value -> gset string) : Prop :=
  ∀ (s x : value) (t : value -> completion value) (k : value -> completion returned) (now : nat),
    labels s ≠ ∅ -> t s = Normal x -> labels x = ∅ ->
    sink_arguments (events (ChainBuilder.simpleChain s t k now)) = []
    ∧ ∃ turn, result (ChainBuilder.simpleChain s t k now)
              = Settles turn (Rejected (NativeError (js "TaintLossError"))).
(** * Properties *)

(** Division and remainder by constants are linear arithmetic. *)
Ltac Zify.zify_post_hook ::= Z.to_euclidean_division_equations.

(** ** [WeakSanitizers] *)

Example sanitizeCommand_ex :
  WeakSanitizers.sanitizeCommand (js "a;;b") = js "a;b".
Proof. reflexivity. Qed.

Example sanitizePath_ex :
  WeakSanitizers.sanitizePath (js "....//etc") = js "../etc".
Proof. reflexivity. Qed.

Lemma String_replace_unit (c : code_unit) (s : jsstring) :
  String_replace [c] [] s =
  match s with
  | [] => []
  | x :: s' => if decide (x = c) then s' else x :: String_replace [c] [] s'
  end.
Proof.
  destruct s as [|x s']; [done|]. simpl.
  destruct (N.eqb_spec c x) as [->|Hne]; simpl.
  - rewrite decide_True by done. by rewrite drop_0.
  - by rewrite decide_False by congruence.
Qed.

Lemma filter_ne_id (c : code_unit) (l : list code_unit) :
  c ∉ l -> filter (λ x, x ≠ c) l = l.
Proof.
  induction l as [|y l IH]; intros Hc; [done|].
  apply not_elem_of_cons in Hc as [Hne Hc].
  rewrite filter_cons_True by congruence. f_equal. by apply IH.
Qed.

Lemma filter_ne_not_elem (c x : code_unit) (l : list code_unit) :
  c ∉ l -> c ∉ filter (λ y, y ≠ x) l.
Proof. intros Hc Hin. apply list_elem_of_filter in Hin. tauto. Qed.

Lemma drop_first_of_each_cons (c : code_unit) (todo : list code_unit) (s : jsstring) :
  c ∉ todo ->
  WeakSanitizers.drop_first_of_each (c :: todo) s =
  WeakSanitizers.drop_first_of_each todo (String_replace [c] [] s).
Proof.
  revert todo. induction s as [|x s IH]; intros todo Hc; [done|].
  rewrite String_replace_unit. cbn [WeakSanitizers.drop_first_of_each].
  destruct (decide (x = c)) as [->|Hne].
  - rewrite decide_True by (apply elem_of_cons; by left).
    rewrite filter_cons_False by (intros H; by apply H).
    by rewrite filter_ne_id.
  - cbn [WeakSanitizers.drop_first_of_each].
    destruct (decide (x ∈ todo)) as [Hin|Hnin].
    + rewrite decide_True by (apply elem_of_cons; by right).
      rewrite filter_cons_True by congruence.
      apply IH. by apply filter_ne_not_elem.
    + rewrite decide_False by (apply not_elem_of_cons; split; done).
      f_equal. by apply IH.
Qed.

Lemma drop_first_of_each_nil (s : jsstring) :
  WeakSanitizers.drop_first_of_each [] s = s.
Proof.
  induction s as [|x s IH]; [done|]. cbn [WeakSanitizers.drop_first_of_each].
  rewrite decide_False by apply not_elem_of_nil. by rewrite IH.
Qed.

Lemma fold_replace_drop_first (units : list code_unit) (input : jsstring) :
  NoDup units ->
  fold_left (λ input char, String_replace char [] input) ((λ u, [u]) <$> units) input =
  WeakSanitizers.drop_first_of_each units input.
Proof.
  intros Hnd. revert input.
  induction Hnd as [|c units Hc Hnd IH]; intros input; simpl.
  - by rewrite drop_first_of_each_nil.
  - rewrite IH. by rewrite drop_first_of_each_cons.
Qed.

Lemma occurrences_cons (c x : code_unit) (s : jsstring) :
  occurrences c (x :: s) = (if decide (x = c) then 1 else 0) + occurrences c s.
Proof.
  unfold occurrences. rewrite filter_cons.
  by destruct (decide (x = c)).
Qed.

Lemma occurrences_elem_of (c : code_unit) (s : jsstring) :
  0 < occurrences c s -> c ∈ s.
Proof.
  induction s as [|x s IH]; [unfold occurrences; simpl; lia|].
  rewrite occurrences_cons. destruct (decide (x = c)) as [->|Hne].
  - intros _. apply elem_of_cons. by left.
  - intros H. apply elem_of_cons. right. apply IH. lia.
Qed.

Lemma occurrences_drop_first_of_each (c : code_unit) (todo : list code_unit) (s : jsstring) :
  occurrences c (WeakSanitizers.drop_first_of_each todo s) =
  if decide (c ∈ todo) then pred (occurrences c s) else occurrences c s.
Proof.
  revert todo. induction s as [|x s IH]; intros todo.
  - by destruct (decide (c ∈ todo)).
  - cbn [WeakSanitizers.drop_first_of_each]. rewrite (occurrences_cons c x s).
    destruct (decide (x ∈ todo)) as [Hx|Hx].
    + rewrite IH. destruct (decide (x = c)) as [->|Hne].
      * rewrite (decide_True _ _ Hx).
        rewrite decide_False; [simpl; lia|].
        intros H. apply list_elem_of_filter in H. tauto.
      * destruct (decide (c ∈ todo)) as [Hc|Hc].
        -- rewrite decide_True; [done|].
           apply list_elem_of_filter. split; [congruence|done].
        -- rewrite decide_False; [done|].
           intros H. apply list_elem_of_filter in H. tauto.
    + rewrite occurrences_cons, IH.
      destruct (decide (x = c)) as [->|Hne].
      * destruct (decide (c ∈ todo)); [done|lia].
      * destruct (decide (c ∈ todo)); lia.
Qed.

Lemma sanitizeCommand_drop_first (input : jsstring) :
  WeakSanitizers.sanitizeCommand input =
  WeakSanitizers.drop_first_of_each WeakSanitizers.blacklisted input.
Proof.
  unfold WeakSanitizers.sanitizeCommand.
  apply (fold_replace_drop_first WeakSanitizers.blacklisted).
  apply (bool_decide_unpack _). by vm_compute.
Qed.

(** C8. [WeakSanitizers.sanitizeCommand] removes only the first occurrence of
    each blacklisted character: it is the single pass that drops each
    blacklisted unit the first time it is met.  So a blacklisted character
    that occurs at least twice in the input loses exactly one occurrence and
    is still in the result; [sanitizeCommand("a;;b")] is ["a;b"]. *)
Theorem sanitizeCommand_first_occurrence_only (input : jsstring) (c : code_unit) :
  c ∈ WeakSanitizers.blacklisted ->
  2 <= occurrences c input ->
  WeakSanitizers.sanitizeCommand input =
    WeakSanitizers.drop_first_of_each WeakSanitizers.blacklisted input
  /\ occurrences c (WeakSanitizers.sanitizeCommand input) = pred (occurrences c input)
  /\ c ∈ WeakSanitizers.sanitizeCommand input
  /\ WeakSanitizers.sanitizeCommand (js "a;;b") = js "a;b".
Proof.
  intros Hc Hocc.
  assert (Hn : occurrences c (WeakSanitizers.sanitizeCommand input) = pred (occurrences c input)).
  { rewrite sanitizeCommand_drop_first, occurrences_drop_first_of_each.
    by rewrite decide_True. }
  split; [apply sanitizeCommand_drop_first|].
  split; [done|]. split; [|reflexivity].
  apply occurrences_elem_of. lia.
Qed.

Lemma sanitizeCommand_first_occurrence_only_witness :
  WeakSanitizers.sanitizeCommand (js "a;;b") =
    WeakSanitizers.drop_first_of_each WeakSanitizers.blacklisted (js "a;;b")
  /\ occurrences 59%N (WeakSanitizers.sanitizeCommand (js "a;;b")) = pred (occurrences 59%N (js "a;;b"))
  /\ 59%N ∈ WeakSanitizers.sanitizeCommand (js "a;;b")
  /\ WeakSanitizers.sanitizeCommand (js "a;;b") = js "a;b".
Proof.
  apply (sanitizeCommand_first_occurrence_only (js "a;;b") 59%N).
  - apply (bool_decide_unpack _). by vm_compute.
  - vm_compute. lia.
Defined.

(** C9. [WeakSanitizers.sanitizePath] is not idempotent: on ["....//etc"] the
    single global pass leaves ["../etc"], which still contains ["../"], and
    a second pass changes it again. *)
Theorem sanitizePath_not_idempotent :
  exists x : jsstring,
    x = js "....//etc"
    /\ WeakSanitizers.sanitizePath x = js "../etc"
    /\ includes (js "../") (WeakSanitizers.sanitizePath x) = true
    /\ WeakSanitizers.sanitizePath (WeakSanitizers.sanitizePath x) ≠ WeakSanitizers.sanitizePath x.
Proof.
  exists (js "....//etc"). repeat split; try reflexivity.
  vm_compute. discriminate.
Qed.

Example asyncRelay_ex :
  TaintRelay.asyncRelay (VStr (js "x")) 0 = Started [] (Settles 1 (Fulfilled (VStr (js "x")))).
Proof. reflexivity. Qed.

Example parallel_ex :
  ChainBuilder.parallelSinks (VStr (js "x"))
    [ (λ _, Normal (Thenable (Settles 3 (Rejected (NativeError (js "Error"))))));
      (λ v, Normal (Plain v)) ] 0
  = Started [Invoke (Sink 0) (VStr (js "x")) 0; Invoke (Sink 1) (VStr (js "x")) 0]
            (Settles 3 (Rejected (NativeError (js "Error")))).
Proof. reflexivity. Qed.

(** ** [TaintRelay] *)

(** C1. Label monotonicity of the relay library: [passthrough], [arrayRelay],
    [objectRelay] and [multiHopRelay] return their input unchanged and
    [asyncRelay] returns a promise fulfilled with it, for every input; so
    under every labelling the output carries at least the labels of the
    input. *)
Theorem relay_label_monotonicity `{Countable label}
    (labels : value -> gset label) (v : value) (now : nat) :
  (TaintRelay.passthrough v = v
   /\ TaintRelay.arrayRelay v = v
   /\ TaintRelay.objectRelay v = Data v
   /\ TaintRelay.multiHopRelay v = Data v
   /\ ∃ turn, TaintRelay.asyncRelay v now = Started [] (Settles turn (Fulfilled v)))
  /\ (labels v ⊆ labels (TaintRelay.passthrough v)
      /\ labels v ⊆ labels (TaintRelay.arrayRelay v)
      /\ labels v ⊆ labels_of labels (TaintRelay.objectRelay v)
      /\ labels v ⊆ labels_of labels (TaintRelay.multiHopRelay v)
      /\ labels v ⊆ labels_delivered labels (result (TaintRelay.asyncRelay v now))).
Proof.
  assert (Hobj : TaintRelay.objectRelay v = Data v).
  { unfold TaintRelay.objectRelay, Object_get. cbn [own_property].
    by rewrite decide_True. }
  assert (Harr : TaintRelay.arrayRelay v = v) by reflexivity.
  assert (Hmulti : TaintRelay.multiHopRelay v = Data v).
  { unfold TaintRelay.multiHopRelay, TaintRelay.passthrough. cbv zeta.
    rewrite Harr. exact Hobj. }
  assert (Hasync : TaintRelay.asyncRelay v now = Started [] (Settles (S (now + 0)) (Fulfilled v))).
  { unfold TaintRelay.asyncRelay, async_function, new_Promise. cbn.
    by rewrite Nat.max_r by lia. }
  split.
  - repeat split; try done. by eexists.
  - rewrite Hobj, Hmulti, Harr, Hasync. cbn. done.
Qed.

(** ** [ChainBuilder] *)

Lemma simpleChain_run (s x : value) (t : value -> completion value)
    (k : value -> completion returned) (now : nat) :
  t s = Normal x ->
  ChainBuilder.simpleChain s t k now =
  Started [Invoke Transformer s now; Invoke (Sink 0) x now]
    match k x with
    | Normal (Plain r) => Settles now (Fulfilled r)
    | Normal (Thenable p) => seen_from now p
    | Throw e => Settles now (Rejected e)
    end.
Proof.
  intros Ht. unfold ChainBuilder.simpleChain, async_function, mbind, async_bind, call.
  rewrite Ht. cbn.
  destruct (k x) as [[r|[turn [v|e]|]]|e]; cbn; reflexivity.
Qed.

Lemma simpleChain_transformer_throws (s : value) (e : exn) (t : value -> completion value)
    (k : value -> completion returned) (now : nat) :
  t s = Throw e ->
  ChainBuilder.simpleChain s t k now =
  Started [Invoke Transformer s now] (Settles now (Rejected e)).
Proof.
  intros Ht. unfold ChainBuilder.simpleChain, async_function, mbind, async_bind, call.
  by rewrite Ht.
Qed.

Lemma starts_with_app_r (p l post : jsstring) :
  starts_with p l = true -> starts_with p (l ++ post) = true.
Proof.
  revert p. induction l as [|a l IH]; intros [|b p] Hp; try done.
  cbn [starts_with app] in *. apply andb_true_iff in Hp as [Hba Hp].
  apply andb_true_iff. split; [exact Hba|by apply IH].
Qed.

Lemma includes_app (p pre s post : jsstring) :
  includes p s = true -> includes p (pre ++ s ++ post) = true.
Proof.
  intros Hs. induction pre as [|c pre IH].
  - cbn [app]. induction s as [|c s IH].
    + destruct p; [by destruct post|discriminate Hs].
    + cbn [includes] in Hs. apply orb_true_iff in Hs as [Hs|Hs].
      * destruct ((c :: s) ++ post) as [|a l] eqn:Hl; [discriminate Hl|].
        cbn [includes]. apply orb_true_iff. left. rewrite <- Hl.
        by apply starts_with_app_r.
      * cbn [app includes]. apply orb_true_iff. right. by apply IH.
  - cbn [app includes]. apply orb_true_iff. by right.
Qed.

Lemma embeds_label_respects_flow (origin : string) (payload : jsstring) :
  respects_flow (embeds_label origin payload).
Proof.
  intros pre s post. unfold embeds_label.
  destruct (includes payload s) eqn:Hs; [|apply empty_subseteq].
  by rewrite (includes_app payload pre s post Hs).
Qed.

(** C7 (as stated) fails: the chain of scenario 1 does not complete for every
    sink.  With a sink whose promise is rejected (a command that fails) the
    sink is invoked with ["ls -la"] and the chain is rejected; and with a
    transformer that throws the sink is not invoked at all. *)
Lemma simpleChain_may_not_complete :
  let boom := NativeError (js "Error") in
  let append : value -> completion value :=
    λ d, TaintTransform.concat (VStr []) d (VStr (js " -la")) in
  ChainBuilder.simpleChain (VStr (js "ls")) append
    (λ _, Normal (Thenable (Settles 1 (Rejected boom)))) 0
  = Started [Invoke Transformer (VStr (js "ls")) 0; Invoke (Sink 0) (VStr (js "ls -la")) 0]
            (Settles 1 (Rejected boom))
  /\ sinks_invoked (events (ChainBuilder.simpleChain (VStr (js "ls")) (λ _, Throw boom)
                              (λ v, Normal (Plain v)) 0)) = []
  /\ result (ChainBuilder.simpleChain (VStr (js "ls")) (λ _, Throw boom)
               (λ v, Normal (Plain v)) 0) = Settles 0 (Rejected boom).
Proof. repeat split; reflexivity. Qed.

(** C7 (amended). Sequential chain composition.  When the transformer returns
    [x] for the source, [simpleChain] invokes the sink exactly once, with
    [x], in the turn of the call, and its promise settles as the sink's
    result does: fulfilled with what the sink delivers, rejected with what
    it throws or rejects with.  When the transformer throws, the sink is not
    invoked and the promise is rejected with what was thrown.  In scenario 1
    (a string payload, ["ls"] for one, and a concat relay appending
    [" -la"]) the sink receives the payload followed by [" -la"]; the code
    keeps no tags, but that value embeds the payload, so it has every label
    of the payload under each labelling that follows data flow; and the
    chain is fulfilled, with a value, exactly when the sink delivers that
    value. *)
Theorem simpleChain_composition `{Countable label} (labels : value -> gset label)
    (s : value) (t : value -> completion value)
    (k : value -> completion returned) (payload : jsstring) (now : nat) :
  match t s with
  | Normal x =>
      events (ChainBuilder.simpleChain s t k now)
        = [Invoke Transformer s now; Invoke (Sink 0) x now]
      /\ sink_arguments (events (ChainBuilder.simpleChain s t k now)) = [x]
      /\ result (ChainBuilder.simpleChain s t k now) =
           match k x with
           | Normal ret => as_promise now ret
           | Throw e => Settles now (Rejected e)
           end
  | Throw e =>
      sink_arguments (events (ChainBuilder.simpleChain s t k now)) = []
      /\ result (ChainBuilder.simpleChain s t k now) = Settles now (Rejected e)
  end
  /\ (let run := ChainBuilder.simpleChain (VStr payload)
                   (λ d, TaintTransform.concat (VStr []) d (VStr (js " -la"))) k now in
      sink_arguments (events run) = [VStr (payload ++ js " -la")]
      /\ (respects_flow labels ->
          ∀ v, v ∈ sink_arguments (events run) -> labels (VStr payload) ⊆ labels v)
      /\ ∀ r, (∃ turn, result run = Settles turn (Fulfilled r))
              <-> ∃ ret, k (VStr (payload ++ js " -la")) = Normal ret ∧ delivers ret r).
Proof.
  split.
  - destruct (t s) as [x|e] eqn:Ht.
    + rewrite (simpleChain_run s x t k now Ht). split; [done|]. split; [done|].
      cbn [result]. by destruct (k x) as [[r|p]|e].
    + by rewrite (simpleChain_transformer_throws s e t k now Ht).
  - cbv zeta.
    rewrite (simpleChain_run (VStr payload) (VStr (payload ++ js " -la")) _ k now)
      by reflexivity.
    split; [reflexivity|]. split.
    + intros Hflow v Hv. cbn in Hv. apply list_elem_of_singleton in Hv as ->.
      apply (Hflow [] payload (js " -la")).
    + intros r. cbn [result]. split.
      * intros [turn Hres].
        destruct (k (VStr (payload ++ js " -la"))) as [[r'|[t' [v|e]|]]|e];
          cbn in Hres; try discriminate Hres; injection Hres as _ ->;
          eexists; (split; [reflexivity|]); [by left|right; by eexists].
      * intros [ret [-> [->|[t' ->]]]]; cbn; by eexists.
Qed.

Lemma simpleChain_composition_witness :
  sink_arguments (events (ChainBuilder.simpleChain (VStr (js "ls"))
     (λ d, TaintTransform.concat (VStr []) d (VStr (js " -la")))
     (λ v, Normal (Plain v)) 0)) = [VStr (js "ls -la")]
  /\ (∀ v, v ∈ sink_arguments (events (ChainBuilder.simpleChain (VStr (js "ls"))
             (λ d, TaintTransform.concat (VStr []) d (VStr (js " -la")))
             (λ v, Normal (Plain v)) 0)) ->
           "HTTP_BODY" ∈ embeds_label "HTTP_BODY" (js "ls") v)
  /\ embeds_label "HTTP_BODY" (js "ls") (VStr (js "id")) = ∅
  /\ ∃ turn, result (ChainBuilder.simpleChain (VStr (js "ls"))
       (λ d, TaintTransform.concat (VStr []) d (VStr (js " -la")))
       (λ v, Normal (Plain v)) 0) = Settles turn (Fulfilled (VStr (js "ls -la"))).
Proof.
  destruct (simpleChain_composition (embeds_label "HTTP_BODY" (js "ls"))
              (VStr (js "ls"))
              (λ d, TaintTransform.concat (VStr []) d (VStr (js " -la")))
              (λ v, Normal (Plain v)) (js "ls") 0) as (_ & Hargs & Hlabels & Hdone).
  split; [exact Hargs|]. split; [|split; [reflexivity|]].
  - intros v Hv.
    apply (Hlabels (embeds_label_respects_flow "HTTP_BODY" (js "ls")) v Hv).
    by apply elem_of_singleton.
  - apply Hdone. eexists. split; [reflexivity|]. by left.
Defined.

(** C2 (as stated) fails: a transformer that strips the only label of the
    source is not detected; the sink is invoked with the stripped value and
    the chain is fulfilled. *)
Lemma taint_loss_goes_unreported :
  let labels : value -> gset string :=
    λ v, match v with
         | VStr s => if decide (s = js "ls") then {["HTTP_BODY"]} else ∅
         | _ => ∅
         end in
  let strip : value -> completion value := λ _, Normal (VStr []) in
  let sink : value -> completion returned := λ v, Normal (Plain v) in
  labels (VStr (js "ls")) ≠ ∅
  /\ labels (VStr []) = ∅
  /\ ChainBuilder.simpleChain (VStr (js "ls")) strip sink 0 =
       Started [Invoke Transformer (VStr (js "ls")) 0; Invoke (Sink 0) (VStr []) 0]
               (Settles 0 (Fulfilled (VStr [])))
  /\ ¬ taint_loss_reported labels.
Proof.
  cbv zeta. split; [|split; [|split]].
  - rewrite decide_True by done. apply non_empty_singleton_L.
  - reflexivity.
  - reflexivity.
  - intros Hrep.
    destruct (Hrep (VStr (js "ls")) (VStr []) (λ _, Normal (VStr [])) (λ v, Normal (Plain v)) 0)
      as [Hsinks _].
    + rewrite decide_True by done. apply non_empty_singleton_L.
    + reflexivity.
    + reflexivity.
    + discriminate Hsinks.
Qed.

(** C2 (amended). [ChainBuilder] has no verification layer: when the
    transformer strips every label of a labelled source, [simpleChain] still
    invokes the sink, with the stripped value, and settles as the sink's
    result does; the chain is rejected only with what the sink throws or
    rejects with. *)
Theorem simpleChain_no_taint_check (labels : value -> gset string)
    (s x : value) (t : value -> completion value)
    (k : value -> completion returned) (now : nat) :
  labels s ≠ ∅ -> t s = Normal x -> labels x = ∅ ->
  sink_arguments (events (ChainBuilder.simpleChain s t k now)) = [x]
  /\ result (ChainBuilder.simpleChain s t k now) =
       match k x with
       | Normal (Plain r) => Settles now (Fulfilled r)
       | Normal (Thenable p) => seen_from now p
       | Throw e => Settles now (Rejected e)
       end
  /\ ∀ turn e, result (ChainBuilder.simpleChain s t k now) = Settles turn (Rejected e) ->
       k x = Throw e ∨ ∃ ret, k x = Normal ret ∧ rejects ret e.
Proof.
  intros _ Ht _. rewrite (simpleChain_run s x t k now Ht). cbn.
  split; [done|]. split; [done|].
  intros turn e. destruct (k x) as [[r|[turn' [v|e']|]]|e']; cbn; intros Hres;
    try discriminate Hres.
  - injection Hres as _ ->. right. eexists. split; [done|]. by eexists.
  - injection Hres as _ ->. by left.
Qed.

Lemma simpleChain_no_taint_check_witness :
  sink_arguments (events (ChainBuilder.simpleChain (VStr (js "ls"))
      (λ _, Normal (VStr [])) (λ v, Normal (Plain v)) 0)) = [VStr []]
  /\ result (ChainBuilder.simpleChain (VStr (js "ls"))
      (λ _, Normal (VStr [])) (λ v, Normal (Plain v)) 0) = Settles 0 (Fulfilled (VStr []))
  /\ ∀ turn e, result (ChainBuilder.simpleChain (VStr (js "ls"))
      (λ _, Normal (VStr [])) (λ v, Normal (Plain v)) 0) = Settles turn (Rejected e) ->
       Normal (Plain (VStr [])) = Throw e
       ∨ ∃ ret, Normal (Plain (VStr [])) = Normal ret ∧ rejects ret e.
Proof.
  apply (simpleChain_no_taint_check
           (λ v, match v with
                 | VStr s => if decide (s = js "ls") then {["HTTP_BODY"]} else ∅
                 | _ => ∅
                 end)
           (VStr (js "ls")) (VStr []) (λ _, Normal (VStr [])) (λ v, Normal (Plain v)) 0).
  - rewrite decide_True by done. apply non_empty_singleton_L.
  - reflexivity.
  - reflexivity.
Defined.

Lemma map_invoke_all (source : value) (sinks : list (value -> completion returned))
    (rets : list returned) (i now : nat) :
  Forall2 (λ k r, k source = Normal r) sinks rets ->
  map_invoke i sinks source now =
  Run (imap (λ j _, Invoke (Sink (i + j)) source now) sinks) (Done now (Normal rets)).
Proof.
  intros Hall. revert i.
  induction Hall as [|k r sinks rets Hk Hall IH]; intros i; [reflexivity|].
  cbn [map_invoke]. unfold mbind, async_bind, call at 1. rewrite Hk. cbn.
  rewrite (IH (S i)). cbn. rewrite Nat.add_0_r, app_nil_r. do 2 f_equal.
  apply imap_ext. intros j y _. cbn. do 2 f_equal. lia.
Qed.

Lemma map_invoke_throws (source : value) (before after : list (value -> completion returned))
    (k : value -> completion returned) (rets : list returned) (e : exn) (i now : nat) :
  Forall2 (λ k r, k source = Normal r) before rets ->
  k source = Throw e ->
  map_invoke i (before ++ k :: after) source now =
  Run (imap (λ j _, Invoke (Sink (i + j)) source now) (before ++ [k])) (Done now (Throw e)).
Proof.
  intros Hall Hk. revert i.
  induction Hall as [|k' r before rets Hk' Hall IH]; intros i.
  - cbn. unfold mbind, async_bind, call. rewrite Hk. cbn. by rewrite Nat.add_0_r.
  - cbn [app map_invoke]. unfold mbind, async_bind, call at 1. rewrite Hk'. cbn.
    rewrite (IH (S i)). cbn. rewrite Nat.add_0_r. do 2 f_equal.
    apply imap_ext. intros j y _. cbn. do 2 f_equal. lia.
Qed.

Lemma earliest_elem_of {A} (xs : list (nat * A)) (p : nat * A) :
  earliest xs = Some p -> p ∈ xs.
Proof.
  revert p. induction xs as [|[t a] xs IH]; intros p; [done|].
  cbn [earliest]. destruct (earliest xs) as [[t' a']|].
  - destruct (t' <? t)%nat; intros [= <-].
    + apply elem_of_cons. right. by apply IH.
    + apply elem_of_cons. by left.
  - intros [= <-]. apply elem_of_cons. by left.
Qed.

Lemma earliest_None {A} (xs : list (nat * A)) :
  earliest xs = None -> xs = [].
Proof.
  destruct xs as [|[t a] xs]; [done|]. cbn [earliest].
  destruct (earliest xs) as [[t' a']|]; [|done].
  by destruct (t' <? t)%nat.
Qed.

Lemma rejections_delivers (now : nat) (rets : list returned) (vs : list value) :
  Forall2 delivers rets vs ->
  rejections (as_promise now <$> rets) = []
  /\ ∃ turn, fulfilments now (as_promise now <$> rets) = Some (turn, vs).
Proof.
  induction 1 as [|ret v rets vs Hd Hall [IHr [turn IHf]]].
  - split; [done|]. by eexists.
  - destruct Hd as [->|[t ->]]; cbn; rewrite IHf; (split; [exact IHr|by eexists]).
Qed.

Lemma elem_of_rejections (now t : nat) (e : exn) (rets : list returned) :
  (t, e) ∈ rejections (as_promise now <$> rets) ->
  ∃ ret, ret ∈ rets ∧ rejects ret e.
Proof.
  unfold rejections. intros Hin.
  apply list_elem_of_omap in Hin as [p [Hp Hsome]].
  apply list_elem_of_fmap in Hp as [ret [-> Hret]].
  exists ret. split; [done|].
  destruct ret as [v|[t' [v|e']|]]; cbn in Hsome; try discriminate Hsome.
  injection Hsome as _ ->. by eexists.
Qed.

Lemma rejections_nonempty (now : nat) (e : exn) (ret : returned) (rets : list returned) :
  ret ∈ rets -> rejects ret e -> rejections (as_promise now <$> rets) ≠ [].
Proof.
  intros Hin [t ->] Hnil.
  assert (Hmem : (max now t, e) ∈ rejections (as_promise now <$> rets)).
  { unfold rejections. apply list_elem_of_omap.
    exists (Settles (max now t) (Rejected e)). split; [|done].
    apply list_elem_of_fmap. by exists (Thenable (Settles t (Rejected e))). }
  rewrite Hnil in Hmem. by apply not_elem_of_nil in Hmem.
Qed.

Lemma earliest_least {A} (xs : list (nat * A)) (t : nat) (a : A) :
  earliest xs = Some (t, a) -> ∀ t' a', (t', a') ∈ xs -> t <= t'.
Proof.
  revert t a. induction xs as [|[t0 a0] xs IH]; intros t a; [done|].
  cbn [earliest]. destruct (earliest xs) as [[t1 a1]|] eqn:Hxs.
  - destruct (Nat.ltb_spec t1 t0) as [Hlt|Hge]; intros [= <- <-] t' a' Hin;
      apply elem_of_cons in Hin as [[= -> ->]|Hin].
    + lia.
    + by apply (IH t1 a1 eq_refl t' a').
    + lia.
    + pose proof (IH t1 a1 eq_refl t' a' Hin). lia.
  - intros [= <- <-] t' a' Hin. apply earliest_None in Hxs. subst xs.
    apply list_elem_of_singleton in Hin as [= -> ->]. lia.
Qed.

Lemma elem_of_rejections_iff (now t : nat) (e : exn) (rets : list returned) :
  (t, e) ∈ rejections (as_promise now <$> rets)
  <-> ∃ ret, ret ∈ rets ∧ as_promise now ret = Settles t (Rejected e).
Proof.
  unfold rejections. rewrite list_elem_of_omap. split.
  - intros [p [Hp Hsome]]. apply list_elem_of_fmap in Hp as [ret [-> Hret]].
    exists ret. split; [done|].
    destruct (as_promise now ret) as [t' [v|e']|]; try discriminate Hsome.
    by injection Hsome as -> ->.
  - intros [ret [Hret Hp]]. exists (Settles t (Rejected e)). split; [|done].
    apply list_elem_of_fmap. by exists ret.
Qed.

Lemma fulfilments_turn (now : nat) (ps : list promise) (turn : nat) (vs : list value) :
  fulfilments now ps = Some (turn, vs) ->
  now <= turn
  /\ (∀ t o, Settles t o ∈ ps -> t <= turn)
  /\ (turn = now ∨ ∃ o, Settles turn o ∈ ps).
Proof.
  revert turn vs. induction ps as [|p ps IH]; intros turn vs.
  - intros [= <- <-]. split; [done|]. split; [|by left].
    intros t o Hin. by apply elem_of_nil in Hin.
  - cbn [fulfilments]. destruct p as [t [v|e]|]; try discriminate.
    destruct (fulfilments now ps) as [[t' vs']|]; [|discriminate].
    intros [= <- <-]. destruct (IH t' vs' eq_refl) as (Hnow & Hall & Hlast).
    split; [lia|]. split.
    + intros t0 o Hin. apply elem_of_cons in Hin as [[= -> ->]|Hin]; [lia|].
      pose proof (Hall t0 o Hin). lia.
    + destruct (Nat.max_spec t t') as [[_ ->]|[_ ->]].
      * destruct Hlast as [->|[o Ho]]; [by left|].
        right. exists o. apply elem_of_cons. by right.
      * right. exists (Fulfilled v). apply elem_of_cons. by left.
Qed.

Lemma fulfilments_pending (now : nat) (ps : list promise) :
  Forever ∈ ps -> fulfilments now ps = None.
Proof.
  induction ps as [|p ps IH]; intros Hin; [by apply elem_of_nil in Hin|].
  cbn [fulfilments]. destruct p as [t [v|e]|]; try done.
  apply elem_of_cons in Hin as [Hin|Hin]; [discriminate Hin|].
  by rewrite (IH Hin).
Qed.

(** C6 (as stated) fails.  With a sink [A] whose promise is rejected and a
    sink [B] that returns a result, the run is rejected with [A]'s reason and
    records nothing of [B]'s result; with a sink [A'] that throws at the
    call, [B] is not invoked at all. *)
Lemma parallelSinks_short_circuits :
  let boom := NativeError (js "Error") in
  let A : value -> completion returned := λ _, Normal (Thenable (Settles 1 (Rejected boom))) in
  let A' : value -> completion returned := λ _, Throw boom in
  let B : value -> completion returned := λ _, Normal (Plain (VStr (js "done"))) in
  ChainBuilder.parallelSinks (VStr (js "x")) [A; B] 0 =
    Started [Invoke (Sink 0) (VStr (js "x")) 0; Invoke (Sink 1) (VStr (js "x")) 0]
            (Settles 1 (Rejected boom))
  /\ ChainBuilder.parallelSinks (VStr (js "x")) [A'; B] 0 =
    Started [Invoke (Sink 0) (VStr (js "x")) 0] (Settles 0 (Rejected boom)).
Proof. split; reflexivity. Qed.

(** C6 (amended). When no sink throws at the call, [parallelSinks] invokes
    every listed sink, in list order and in the turn of the call, without
    waiting for any returned promise: a sink whose promise is rejected, or
    never settles, does not keep the later ones from being invoked.  When
    every sink delivers a result, the run is fulfilled with the array of all
    results, in the turn in which the last of them is delivered.  When the
    promise of some sink is rejected, the run is rejected as soon as the
    first rejection happens: in the turn of the earliest rejection, with the
    reason of a promise rejected in that turn, and no result of another sink
    is returned.  When no promise is rejected and one never settles, the run
    never settles. *)
Theorem parallelSinks_fanout (source : value) (sinks : list (value -> completion returned))
    (rets : list returned) (now : nat) :
  Forall2 (λ k r, k source = Normal r) sinks rets ->
  events (ChainBuilder.parallelSinks source sinks now) =
    imap (λ i _, Invoke (Sink i) source now) sinks
  /\ (∀ vs, Forall2 delivers rets vs ->
        ∃ turn, result (ChainBuilder.parallelSinks source sinks now)
                = Settles turn (Fulfilled (VArr vs))
          ∧ now <= turn
          ∧ (∀ ret t o, ret ∈ rets -> as_promise now ret = Settles t o -> t <= turn)
          ∧ (turn = now ∨ ∃ ret o, ret ∈ rets ∧ as_promise now ret = Settles turn o))
  /\ (∀ ret e, ret ∈ rets -> rejects ret e ->
        ∃ turn e', result (ChainBuilder.parallelSinks source sinks now)
                   = Settles turn (Rejected e')
          ∧ (∃ ret', ret' ∈ rets ∧ as_promise now ret' = Settles turn (Rejected e'))
          ∧ (∀ ret' t' e'', ret' ∈ rets ->
               as_promise now ret' = Settles t' (Rejected e'') -> turn <= t'))
  /\ ((∀ ret e, ret ∈ rets -> ¬ rejects ret e) -> Thenable Forever ∈ rets ->
      result (ChainBuilder.parallelSinks source sinks now) = Forever).
Proof.
  intros Hall.
  unfold ChainBuilder.parallelSinks, async_function, mbind, async_bind.
  rewrite (map_invoke_all source sinks rets 0 now Hall).
  unfold Promise_all. cbn [trace status_of].
  split; [|split; [|split]].
  - destruct (earliest (rejections (as_promise now <$> rets))) as [[t e]|];
      [|destruct (fulfilments now (as_promise now <$> rets)) as [[t vs]|]];
      cbn; by rewrite !app_nil_r.
  - intros vs Hvs.
    destruct (rejections_delivers now rets vs Hvs) as [-> [turn Hturn]].
    rewrite Hturn. cbn.
    destruct (fulfilments_turn now _ turn vs Hturn) as (Hnow & Hevery & Hlast).
    exists turn. split; [by rewrite Nat.max_r by lia|]. split; [done|]. split.
    + intros ret t o Hret Hp. apply (Hevery t o).
      apply list_elem_of_fmap. by exists ret.
    + destruct Hlast as [->|[o Ho]]; [by left|]. right.
      apply list_elem_of_fmap in Ho as [ret [Hp Hret]]. by exists ret, o.
  - intros ret e Hin Hrej.
    destruct (earliest (rejections (as_promise now <$> rets))) as [[t e']|] eqn:Hearly.
    + pose proof (earliest_elem_of _ _ Hearly) as Hmem.
      apply elem_of_rejections_iff in Hmem as [ret' [Hret' Hp']].
      assert (Hnow : now <= t).
      { destruct ret' as [v|[t0 o|]]; cbn in Hp'; try discriminate Hp'.
        injection Hp' as <- _. lia. }
      cbn. exists t, e'. split; [by rewrite Nat.max_r by lia|].
      split; [by exists ret'|].
      intros ret'' t'' e'' Hret'' Hp''.
      apply (earliest_least _ t e' Hearly t'' e'').
      apply elem_of_rejections_iff. by exists ret''.
    + apply earliest_None in Hearly.
      by destruct (rejections_nonempty now e ret rets Hin Hrej).
  - intros Hnone Hpending.
    destruct (earliest (rejections (as_promise now <$> rets))) as [[t e]|] eqn:Hearly.
    + apply earliest_elem_of, elem_of_rejections in Hearly as [ret [Hret Hrej]].
      by destruct (Hnone ret e Hret).
    + rewrite fulfilments_pending; [reflexivity|].
      apply list_elem_of_fmap. by exists (Thenable Forever).
Qed.

Lemma parallelSinks_fanout_witness :
  result (ChainBuilder.parallelSinks (VStr (js "x"))
     [ (λ _, Normal (Plain (VStr (js "a"))));
       (λ _, Normal (Thenable (Settles 2 (Fulfilled (VStr (js "b")))))) ] 0)
  = Settles 2 (Fulfilled (VArr [VStr (js "a"); VStr (js "b")]))
  /\ sinks_invoked (events (ChainBuilder.parallelSinks (VStr (js "x"))
       [ (λ _, Normal (Thenable Forever));
         (λ _, Normal (Thenable (Settles 3 (Rejected (NativeError (js "late"))))));
         (λ _, Normal (Thenable (Settles 1 (Rejected (NativeError (js "early")))))) ] 0))
     = [0; 1; 2]
  /\ result (ChainBuilder.parallelSinks (VStr (js "x"))
       [ (λ _, Normal (Thenable Forever));
         (λ _, Normal (Thenable (Settles 3 (Rejected (NativeError (js "late"))))));
         (λ _, Normal (Thenable (Settles 1 (Rejected (NativeError (js "early")))))) ] 0)
     = Settles 1 (Rejected (NativeError (js "early"))).
Proof.
  split; [|split].
  - destruct (parallelSinks_fanout (VStr (js "x"))
                [ (λ _, Normal (Plain (VStr (js "a"))));
                  (λ _, Normal (Thenable (Settles 2 (Fulfilled (VStr (js "b")))))) ]
                [ Plain (VStr (js "a")); Thenable (Settles 2 (Fulfilled (VStr (js "b")))) ] 0
                ltac:(repeat constructor)) as (_ & Hfulfil & _ & _).
    destruct (Hfulfil [VStr (js "a"); VStr (js "b")]
                ltac:(constructor; [by left|constructor; [right; by eexists|constructor]]))
      as (turn & -> & _ & Hevery & Hlast).
    pose proof (Hevery (Thenable (Settles 2 (Fulfilled (VStr (js "b"))))) 2 _
                  ltac:(apply elem_of_cons; right; apply elem_of_cons; by left) eq_refl).
    destruct Hlast as [->|(ret & o & Hret & Hp)]; [lia|].
    apply elem_of_cons in Hret as [->|Hret]; [cbn in Hp; injection Hp as <- _; lia|].
    apply list_elem_of_singleton in Hret as ->. cbn in Hp. by injection Hp as <- _.
  - destruct (parallelSinks_fanout (VStr (js "x"))
                [ (λ _, Normal (Thenable Forever));
                  (λ _, Normal (Thenable (Settles 3 (Rejected (NativeError (js "late"))))));
                  (λ _, Normal (Thenable (Settles 1 (Rejected (NativeError (js "early")))))) ]
                [ Thenable Forever;
                  Thenable (Settles 3 (Rejected (NativeError (js "late"))));
                  Thenable (Settles 1 (Rejected (NativeError (js "early")))) ] 0
                ltac:(repeat constructor)) as (-> & _).
    reflexivity.
  - destruct (parallelSinks_fanout (VStr (js "x"))
                [ (λ _, Normal (Thenable Forever));
                  (λ _, Normal (Thenable (Settles 3 (Rejected (NativeError (js "late"))))));
                  (λ _, Normal (Thenable (Settles 1 (Rejected (NativeError (js "early")))))) ]
                [ Thenable Forever;
                  Thenable (Settles 3 (Rejected (NativeError (js "late"))));
                  Thenable (Settles 1 (Rejected (NativeError (js "early")))) ] 0
                ltac:(repeat constructor)) as (_ & _ & Hreject & _).
    destruct (Hreject (Thenable (Settles 1 (Rejected (NativeError (js "early")))))
                (NativeError (js "early"))
                ltac:(do 2 (apply elem_of_cons; right); apply elem_of_cons; by left)
                ltac:(by eexists))
      as (turn & e' & -> & (ret' & Hret' & Hp') & Hleast).
    pose proof (Hleast (Thenable (Settles 1 (Rejected (NativeError (js "early"))))) 1 _
                  ltac:(do 2 (apply elem_of_cons; right); apply elem_of_cons; by left) eq_refl).
    apply elem_of_cons in Hret' as [->|Hret']; [discriminate Hp'|].
    apply elem_of_cons in Hret' as [->|Hret']; [cbn in Hp'; injection Hp' as <- _; lia|].
    apply list_elem_of_singleton in Hret' as ->. cbn in Hp'. by injection Hp' as <- <-.
Defined.

(** ** [ContextPropagation] *)

Lemma set_ordinary_key (k : jsstring) (v : value) (c : ContextPropagation.context) :
  k ≠ js "__proto__" ->
  ContextPropagation.set k v c =
  ContextPropagation.Context (<[k := v]> (ContextPropagation.own c)) (ContextPropagation.proto c).
Proof.
  intros Hk. unfold ContextPropagation.set.
  by rewrite (bool_decide_eq_false_2 _ Hk).
Qed.

(** C4. Store/load fidelity fails at the key [__proto__].  On a new store,
    [set("__proto__", "x")] stores nothing: the write reaches the accessor of
    [Object.prototype], which ignores a string, and the store is as it was;
    the [get("__proto__")] that follows returns the prototype object and
    not the value just set. *)
Lemma get_after_set_proto_key :
  ContextPropagation.get (js "__proto__")
    (ContextPropagation.set (js "__proto__") (VStr (js "x")) ContextPropagation.new)
  = Builtin (js "Object.prototype")
  /\ ContextPropagation.get (js "__proto__")
       (ContextPropagation.set (js "__proto__") (VStr (js "x")) ContextPropagation.new)
     ≠ Data (VStr (js "x"))
  /\ ContextPropagation.set (js "__proto__") (VStr (js "x")) ContextPropagation.new
     = ContextPropagation.new.
Proof. split; [reflexivity|]. split; [discriminate|reflexivity]. Qed.

(** X26. Store/load fidelity where it holds: for every key other than
    [__proto__] and every value, on every store, [get] right after [set]
    returns the very value that was set, and with it every label a labelling
    gives it. *)
Theorem get_after_set (k : jsstring) (v : value) (c : ContextPropagation.context) :
  k ≠ js "__proto__" ->
  ContextPropagation.get k (ContextPropagation.set k v c) = Data v
  /\ ∀ labels : value -> gset string,
       labels_of labels (ContextPropagation.get k (ContextPropagation.set k v c)) = labels v.
Proof.
  intros Hk. rewrite (set_ordinary_key k v c Hk).
  unfold ContextPropagation.get. cbn. rewrite lookup_insert_eq. done.
Qed.

Lemma get_after_set_witness :
  ContextPropagation.get (js "css")
    (ContextPropagation.set (js "css") (VStr (js "<b>")) ContextPropagation.new)
  = Data (VStr (js "<b>"))
  /\ ∀ labels : value -> gset string,
       labels_of labels (ContextPropagation.get (js "css")
         (ContextPropagation.set (js "css") (VStr (js "<b>")) ContextPropagation.new))
       = labels (VStr (js "<b>")).
Proof.
  apply (get_after_set (js "css") (VStr (js "<b>")) ContextPropagation.new).
  discriminate.
Defined.

(** The store after a sequence of writes, oldest first. *)
Lemma writes_ordinary_keys (writes : list (jsstring * value)) (c : ContextPropagation.context) :
  js "__proto__" ∉ writes.*1 ->
  ContextPropagation.proto
    (foldl (λ c kv, ContextPropagation.set kv.1 kv.2 c) c writes) = ContextPropagation.proto c
  /\ ∀ k, k ∉ writes.*1 ->
       ContextPropagation.own
         (foldl (λ c kv, ContextPropagation.set kv.1 kv.2 c) c writes) !! k
       = ContextPropagation.own c !! k.
Proof.
  revert c. induction writes as [|[k' v'] writes IH]; intros c Hproto; [done|].
  cbn [foldl fmap list_fmap fst snd] in *.
  apply not_elem_of_cons in Hproto as [Hk' Hproto].
  destruct (IH (ContextPropagation.set k' v' c) Hproto) as [IHp IHo].
  rewrite (set_ordinary_key k' v' c) in * by congruence. cbn in *.
  split; [done|]. intros k Hk.
  apply not_elem_of_cons in Hk as [Hne Hk].
  rewrite (IHo k Hk). by rewrite lookup_insert_ne.
Qed.

(** A name of [Object.prototype] other than [__proto__] reads as a built-in
    object. *)
Lemma Object_prototype_get_builtin (proto : jsval) (k : jsstring) :
  k ∈ Object_prototype_names -> k ≠ js "__proto__" ->
  ∃ path, Object_prototype_get proto k = Builtin path.
Proof.
  intros Hin Hne. unfold Object_prototype_names in Hin.
  apply elem_of_cons in Hin as [->|Hin]; [done|].
  unfold Object_prototype_get. rewrite decide_False by done.
  destruct (decide (k = js "constructor")); [by eexists|].
  apply elem_of_cons in Hin as [->|Hin]; [done|].
  rewrite decide_True by done. by eexists.
Qed.

(** C5 (as stated) fails: reading a key that was never set does not fail, it
    returns the ordinary value [undefined]; and the store has no cleared
    state: a key set to [undefined] reads the same. *)
Lemma get_missing_key_returns_undefined :
  ContextPropagation.get (js "user") ContextPropagation.new = Data VUndefined
  /\ ContextPropagation.get (js "user")
       (ContextPropagation.set (js "user") VUndefined ContextPropagation.new)
     = ContextPropagation.get (js "user") ContextPropagation.new.
Proof. split; reflexivity. Qed.

(** C5 (amended). On a store on which the key [__proto__] was never written,
    a read of a key for which no [set] was ever performed does not fail: it
    returns [undefined], an ordinary value, unless the key is one of the
    names [Object.prototype] defines, and then the inherited property.  The
    store has no clear operation and no cleared state: a key that is then
    set to [undefined] reads as [undefined] ([__proto__] apart, for which
    the write is ignored), and that is what the key read when it was never
    set exactly when it is no name of [Object.prototype], or is
    [__proto__]. *)
Theorem get_never_set (k : jsstring) (writes : list (jsstring * value)) :
  k ∉ writes.*1 ->
  js "__proto__" ∉ writes.*1 ->
  let c := foldl (λ c kv, ContextPropagation.set kv.1 kv.2 c) ContextPropagation.new writes in
  ContextPropagation.get k c =
    (if decide (k ∈ Object_prototype_names)
     then Object_prototype_get (Builtin (js "Object.prototype")) k
     else Data VUndefined)
  /\ ContextPropagation.get k (ContextPropagation.set k VUndefined c) =
       (if decide (k = js "__proto__") then Builtin (js "Object.prototype")
        else Data VUndefined)
  /\ (ContextPropagation.get k (ContextPropagation.set k VUndefined c)
      = ContextPropagation.get k c
      <-> k ∉ Object_prototype_names ∨ k = js "__proto__").
Proof.
  intros Hk Hproto. cbv zeta.
  destruct (writes_ordinary_keys writes ContextPropagation.new Hproto) as [Hp Ho].
  remember (foldl (λ c kv, ContextPropagation.set kv.1 kv.2 c) ContextPropagation.new writes)
    as c eqn:Hc.
  clear Hc. cbn in Hp.
  assert (Hget : ContextPropagation.get k c =
                 (if decide (k ∈ Object_prototype_names)
                  then Object_prototype_get (Builtin (js "Object.prototype")) k
                  else Data VUndefined)).
  { unfold ContextPropagation.get. rewrite (Ho k Hk), Hp. cbn.
    destruct (decide (k ∈ Object_prototype_names)) as [Hin|Hnin]; [done|].
    unfold Object_prototype_names in Hnin.
    apply not_elem_of_cons in Hnin as [H1 Hnin].
    apply not_elem_of_cons in Hnin as [H2 Hnin].
    unfold Object_prototype_get. by rewrite !decide_False. }
  assert (Hset : ContextPropagation.get k (ContextPropagation.set k VUndefined c) =
                 (if decide (k = js "__proto__") then Builtin (js "Object.prototype")
                  else Data VUndefined)).
  { destruct (decide (k = js "__proto__")) as [->|Hne].
    - unfold ContextPropagation.set. rewrite (Ho _ Hk), Hp.
      rewrite !bool_decide_eq_true_2 by done.
      cbn [andb ContextPropagation.reaches_proto_accessor ContextPropagation.set_prototype].
      rewrite Hget. rewrite decide_True; [reflexivity|].
      unfold Object_prototype_names. apply elem_of_cons. by left.
    - rewrite (set_ordinary_key k VUndefined c Hne).
      unfold ContextPropagation.get. cbn. by rewrite lookup_insert_eq. }
  split; [exact Hget|]. split; [exact Hset|].
  rewrite Hset, Hget.
  destruct (decide (k = js "__proto__")) as [->|Hne].
  - split; [by right|]. intros _. rewrite decide_True; [reflexivity|].
    unfold Object_prototype_names. apply elem_of_cons. by left.
  - destruct (decide (k ∈ Object_prototype_names)) as [Hin|Hnin].
    + destruct (Object_prototype_get_builtin (Builtin (js "Object.prototype")) k Hin Hne)
        as [path ->].
      split; [discriminate|]. by intros [Hnin|Heq].
    + split; [by left|done].
Qed.

Lemma get_never_set_witness :
  ContextPropagation.get (js "user")
    (foldl (λ c kv, ContextPropagation.set kv.1 kv.2 c) ContextPropagation.new
       [(js "css", VStr (js "<b>"))])
  = (if decide (js "user" ∈ Object_prototype_names)
     then Object_prototype_get (Builtin (js "Object.prototype")) (js "user")
     else Data VUndefined)
  /\ ContextPropagation.get (js "user")
       (ContextPropagation.set (js "user") VUndefined
          (foldl (λ c kv, ContextPropagation.set kv.1 kv.2 c) ContextPropagation.new
             [(js "css", VStr (js "<b>"))]))
     = (if decide (js "user" = js "__proto__") then Builtin (js "Object.prototype")
        else Data VUndefined)
  /\ (ContextPropagation.get (js "user")
        (ContextPropagation.set (js "user") VUndefined
           (foldl (λ c kv, ContextPropagation.set kv.1 kv.2 c) ContextPropagation.new
              [(js "css", VStr (js "<b>"))]))
      = ContextPropagation.get (js "user")
          (foldl (λ c kv, ContextPropagation.set kv.1 kv.2 c) ContextPropagation.new
             [(js "css", VStr (js "<b>"))])
      <-> js "user" ∉ Object_prototype_names ∨ js "user" = js "__proto__").
Proof.
  apply (get_never_set (js "user") [(js "css", VStr (js "<b>"))]).
  - apply (bool_decide_unpack _). by vm_compute.
  - apply (bool_decide_unpack _). by vm_compute.
Defined.

(** ** [JwtSource] *)

Lemma split_on_no_sep (sep : code_unit) (s : jsstring) :
  sep ∉ s -> split_on sep s = [s].
Proof.
  induction s as [|c s IH]; intros Hs; [done|].
  apply not_elem_of_cons in Hs as [Hne Hs]. cbn [split_on].
  destruct (N.eqb_spec c sep) as [->|_]; [done|]. by rewrite (IH Hs).
Qed.

Lemma split_on_app (sep : code_unit) (s rest : jsstring) :
  sep ∉ s -> split_on sep (s ++ sep :: rest) = s :: split_on sep rest.
Proof.
  induction s as [|c s IH]; intros Hs.
  - cbn. by rewrite N.eqb_refl.
  - apply not_elem_of_cons in Hs as [Hne Hs]. cbn [app split_on].
    destruct (N.eqb_spec c sep) as [->|_]; [done|]. by rewrite (IH Hs).
Qed.

Lemma extractClaims_described (base64_to_text : jsstring -> jsstring)
    (JSON_parse : jsstring -> completion value) (token : value) :
  JwtSource.extractClaims base64_to_text JSON_parse token
  = Normal (JwtSource.described_claims base64_to_text JSON_parse token).
Proof.
  unfold JwtSource.extractClaims, JwtSource.described_claims, JwtSource.split_method.
  destruct token as [| |[|]|n|[|c s]|elems|props]; cbn [ToBoolean negb];
    try reflexivity.
  - by destruct (n =? 0)%Z.
  - generalize (split_on 46%N (c :: s)). intros parts.
    destruct parts as [|p0 [|p1 [|p2 [|p3 parts]]]]; cbn; try reflexivity.
    by destruct (JSON_parse (base64_to_text p1)).
Qed.

Lemma split_on_length (sep : code_unit) (s : jsstring) :
  length (split_on sep s) = S (occurrences sep s).
Proof.
  induction s as [|c s IH]; [reflexivity|].
  rewrite occurrences_cons. cbn [split_on].
  destruct (N.eqb_spec c sep) as [->|Hne].
  - rewrite decide_True by done. cbn [length]. by rewrite IH.
  - rewrite decide_False by done.
    destruct (split_on sep s) as [|p ps]; [discriminate IH|]. exact IH.
Qed.

(** C10. [JwtSource.extractClaims] never throws, whatever the built-ins do.
    It returns [null] for a missing or empty token, for a token that is not
    a string, and for a string that does not have exactly two full stops,
    that is, does not split into exactly three parts.  For a token
    [header.payload.signature] it returns what [JSON.parse] makes of the
    decoded payload part, and [null] when [JSON.parse] throws.  No signature
    is verified: the header and signature parts do not enter the result. *)
Theorem extractClaims_total (base64_to_text : jsstring -> jsstring)
    (JSON_parse : jsstring -> completion value)
    (header payload signature : jsstring) :
  (46%N ∉ header) -> (46%N ∉ payload) -> (46%N ∉ signature) ->
  (∀ token, ∃ v, JwtSource.extractClaims base64_to_text JSON_parse token = Normal v)
  /\ (∀ token, ToBoolean token = false ->
        JwtSource.extractClaims base64_to_text JSON_parse token = Normal VNull)
  /\ (∀ token, (∀ s, token ≠ VStr s) ->
        JwtSource.extractClaims base64_to_text JSON_parse token = Normal VNull)
  /\ (∀ s, occurrences 46%N s ≠ 2 ->
        JwtSource.extractClaims base64_to_text JSON_parse (VStr s) = Normal VNull)
  /\ JwtSource.extractClaims base64_to_text JSON_parse
       (VStr (header ++ js "." ++ payload ++ js "." ++ signature))
     = Normal match JSON_parse (base64_to_text payload) with
              | Normal claims => claims
              | Throw _ => VNull
              end
  /\ (∀ header' signature', (46%N ∉ header') -> (46%N ∉ signature') ->
        JwtSource.extractClaims base64_to_text JSON_parse
          (VStr (header' ++ js "." ++ payload ++ js "." ++ signature'))
        = JwtSource.extractClaims base64_to_text JSON_parse
            (VStr (header ++ js "." ++ payload ++ js "." ++ signature))).
Proof.
  intros Hh Hp Hs.
  assert (Hthree : ∀ h s, (46%N ∉ h) -> (46%N ∉ s) ->
            JwtSource.extractClaims base64_to_text JSON_parse
              (VStr (h ++ js "." ++ payload ++ js "." ++ s))
            = Normal match JSON_parse (base64_to_text payload) with
                     | Normal claims => claims
                     | Throw _ => VNull
                     end).
  { intros h s Hh' Hs'. rewrite extractClaims_described. f_equal.
    unfold JwtSource.described_claims. cbn [js app].
    rewrite !split_on_app, !split_on_no_sep by done.
    by destruct h. }
  split; [|split; [|split; [|split; [|split]]]].
  - intros token. rewrite extractClaims_described. by eexists.
  - intros token Hfalsy. unfold JwtSource.extractClaims. by rewrite Hfalsy.
  - intros token Hnot. rewrite extractClaims_described.
    destruct token as [| |b|n|s|elems|props]; try reflexivity. by destruct (Hnot s).
  - intros s Hdots. rewrite extractClaims_described. f_equal.
    unfold JwtSource.described_claims.
    pose proof (split_on_length 46 s) as Hlen.
    destruct s as [|c s]; [reflexivity|].
    destruct (split_on 46 (c :: s)) as [|p0 [|p1 [|p2 [|p3 parts]]]]; try reflexivity.
    cbn [length] in Hlen. lia.
  - by apply Hthree.
  - intros header' signature' Hh' Hs'. by rewrite !Hthree.
Qed.

Lemma extractClaims_total_witness :
  (∀ token, ∃ v, JwtSource.extractClaims (λ s, s) (λ s, Normal (VStr s)) token = Normal v)
  /\ (∀ token, ToBoolean token = false ->
        JwtSource.extractClaims (λ s, s) (λ s, Normal (VStr s)) token = Normal VNull)
  /\ (∀ token, (∀ s, token ≠ VStr s) ->
        JwtSource.extractClaims (λ s, s) (λ s, Normal (VStr s)) token = Normal VNull)
  /\ (∀ s, occurrences 46%N s ≠ 2 ->
        JwtSource.extractClaims (λ s, s) (λ s, Normal (VStr s)) (VStr s) = Normal VNull)
  /\ JwtSource.extractClaims (λ s, s) (λ s, Normal (VStr s))
       (VStr (js "h" ++ js "." ++ js "p" ++ js "." ++ js "s"))
     = Normal match (λ s, Normal (VStr s)) ((λ s : jsstring, s) (js "p")) with
              | Normal claims => claims
              | Throw _ => VNull
              end
  /\ (∀ header' signature', (46%N ∉ header') -> (46%N ∉ signature') ->
        JwtSource.extractClaims (λ s, s) (λ s, Normal (VStr s))
          (VStr (header' ++ js "." ++ js "p" ++ js "." ++ signature'))
        = JwtSource.extractClaims (λ s, s) (λ s, Normal (VStr s))
            (VStr (js "h" ++ js "." ++ js "p" ++ js "." ++ js "s"))).
Proof.
  apply (extractClaims_total (λ s, s) (λ s, Normal (VStr s)) (js "h") (js "p") (js "s"));
    apply (bool_decide_unpack _); by vm_compute.
Defined.

Example jsonRoundTrip_ex :
  TaintTransform.jsonRoundTrip
    (VObj [(js "field", VStr (js "id")); (js "value", VStr (js "1 OR 1=1"))])
  = Parsed (VObj [(js "field", VStr (js "id")); (js "value", VStr (js "1 OR 1=1"))]) [].
Proof. vm_compute. reflexivity. Qed.

Example JSON_stringify_ex :
  JSON_stringify (VArr [VNum (-12); VUndefined; VStr [10; 55357; 56832; 55357]%N; VObj [(js "a", VUndefined)]])
  = Some (js "[-12,null," ++ [34]%N ++ js "\n" ++ [55357; 56832]%N ++ js "\ud83d" ++ [34]%N ++ js ",{}]").
Proof. vm_compute. reflexivity. Qed.

Example JSON_parse_ex :
  JSON_parse (js " [1, {} , [ ] ,true,null, -7 ] ")
  = Parsed (VArr [VNum 1; VObj []; VArr []; VBool true; VNull; VNum (-7)]) []
  /\ JSON_parse (js "undefined") = SyntaxError
  /\ JSON_parse (js "01") = SyntaxError
  /\ JSON_parse (js "1.5") = NotModelled
  /\ JSON_parse (js "[1,]") = SyntaxError.
Proof. vm_compute. repeat split; reflexivity. Qed.

Example base64RoundTrip_ex :
  TaintTransform.base64RoundTrip (js "ls -la") = js "ls -la"
  /\ base64_encode (utf8_encode (js "ls -la")) = js "bHMgLWxh"
  /\ base64_encode (utf8_encode [233; 8364; 55357; 56832]%N) = js "w6nigqzwn5iA"
  /\ TaintTransform.base64RoundTrip [233; 8364; 55357; 56832]%N = [233; 8364; 55357; 56832]%N
  /\ TaintTransform.base64RoundTrip [55296]%N = [65533]%N.
Proof. vm_compute. repeat split; reflexivity. Qed.

(** ** [Buffer]: base64 and UTF-8 *)

Ltac decide_tests :=
  repeat match goal with
  | |- context [N.ltb ?a ?b] =>
      first [ rewrite (proj2 (N.ltb_lt a b)) by lia
            | rewrite (proj2 (N.ltb_ge a b)) by lia ]
  | |- context [N.leb ?a ?b] =>
      first [ rewrite (proj2 (N.leb_le a b)) by lia
            | rewrite (proj2 (N.leb_gt a b)) by lia ]
  | |- context [N.eqb ?a ?b] =>
      first [ rewrite (proj2 (N.eqb_eq a b)) by lia
            | rewrite (proj2 (N.eqb_neq a b)) by lia ]
  end.

Lemma base64_sextets_digit (i : N) (s : jsstring) :
  (i < 64)%N -> base64_sextets (base64_digit i :: s) = i :: base64_sextets s.
Proof.
  intros Hi. cbn [base64_sextets]. unfold base64_digit, base64_value, in_range.
  destruct (N.ltb_spec i 26); [decide_tests; cbn; f_equal; lia|].
  destruct (N.ltb_spec i 52); [decide_tests; cbn; f_equal; lia|].
  destruct (N.ltb_spec i 62); [decide_tests; cbn; f_equal; lia|].
  destruct (N.eqb_spec i 62) as [->|?]; [reflexivity|].
  assert (i = 63%N) as -> by lia. reflexivity.
Qed.

Lemma base64_decode_encode (bytes : list N) :
  Forall (λ b, (b < 256)%N) bytes -> base64_decode (base64_encode bytes) = bytes.
Proof.
  unfold base64_decode.
  remember (length bytes) as n eqn:Hn. revert bytes Hn.
  induction n as [n IH] using lt_wf_ind. intros bytes Hn Hall.
  destruct bytes as [|a [|b [|c rest]]]; [reflexivity| | |].
  - apply Forall_cons in Hall as [Ha _]. cbn [base64_encode].
    rewrite !base64_sextets_digit by lia. cbn. f_equal. lia.
  - apply Forall_cons in Hall as [Ha Hall]. apply Forall_cons in Hall as [Hb _].
    cbn [base64_encode].
    rewrite !base64_sextets_digit by lia. cbn. f_equal; [lia|f_equal; lia].
  - apply Forall_cons in Hall as [Ha Hall]. apply Forall_cons in Hall as [Hb Hall].
    apply Forall_cons in Hall as [Hc Hall].
    cbn [base64_encode app].
    rewrite !base64_sextets_digit by lia. cbn [bytes_of_sextets app].
    rewrite (IH (length rest)); [|subst n; cbn; lia|reflexivity|exact Hall].
    f_equal; [lia|f_equal; [lia|f_equal; lia]].
Qed.

Lemma utf8_bytes_lt_256 (cp : N) :
  (cp < 1114112)%N -> Forall (λ b, (b < 256)%N) (utf8_bytes cp).
Proof.
  intros Hcp. unfold utf8_bytes.
  destruct (N.ltb_spec cp 128); [repeat constructor; lia|].
  destruct (N.ltb_spec cp 2048); [repeat constructor; lia|].
  destruct (N.ltb_spec cp 65536); repeat constructor; lia.
Qed.

Lemma in_range_true (lo hi b : N) : (lo <= b <= hi)%N -> in_range lo hi b = true.
Proof.
  intros [H1 H2]. unfold in_range.
  by rewrite (proj2 (N.leb_le _ _) H1), (proj2 (N.leb_le _ _) H2).
Qed.

Lemma in_range_false (lo hi b : N) : (b < lo ∨ hi < b)%N -> in_range lo hi b = false.
Proof.
  intros H. unfold in_range. apply andb_false_iff.
  destruct H as [H|H]; [left|right]; by apply N.leb_gt.
Qed.

Lemma second_bounds_3 (a b : N) :
  (a < 16)%N -> (b < 64)%N -> (a = 0 -> 32 <= b)%N -> (a = 13 -> b < 32)%N ->
  in_range (second_lower (224 + a)) (second_upper (224 + a)) (128 + b) = true.
Proof.
  intros Ha Hb H0 H13. unfold second_lower, second_upper.
  destruct (N.eqb_spec (224 + a) 224) as [E1|E1];
    destruct (N.eqb_spec (224 + a) 237) as [E2|E2];
    destruct (N.eqb_spec (224 + a) 240) as [E3|E3];
    destruct (N.eqb_spec (224 + a) 244) as [E4|E4];
    try lia; apply in_range_true; lia.
Qed.

Lemma second_bounds_4 (a b : N) :
  (a <= 4)%N -> (b < 64)%N -> (a = 0 -> 16 <= b)%N -> (a = 4 -> b < 16)%N ->
  in_range (second_lower (240 + a)) (second_upper (240 + a)) (128 + b) = true.
Proof.
  intros Ha Hb H0 H4. unfold second_lower, second_upper.
  destruct (N.eqb_spec (240 + a) 224) as [E1|E1];
    destruct (N.eqb_spec (240 + a) 237) as [E2|E2];
    destruct (N.eqb_spec (240 + a) 240) as [E3|E3];
    destruct (N.eqb_spec (240 + a) 244) as [E4|E4];
    try lia; apply in_range_true; lia.
Qed.

Lemma utf8_decode_2 (a b : N) (rest : list N) :
  (2 <= a < 32)%N -> (b < 64)%N ->
  utf8_decode ((192 + a) :: (128 + b) :: rest)%N = (a * 64 + b)%N :: utf8_decode rest.
Proof.
  intros Ha Hb. cbn [utf8_decode].
  rewrite (proj2 (N.ltb_ge (192 + a) 128)) by lia.
  rewrite (in_range_true 194 223) by lia.
  rewrite (in_range_true 128 191) by lia.
  f_equal. lia.
Qed.

Lemma utf8_decode_3 (a b c : N) (rest : list N) :
  (a < 16)%N -> (b < 64)%N -> (c < 64)%N ->
  (a = 0 -> 32 <= b)%N -> (a = 13 -> b < 32)%N ->
  utf8_decode ((224 + a) :: (128 + b) :: (128 + c) :: rest)%N
  = (a * 4096 + b * 64 + c)%N :: utf8_decode rest.
Proof.
  intros Ha Hb Hc H0 H13. cbn [utf8_decode].
  rewrite (proj2 (N.ltb_ge (224 + a) 128)) by lia.
  rewrite (in_range_false 194 223) by lia.
  rewrite (in_range_true 224 239) by lia.
  rewrite second_bounds_3 by done.
  rewrite (in_range_true 128 191) by lia.
  f_equal. lia.
Qed.

Lemma utf8_decode_4 (a b c d : N) (rest : list N) :
  (a <= 4)%N -> (b < 64)%N -> (c < 64)%N -> (d < 64)%N ->
  (a = 0 -> 16 <= b)%N -> (a = 4 -> b < 16)%N ->
  utf8_decode ((240 + a) :: (128 + b) :: (128 + c) :: (128 + d) :: rest)%N
  = utf16_units (a * 262144 + b * 4096 + c * 64 + d)%N ++ utf8_decode rest.
Proof.
  intros Ha Hb Hc Hd H0 H4. cbn [utf8_decode].
  rewrite (proj2 (N.ltb_ge (240 + a) 128)) by lia.
  rewrite (in_range_false 194 223) by lia.
  rewrite (in_range_false 224 239) by lia.
  rewrite (in_range_true 240 244) by lia.
  rewrite second_bounds_4 by done.
  rewrite (in_range_true 128 191 (128 + c)) by lia.
  rewrite (in_range_true 128 191 (128 + d)) by lia.
  do 2 f_equal. lia.
Qed.

Lemma utf8_decode_bytes (cp : N) (rest : list N) :
  scalar cp -> utf8_decode (utf8_bytes cp ++ rest) = utf16_units cp ++ utf8_decode rest.
Proof.
  intros [Hsur Hmax]. unfold utf8_bytes.
  destruct (N.ltb_spec cp 128) as [H1|H1].
  { cbn [app utf8_decode]. rewrite (proj2 (N.ltb_lt cp 128) H1).
    unfold utf16_units. by rewrite (proj2 (N.ltb_lt cp 65536)) by lia. }
  destruct (N.ltb_spec cp 2048) as [H2|H2].
  { cbn [app]. rewrite utf8_decode_2 by lia.
    unfold utf16_units. rewrite (proj2 (N.ltb_lt cp 65536)) by lia.
    cbn [app]. f_equal. lia. }
  destruct (N.ltb_spec cp 65536) as [H3|H3].
  { cbn [app]. rewrite utf8_decode_3 by lia.
    unfold utf16_units. rewrite (proj2 (N.ltb_lt cp 65536)) by lia.
    cbn [app]. f_equal. lia. }
  cbn [app]. rewrite utf8_decode_4 by lia.
  do 2 f_equal. lia.
Qed.
Lemma well_formed_utf8 (s : jsstring) :
  well_formed s = true ->
  Forall (λ b, (b < 256)%N) (utf8_encode s) /\ utf8_decode (utf8_encode s) = s.
Proof.
  remember (length s) as n eqn:Hn. revert s Hn.
  induction n as [n IH] using lt_wf_ind. intros s Hn Hwf.
  destruct s as [|c s']; [by split|].
  cbn [well_formed utf8_encode] in *.
  destruct (is_high_surrogate c) eqn:Hhi.
  - destruct s' as [|d s'']; [discriminate Hwf|].
    apply andb_true_iff in Hwf as [Hlo Hwf]. rewrite Hlo.
    destruct (IH (length s'')) with (s := s'') as [IHb IHd];
      [subst n; cbn; lia|reflexivity|exact Hwf|].
    unfold is_high_surrogate in Hhi. unfold is_low_surrogate in Hlo.
    apply andb_true_iff in Hhi as [Hc1 Hc2]. apply andb_true_iff in Hlo as [Hd1 Hd2].
    apply N.leb_le in Hc1, Hc2, Hd1, Hd2.
    assert (Hsc : scalar (pair_code_point c d)).
    { unfold scalar, pair_code_point. lia. }
    split.
    + apply Forall_app. split; [|exact IHb].
      apply utf8_bytes_lt_256. apply Hsc.
    + rewrite (utf8_decode_bytes _ _ Hsc), IHd.
      unfold utf16_units, pair_code_point. decide_tests. cbn. f_equal; [lia|f_equal; lia].
  - apply andb_true_iff in Hwf as [Hwf Hrest]. apply andb_true_iff in Hwf as [Hlo Hlt].
    apply negb_true_iff in Hlo. rewrite Hlo.
    destruct (IH (length s')) with (s := s') as [IHb IHd];
      [subst n; cbn; lia|reflexivity|exact Hrest|].
    apply N.ltb_lt in Hlt.
    assert (Hsc : scalar c).
    { unfold scalar. unfold is_high_surrogate in Hhi. unfold is_low_surrogate in Hlo.
      apply andb_false_iff in Hhi. apply andb_false_iff in Hlo.
      rewrite !N.leb_gt in Hhi, Hlo. lia. }
    split.
    + apply Forall_app. split; [|exact IHb]. apply utf8_bytes_lt_256. lia.
    + rewrite (utf8_decode_bytes _ _ Hsc), IHd.
      unfold utf16_units. decide_tests. reflexivity.
Qed.

Lemma base64RoundTrip_well_formed (s : jsstring) :
  well_formed s = true -> TaintTransform.base64RoundTrip s = s.
Proof.
  intros Hwf. destruct (well_formed_utf8 s Hwf) as [Hbytes Hdec].
  unfold TaintTransform.base64RoundTrip. cbv zeta.
  by rewrite (base64_decode_encode _ Hbytes).
Qed.

(** ** JSON: string literals *)

Lemma hex_value_digit (d : N) : (d < 16)%N -> hex_value (hex_digit d) = Some d.
Proof.
  intros Hd. unfold hex_digit, hex_value.
  destruct (N.ltb_spec d 10); decide_tests; cbn; f_equal; lia.
Qed.

Lemma hex4_unicode_escape (c : code_unit) (t : jsstring) :
  (c < 65536)%N ->
  parse_string_body (unicode_escape c ++ t) = cons_parsed c (parse_string_body t).
Proof.
  intros Hc. unfold unicode_escape. cbn [app parse_string_body].
  change (92 =? 34)%N with false. change (92 =? 92)%N with true.
  change (117 =? 117)%N with true. cbv iota.
  unfold hex4. rewrite !hex_value_digit by lia. cbn [mbind option_bind].
  replace (c / 4096 mod 16 * 4096 + c / 256 mod 16 * 256 + c / 16 mod 16 * 16 + c mod 16)%N
    with c by lia.
  reflexivity.
Qed.

Lemma parse_quote_unit (c : code_unit) (t : jsstring) :
  parse_string_body (quote_unit c ++ t) = cons_parsed c (parse_string_body t).
Proof.
  unfold quote_unit.
  destruct (N.eqb_spec c 8) as [->|?]; [reflexivity|].
  destruct (N.eqb_spec c 9) as [->|?]; [reflexivity|].
  destruct (N.eqb_spec c 10) as [->|?]; [reflexivity|].
  destruct (N.eqb_spec c 12) as [->|?]; [reflexivity|].
  destruct (N.eqb_spec c 13) as [->|?]; [reflexivity|].
  destruct (N.eqb_spec c 34) as [->|?]; [reflexivity|].
  destruct (N.eqb_spec c 92) as [->|?]; [reflexivity|].
  destruct ((c <? 32)%N || is_high_surrogate c || is_low_surrogate c) eqn:Hesc.
  - apply hex4_unicode_escape.
    unfold is_high_surrogate, is_low_surrogate in Hesc.
    apply orb_true_iff in Hesc as [Hesc|Hesc];
      [apply orb_true_iff in Hesc as [Hesc|Hesc]|].
    + apply N.ltb_lt in Hesc. lia.
    + apply andb_true_iff in Hesc as [_ Hesc]. apply N.leb_le in Hesc. lia.
    + apply andb_true_iff in Hesc as [_ Hesc]. apply N.leb_le in Hesc. lia.
  - apply orb_false_iff in Hesc as [Hesc _]. apply orb_false_iff in Hesc as [Hesc _].
    apply N.ltb_ge in Hesc.
    cbn [app parse_string_body]. decide_tests. reflexivity.
Qed.

Lemma quote_body_cons (c d : code_unit) (s : jsstring) :
  quote_body (c :: d :: s) =
  if is_high_surrogate c && is_low_surrogate d
  then c :: d :: quote_body s
  else quote_unit c ++ quote_body (d :: s).
Proof. reflexivity. Qed.

Lemma parse_quote_body (s rest : jsstring) :
  parse_string_body (quote_body s ++ 34%N :: rest) = Parsed s rest.
Proof.
  remember (length s) as n eqn:Hn. revert s Hn.
  induction n as [n IH] using lt_wf_ind. intros s Hn.
  destruct s as [|c [|d s'']].
  - reflexivity.
  - cbn [quote_body]. rewrite parse_quote_unit. reflexivity.
  - rewrite quote_body_cons.
    destruct (is_high_surrogate c && is_low_surrogate d) eqn:Hpair.
    + apply andb_true_iff in Hpair as [Hhi Hlo].
      unfold is_high_surrogate in Hhi. unfold is_low_surrogate in Hlo.
      apply andb_true_iff in Hhi as [Hc1 Hc2]. apply andb_true_iff in Hlo as [Hd1 Hd2].
      apply N.leb_le in Hc1, Hc2, Hd1, Hd2.
      cbn [app parse_string_body]. decide_tests.
      by rewrite (IH (length s'') ltac:(subst n; cbn; lia) s'' eq_refl).
    + rewrite <- app_assoc, parse_quote_unit.
      by rewrite (IH (length (d :: s'')) ltac:(subst n; cbn; lia) (d :: s'') eq_refl).
Qed.

(** ** JSON: numbers *)

Lemma uint_of_digits_of_uint (u : Decimal.uint) :
  uint_of_digits (digits_of_uint u) = Some u.
Proof. induction u; cbn; [done|..]; by rewrite IHu. Qed.

Lemma digits_of_uint_digits (u : Decimal.uint) :
  Forall (λ c, (48 <= c <= 57)%N) (digits_of_uint u).
Proof. induction u; cbn; constructor; try lia; done. Qed.

Lemma span_digits_app (ds rest : jsstring) :
  Forall (λ c, (48 <= c <= 57)%N) ds ->
  terminated rest ->
  span_digits (ds ++ rest) = (ds, rest).
Proof.
  intros Hds Hrest. induction Hds as [|c ds Hc Hds IH].
  - destruct rest as [|c rest]; [done|]. cbn. unfold is_digit.
    cbn in Hrest. destruct Hrest as [->|[->| ->]]; reflexivity.
  - cbn [app span_digits]. unfold is_digit. decide_tests. cbn. by rewrite IH.
Qed.

Lemma nzhead_not_zero_digit (d : Decimal.uint) :
  match Decimal.nzhead d with Decimal.D0 _ => False | _ => True end.
Proof. induction d; cbn; done. Qed.

Lemma to_uint_pos_head (p : positive) :
  ∃ c ds, digits_of_uint (N.to_uint (Npos p)) = c :: ds ∧ (49 <= c <= 57)%N.
Proof.
  assert (Hnorm : N.to_uint (Npos p) = Decimal.unorm (N.to_uint (Npos p))).
  { rewrite <- (DecimalN.Unsigned.to_of (N.to_uint (Npos p))).
    by rewrite DecimalN.Unsigned.of_to. }
  assert (Hnz : N.to_uint (Npos p) ≠ Decimal.zero).
  { apply DecimalPos.Unsigned.to_uint_nonzero. }
  revert Hnorm Hnz. generalize (N.to_uint (Npos p)). intros u Hnorm Hnz.
  unfold Decimal.unorm in Hnorm.
  pose proof (nzhead_not_zero_digit u) as Hhead.
  destruct (Decimal.nzhead u) eqn:Hu; subst u; try done;
    cbn; eexists _, _; (split; [reflexivity|lia]).
Qed.

Lemma parse_number_pos (negative : bool) (p : positive) (rest : jsstring) :
  (Zpos p <= MAX_SAFE_INTEGER)%Z ->
  terminated rest ->
  parse_number negative (digits_of_uint (N.to_uint (Npos p)) ++ rest)
  = Parsed (VNum (if negative then Zneg p else Zpos p)) rest.
Proof.
  intros Hsafe Hrest. unfold parse_number.
  rewrite (span_digits_app _ rest (digits_of_uint_digits _) Hrest).
  destruct (to_uint_pos_head p) as [c [ds [Hds Hc]]].
  rewrite Hds. decide_tests. cbn [andb]. rewrite <- Hds.
  rewrite uint_of_digits_of_uint, DecimalN.Unsigned.of_to.
  cbn [Z.of_N].
  rewrite (proj2 (Z.ltb_ge _ _) Hsafe).
  assert (Hne : (Zpos p =? 0)%Z = false) by (apply Z.eqb_neq; lia).
  rewrite Hne.
  destruct rest as [|c' rest'].
  - by destruct negative.
  - cbn in Hrest. destruct Hrest as [->|[->| ->]]; by destruct negative.
Qed.

Lemma parse_number_zero (rest : jsstring) :
  terminated rest -> parse_number false (js "0" ++ rest) = Parsed (VNum 0) rest.
Proof.
  intros Hrest. unfold parse_number.
  rewrite (span_digits_app (js "0") rest ltac:(constructor; [cbn; lia|constructor]) Hrest).
  cbn. destruct rest as [|c' rest']; [done|].
  cbn in Hrest. by destruct Hrest as [->|[->| ->]].
Qed.

Lemma skip_ws_head (c : code_unit) (s : jsstring) :
  is_ws c = false -> skip_ws (c :: s) = c :: s.
Proof. intros Hc. cbn. by rewrite Hc. Qed.

Lemma parse_value_number (fuel : nat) (n : Z) (rest : jsstring) :
  (- MAX_SAFE_INTEGER <= n <= MAX_SAFE_INTEGER)%Z ->
  terminated rest ->
  parse_value (S fuel) (Number_toString n ++ rest) = Parsed (VNum n) rest.
Proof.
  intros Hsafe Hrest. destruct n as [|p|p]; cbn [Number_toString].
  - cbn [parse_value js]. change (skip_ws (js "0" ++ rest)) with (js "0" ++ rest).
    cbn -[parse_number]. by apply parse_number_zero.
  - destruct (to_uint_pos_head p) as [c [ds [Hds Hc]]].
    cbn [parse_value]. rewrite Hds. cbn [app].
    rewrite skip_ws_head by (unfold is_ws; decide_tests; reflexivity).
    unfold is_digit. decide_tests. cbn [andb].
    change (c :: ds ++ rest) with ((c :: ds) ++ rest). rewrite <- Hds.
    apply (parse_number_pos false); [lia|done].
  - cbn [parse_value js app]. change (skip_ws (45%N :: ?s)) with (45%N :: s).
    rewrite skip_ws_head by reflexivity. cbn -[parse_number].
    apply (parse_number_pos true); [lia|done].
Qed.

(** ** JSON: values *)

Lemma value_ind' (P : value -> Prop) :
  P VUndefined -> P VNull -> (∀ b, P (VBool b)) -> (∀ n, P (VNum n)) ->
  (∀ s, P (VStr s)) ->
  (∀ elems, Forall P elems -> P (VArr elems)) ->
  (∀ props, Forall (λ kv, P kv.2) props -> P (VObj props)) ->
  ∀ v, P v.
Proof.
  intros Hu Hn Hb Hnum Hs Harr Hobj.
  fix IH 1. intros [| |b|n|s|elems|props]; [done..| |].
  - apply Harr.
    exact ((fix go (xs : list value) : Forall P xs :=
              match xs with
              | [] => Forall_nil_2 P
              | x :: xs' => Forall_cons_2 P x xs' (IH x) (go xs')
              end) elems).
  - apply Hobj.
    exact ((fix go (ps : list (jsstring * value)) : Forall (λ kv, P kv.2) ps :=
              match ps with
              | [] => Forall_nil_2 _
              | (k, x) :: ps' => Forall_cons_2 (λ kv, P kv.2) (k, x) ps' (IH x) (go ps')
              end) props).
Qed.

Lemma JSON_stringify_array (elems : list value) :
  JSON_stringify (VArr elems) =
  Some (js "[" ++ join_with (js ",") ((λ x, default (js "null") (JSON_stringify x)) <$> elems)
        ++ js "]").
Proof.
  reflexivity.
Qed.

Lemma JSON_stringify_object (props : list (jsstring * value)) :
  JSON_stringify (VObj props) =
  Some (js "{" ++ join_with (js ",")
          (omap (λ kv, (λ text, quote kv.1 ++ js ":" ++ text) <$> JSON_stringify kv.2) props)
        ++ js "}").
Proof.
  cbn [JSON_stringify].
  match goal with
  | |- Some (_ ++ join_with _ (?f props) ++ _) = _ =>
      assert (Hm : f props =
        omap (λ kv, (λ text, quote kv.1 ++ js ":" ++ text) <$> JSON_stringify kv.2) props)
  end.
  { induction props as [|[k x] ps IH]; [done|].
    cbn [omap list_omap fst snd]. rewrite <- IH.
    by destruct (JSON_stringify x). }
  by rewrite Hm.
Qed.

Lemma json_data_array (elems : list value) :
  json_data (VArr elems) = forallb json_data elems.
Proof.
  reflexivity.
Qed.

Lemma json_data_object (props : list (jsstring * value)) :
  json_data (VObj props) =
  bool_decide (NoDup props.*1) && forallb (λ kv, json_data kv.2) props.
Proof.
  cbn [json_data]. f_equal.
  induction props as [|[k x] ps IH]; [done|]. cbn [forallb snd]. by rewrite <- IH.
Qed.

Lemma need_array (elems : list value) :
  need (VArr elems) = S (need_elems (need <$> elems)).
Proof.
  reflexivity.
Qed.

Lemma need_object (props : list (jsstring * value)) :
  need (VObj props) = S (need_elems ((λ kv, need kv.2) <$> props)).
Proof.
  cbn [need]. do 2 f_equal.
  induction props as [|[k x] ps IH]; [done|]. cbn [fmap list_fmap snd]. by rewrite <- IH.
Qed.

Lemma need_elems_length (xs : list value) (texts : list jsstring) (n : nat) (text : jsstring) :
  n <= length text ->
  Forall2 (λ x t, need x <= length t) xs texts ->
  need_elems (n :: (need <$> xs))
  <= S (length (text ++ concat ((λ q, js "," ++ q) <$> texts))).
Proof.
  intros Hn Hall. revert n text Hn.
  induction Hall as [|x t xs texts Hx Hall IH]; intros n text Hn.
  - cbn. rewrite app_nil_r. lia.
  - cbn [fmap list_fmap concat need_elems].
    specialize (IH (need x) t Hx). cbn [need_elems] in IH.
    rewrite !length_app in *. cbn [length js] in *. lia.
Qed.

Lemma parse_elements_texts (xs : list value) (texts : list jsstring) :
  Forall2 reads_back xs texts ->
  ∀ (x : value) (text : jsstring) (acc : list value) (fuel : nat) (rest : jsstring),
    reads_back x text ->
    need_elems (need <$> (x :: xs)) <= fuel ->
    parse_elements fuel
      (text ++ concat ((λ q, js "," ++ q) <$> texts) ++ js "]" ++ rest) acc
    = Parsed (VArr (acc ++ x :: xs)) rest.
Proof.
  induction 1 as [|x1 t1 xs texts Hx1 Hall IH];
    intros x text acc fuel rest Hx Hfuel.
  - destruct fuel as [|fuel]; [cbn in Hfuel; lia|].
    cbn [fmap list_fmap need_elems] in Hfuel.
    cbn [parse_elements fmap list_fmap concat app].
    destruct Hx as (_ & _ & Hparse).
    rewrite (Hparse fuel) by (cbn; (lia || auto)).
    reflexivity.
  - destruct fuel as [|fuel]; [cbn in Hfuel; lia|].
    cbn [fmap list_fmap need_elems] in Hfuel.
    cbn [parse_elements fmap list_fmap concat].
    destruct Hx as (_ & _ & Hparse).
    change (js ",") with [44%N]. cbn [app]. rewrite <- !app_assoc.
    rewrite (Hparse fuel) by (cbn; (lia || auto)).
    cbn [skip_ws is_ws N.eqb Pos.eqb orb].
    transitivity (Parsed (VArr ((acc ++ [x]) ++ x1 :: xs)) rest);
      [|by rewrite <- app_assoc].
    apply (IH x1 t1 (acc ++ [x]) fuel rest Hx1).
    cbn [fmap list_fmap need_elems]. lia.
Qed.

Lemma define_property_fresh (k : jsstring) (v : value) (acc : list (jsstring * value)) :
  k ∉ acc.*1 -> define_property k v acc = acc ++ [(k, v)].
Proof.
  induction acc as [|[k' v'] acc IH]; intros Hk; [done|].
  cbn [fmap list_fmap fst] in Hk. apply not_elem_of_cons in Hk as [Hne Hk].
  cbn [define_property app]. rewrite decide_False by congruence. by rewrite IH.
Qed.

Lemma parse_members_texts (ps : list (jsstring * value)) (mtexts : list jsstring) :
  Forall2 member_of ps mtexts ->
  ∀ (k : jsstring) (x : value) (text : jsstring) (acc : list (jsstring * value))
    (fuel : nat) (rest : jsstring),
    reads_back x text ->
    NoDup (acc.*1 ++ k :: ps.*1) ->
    need_elems ((λ kv, need kv.2) <$> ((k, x) :: ps)) <= fuel ->
    parse_members fuel
      ((quote k ++ js ":" ++ text) ++ concat ((λ q, js "," ++ q) <$> mtexts) ++ js "}" ++ rest)
      acc
    = Parsed (VObj (acc ++ (k, x) :: ps)) rest.
Proof.
  induction 1 as [|[k1 x1] mt1 ps mtexts Hm1 Hall IH];
    intros k x text acc fuel rest Hx Hnd Hfuel.
  - destruct fuel as [|fuel]; [cbn in Hfuel; lia|].
    cbn [fmap list_fmap need_elems snd] in Hfuel.
    cbn [parse_members fmap list_fmap concat]. unfold quote.
    change (js ":") with [58%N]. cbn [app]. rewrite <- !app_assoc. cbn [app].
    cbn [skip_ws is_ws N.eqb Pos.eqb orb].
    rewrite parse_quote_body.
    cbn [skip_ws is_ws N.eqb Pos.eqb orb].
    destruct Hx as (_ & _ & Hparse).
    rewrite (Hparse fuel) by (cbn; (lia || auto)).
    cbn [js skip_ws is_ws N.eqb Pos.eqb orb Ascii.N_of_ascii Ascii.N_of_digits N.add N.mul
         Pos.add Pos.mul Pos.succ app].
    rewrite define_property_fresh; [done|].
    apply NoDup_app in Hnd as (_ & Hnd & _). intros Hin.
    apply (Hnd k Hin). apply elem_of_cons. by left.
  - destruct fuel as [|fuel]; [cbn in Hfuel; lia|].
    cbn [fmap list_fmap need_elems snd] in Hfuel.
    cbn [parse_members fmap list_fmap concat]. unfold quote.
    change (js ":") with [58%N]. change (js ",") with [44%N].
    cbn [app]. rewrite <- !app_assoc. cbn [app].
    cbn [skip_ws is_ws N.eqb Pos.eqb orb].
    rewrite parse_quote_body.
    cbn [skip_ws is_ws N.eqb Pos.eqb orb].
    destruct Hx as (_ & _ & Hparse).
    rewrite (Hparse fuel) by (cbn; (lia || auto)).
    cbn [skip_ws is_ws N.eqb Pos.eqb orb].
    assert (Hk : k ∉ acc.*1).
    { apply NoDup_app in Hnd as (_ & Hnd & _). intros Hin.
      apply (Hnd k Hin). apply elem_of_cons. by left. }
    rewrite (define_property_fresh k x acc Hk).
    destruct Hm1 as [t1 [-> Hx1]]. cbn [fst snd] in *.
    transitivity (Parsed (VObj ((acc ++ [(k, x)]) ++ (k1, x1) :: ps)) rest);
      [|by rewrite <- app_assoc].
    apply (IH k1 x1 t1 (acc ++ [(k, x)]) fuel rest Hx1).
    + rewrite fmap_app. cbn [fmap list_fmap fst]. rewrite <- app_assoc. exact Hnd.
    + cbn [fmap list_fmap need_elems snd]. lia.
Qed.

Lemma reads_back_elems (elems : list value) :
  Forall (λ x, json_data x = true ->
               ∃ text, JSON_stringify x = Some text ∧ reads_back x text) elems ->
  forallb json_data elems = true ->
  Forall2 reads_back elems ((λ x, default (js "null") (JSON_stringify x)) <$> elems).
Proof.
  induction 1 as [|x xs Hx Hall IH]; intros Hdata; [constructor|].
  cbn [forallb] in Hdata. apply andb_true_iff in Hdata as [Hdx Hdxs].
  cbn [fmap list_fmap]. constructor; [|by apply IH].
  destruct (Hx Hdx) as [text [-> Hrb]]. exact Hrb.
Qed.

Lemma reads_back_members (props : list (jsstring * value)) :
  Forall (λ kv, json_data kv.2 = true ->
                ∃ text, JSON_stringify kv.2 = Some text ∧ reads_back kv.2 text) props ->
  forallb (λ kv, json_data kv.2) props = true ->
  Forall2 member_of props
    (omap (λ kv, (λ text, quote kv.1 ++ js ":" ++ text) <$> JSON_stringify kv.2) props).
Proof.
  induction 1 as [|[k x] ps Hx Hall IH]; intros Hdata; [constructor|].
  cbn [forallb snd] in Hdata. apply andb_true_iff in Hdata as [Hdx Hdxs].
  cbn [omap list_omap fst snd] in *.
  destruct (Hx Hdx) as [text [-> Hrb]]. cbn [fmap option_fmap option_map].
  constructor; [|by apply IH]. by exists text.
Qed.

Lemma member_need (ps : list (jsstring * value)) (mtexts : list jsstring) :
  Forall2 member_of ps mtexts ->
  Forall2 (λ x t, need x <= length t) (snd <$> ps) mtexts.
Proof.
  induction 1 as [|[k x] mt ps mtexts [t [-> (Hlen & _)]] Hall IH]; [constructor|].
  cbn [fmap list_fmap snd]. constructor; [|exact IH].
  cbn [snd] in Hlen. rewrite !length_app. lia.
Qed.

Lemma stringify_reads_back (v : value) :
  json_data v = true -> ∃ text, JSON_stringify v = Some text ∧ reads_back v text.
Proof.
  induction v as [| |b|n|s|elems IH|props IH] using value_ind'; intros Hdata.
  - discriminate Hdata.
  - eexists. split; [reflexivity|]. split; [cbn; lia|]. split.
    + by eexists _, _.
    + intros [|fuel] rest Hfuel _; [cbn in Hfuel; lia|]. reflexivity.
  - destruct b; (eexists; split; [reflexivity|]; split; [cbn; lia|]; split;
      [by eexists _, _|intros [|fuel] rest Hfuel _; [cbn in Hfuel; lia|reflexivity]]).
  - cbn [json_data] in Hdata. apply andb_true_iff in Hdata as [H1 H2].
    apply Z.leb_le in H1, H2.
    eexists. split; [reflexivity|]. split; [|split].
    + cbn [need]. destruct n as [|p|p]; cbn [Number_toString]; [cbn; lia|..];
        destruct (to_uint_pos_head p) as [c [ds [-> _]]]; cbn; lia.
    + destruct n as [|p|p]; cbn [Number_toString]; [by eexists _, _|..].
      * destruct (to_uint_pos_head p) as [c [ds [-> Hc]]].
        exists c, ds. split; [done|]. unfold is_ws.
        rewrite !(proj2 (N.eqb_neq c _)) by lia. repeat split; (done || lia).
      * by eexists _, _.
    + intros [|fuel] rest Hfuel Hrest; [cbn in Hfuel; lia|].
      by apply parse_value_number.
  - eexists. split; [reflexivity|]. split; [|split].
    + unfold quote. rewrite !length_app. cbn. lia.
    + unfold quote. by eexists _, _.
    + intros [|fuel] rest Hfuel _; [cbn in Hfuel; lia|].
      unfold quote. cbn [app]. rewrite <- app_assoc. cbn [app parse_value].
      cbn [skip_ws is_ws N.eqb Pos.eqb orb]. by rewrite parse_quote_body.
  - rewrite json_data_array in Hdata.
    pose proof (reads_back_elems elems IH Hdata) as Hall.
    rewrite JSON_stringify_array. eexists. split; [reflexivity|].
    unfold reads_back. rewrite need_array.
    destruct Hall as [|x text xs texts Hx Hall].
    + split; [cbn; lia|]. split; [by eexists _, _|].
      intros [|fuel] rest Hfuel _; [cbn in Hfuel; lia|]. reflexivity.
    + cbn [join_with fmap list_fmap]. change (js "[") with [91%N]. cbn [app].
      split; [|split].
      * cbn [length]. rewrite length_app. change (length (js "]")) with 1.
        assert (Hl : Forall2 (λ x t, need x <= length t) xs texts).
        { eapply Forall2_impl; [exact Hall|]. intros ? ? H. apply H. }
        pose proof (need_elems_length xs texts (need x) text (proj1 Hx) Hl) as Hlen.
        lia.
      * by eexists _, _.
      * intros [|fuel] rest Hfuel _; [cbn in Hfuel; lia|].
        cbn [parse_value skip_ws is_ws N.eqb Pos.eqb orb].
        pose proof Hx as (Hlen & (c & t & -> & Hws & Hc1 & Hc2) & Hparse).
        cbn [app]. rewrite (skip_ws_head c _ Hws).
        rewrite (proj2 (N.eqb_neq c 93) Hc1).
        change (c :: (t ++ ?a) ++ ?b) with (((c :: t) ++ a) ++ b).
        rewrite <- !app_assoc.
        apply (parse_elements_texts xs texts Hall x (c :: t) [] fuel rest Hx).
        cbn [fmap list_fmap]. lia.
  - rewrite json_data_object in Hdata. apply andb_true_iff in Hdata as [Hnd Hdata].
    apply bool_decide_eq_true in Hnd.
    pose proof (reads_back_members props IH Hdata) as Hall.
    rewrite JSON_stringify_object. eexists. split; [reflexivity|].
    unfold reads_back. rewrite need_object.
    destruct Hall as [|[k x] mtext ps mtexts Hm Hall].
    + split; [cbn; lia|]. split; [by eexists _, _|].
      intros [|fuel] rest Hfuel _; [cbn in Hfuel; lia|]. reflexivity.
    + cbn [join_with fmap list_fmap snd]. change (js "{") with [123%N]. cbn [app].
      pose proof (member_need _ _ Hall) as Hl.
      destruct Hm as [text [-> Hx]]. cbn [fst snd] in *.
      split; [|split].
      * cbn [length]. rewrite length_app. change (length (js "}")) with 1.
        assert (Hn : need x <= length (quote k ++ js ":" ++ text)).
        { rewrite !length_app. pose proof (proj1 Hx). lia. }
        pose proof (need_elems_length (snd <$> ps) mtexts (need x) _ Hn Hl) as Hlen.
        rewrite <- list_fmap_compose in Hlen. unfold compose in Hlen.
        lia.
      * unfold quote. by eexists _, _.
      * intros [|fuel] rest Hfuel _; [cbn in Hfuel; lia|].
        cbn [parse_value skip_ws is_ws N.eqb Pos.eqb orb].
        unfold quote at 1. cbn [app].
        rewrite skip_ws_head by reflexivity.
        change (34 =? 125)%N with false. cbv iota.
        change (34%N :: (quote_body k ++ [34%N]) ++ ?a) with (quote k ++ a).
        rewrite <- !app_assoc.
        rewrite (app_assoc (quote k)), (app_assoc (quote k ++ js ":")).
        rewrite <- (app_assoc (quote k)).
        apply (parse_members_texts ps mtexts Hall k x text [] fuel rest Hx Hnd).
        cbn [fmap list_fmap snd]. lia.
Qed.

Lemma jsonRoundTrip_json_data (v : value) :
  json_data v = true -> TaintTransform.jsonRoundTrip v = Parsed v [].
Proof.
  intros Hdata. destruct (stringify_reads_back v Hdata) as [text [Htext (Hlen & _ & Hparse)]].
  unfold TaintTransform.jsonRoundTrip, JSON_parse. rewrite Htext.
  change (default (js "undefined") (Some text)) with text.
  pose proof (Hparse (S (length text)) [] ltac:(lia) I) as Hp.
  rewrite app_nil_r in Hp. by rewrite Hp.
Qed.

(** ** The round trips of [TaintTransform] *)




(** ** [TaintTransform.base64RoundTrip] on every string *)

Lemma surrogate_bounds (c : code_unit) :
  (is_high_surrogate c = true <-> (55296 <= c <= 56319)%N)
  /\ (is_low_surrogate c = true <-> (56320 <= c <= 57343)%N).
Proof.
  unfold is_high_surrogate, is_low_surrogate.
  rewrite !andb_true_iff, !N.leb_le. tauto.
Qed.

Lemma utf8_encode_cons_pair (c d : code_unit) (s : jsstring) :
  is_high_surrogate c = true -> is_low_surrogate d = true ->
  utf8_encode (c :: d :: s) = utf8_bytes (pair_code_point c d) ++ utf8_encode s.
Proof. intros Hc Hd. cbn [utf8_encode]. by rewrite Hc, Hd. Qed.

Lemma utf8_replacement (rest : list N) :
  utf8_decode (utf8_bytes REPLACEMENT ++ rest) = REPLACEMENT :: utf8_decode rest.
Proof. apply (utf8_decode_bytes REPLACEMENT rest). unfold scalar, REPLACEMENT. lia. Qed.

Lemma utf8_decode_encode (s : jsstring) :
  Forall (λ c, (c < 65536)%N) s ->
  Forall (λ b, (b < 256)%N) (utf8_encode s)
  /\ utf8_decode (utf8_encode s) = toWellFormed s.
Proof.
  remember (length s) as n eqn:Hn. revert s Hn.
  induction n as [n IH] using lt_wf_ind. intros s Hn Hall.
  destruct s as [|c s']; [by split|].
  apply Forall_cons in Hall as [Hc Hall].
  destruct (IH (length s') ltac:(subst n; cbn; lia) s' eq_refl Hall) as [IHb IHd].
  assert (Hrepl : Forall (λ b, (b < 256)%N) (utf8_bytes REPLACEMENT))
    by (apply utf8_bytes_lt_256; unfold REPLACEMENT; lia).
  cbn [utf8_encode toWellFormed].
  destruct (is_high_surrogate c) eqn:Hhi.
  - destruct s' as [|d s'']; [split; [exact Hrepl|reflexivity]|].
    destruct (is_low_surrogate d) eqn:Hlo.
    + apply Forall_cons in Hall as [Hd Hall].
      destruct (IH (length s'') ltac:(subst n; cbn; lia) s'' eq_refl Hall) as [IHb' IHd'].
      apply surrogate_bounds in Hhi, Hlo.
      assert (Hsc : scalar (pair_code_point c d)).
      { unfold scalar, pair_code_point. lia. }
      split.
      * apply Forall_app. split; [|exact IHb']. apply utf8_bytes_lt_256. apply Hsc.
      * rewrite (utf8_decode_bytes _ _ Hsc), IHd'.
        unfold utf16_units, pair_code_point.
        rewrite (proj2 (N.ltb_ge _ _)) by lia.
        cbn [app]. f_equal; [lia|f_equal; lia].
    + split; [apply Forall_app; by split|].
      by rewrite utf8_replacement, IHd.
  - destruct (is_low_surrogate c) eqn:Hlo.
    + split; [apply Forall_app; by split|].
      by rewrite utf8_replacement, IHd.
    + assert (Hsc : scalar c).
      { unfold scalar. unfold is_high_surrogate in Hhi. unfold is_low_surrogate in Hlo.
        apply andb_false_iff in Hhi. apply andb_false_iff in Hlo.
        rewrite !N.leb_gt in Hhi, Hlo. lia. }
      split.
      * apply Forall_app. split; [|exact IHb]. apply utf8_bytes_lt_256. lia.
      * rewrite (utf8_decode_bytes _ _ Hsc), IHd.
        unfold utf16_units. by rewrite (proj2 (N.ltb_lt _ _) Hc).
Qed.

Lemma toWellFormed_well_formed (s : jsstring) :
  Forall (λ c, (c < 65536)%N) s -> well_formed (toWellFormed s) = true.
Proof.
  remember (length s) as n eqn:Hn. revert s Hn.
  induction n as [n IH] using lt_wf_ind. intros s Hn Hall.
  destruct s as [|c s']; [done|].
  apply Forall_cons in Hall as [Hc Hall].
  pose proof (IH (length s') ltac:(subst n; cbn; lia) s' eq_refl Hall) as IHs.
  cbn [toWellFormed].
  destruct (is_high_surrogate c) eqn:Hhi.
  - destruct s' as [|d s'']; [reflexivity|].
    destruct (is_low_surrogate d) eqn:Hlo.
    + apply Forall_cons in Hall as [Hd Hall].
      cbn [well_formed]. rewrite Hhi, Hlo.
      exact (IH (length s'') ltac:(subst n; cbn; lia) s'' eq_refl Hall).
    + cbn [well_formed]. change (is_high_surrogate REPLACEMENT) with false.
      change (is_low_surrogate REPLACEMENT) with false. cbn. exact IHs.
  - destruct (is_low_surrogate c) eqn:Hlo.
    + cbn [well_formed]. change (is_high_surrogate REPLACEMENT) with false.
      change (is_low_surrogate REPLACEMENT) with false. cbn. exact IHs.
    + cbn [well_formed]. rewrite Hhi, Hlo, (proj2 (N.ltb_lt _ _) Hc). exact IHs.
Qed.

Lemma well_formed_bounded (s : jsstring) :
  well_formed s = true -> Forall (λ c, (c < 65536)%N) s.
Proof.
  remember (length s) as n eqn:Hn. revert s Hn.
  induction n as [n IH] using lt_wf_ind. intros s Hn Hwf.
  destruct s as [|c s']; [constructor|]. cbn [well_formed] in Hwf.
  destruct (is_high_surrogate c) eqn:Hhi.
  - destruct s' as [|d s'']; [discriminate|].
    apply andb_true_iff in Hwf as [Hlo Hwf].
    apply surrogate_bounds in Hhi, Hlo.
    constructor; [lia|]. constructor; [lia|].
    exact (IH (length s'') ltac:(subst n; cbn; lia) s'' eq_refl Hwf).
  - apply andb_true_iff in Hwf as [Hwf Hrest]. apply andb_true_iff in Hwf as [_ Hlt].
    apply N.ltb_lt in Hlt. constructor; [done|].
    exact (IH (length s') ltac:(subst n; cbn; lia) s' eq_refl Hrest).
Qed.

Lemma toWellFormed_id (s : jsstring) :
  well_formed s = true -> toWellFormed s = s.
Proof.
  intros Hwf. pose proof (well_formed_bounded s Hwf) as Hb.
  destruct (utf8_decode_encode s Hb) as [_ <-].
  by destruct (well_formed_utf8 s Hwf) as [_ ->].
Qed.

(** X2. For every string, [base64RoundTrip] is [toWellFormed]: it returns the
    string with each lone surrogate replaced by U+FFFD.  So it returns its
    argument exactly when the argument has no lone surrogate, and applying
    it twice is applying it once. *)
Theorem base64RoundTrip_toWellFormed (s : jsstring) :
  Forall (λ c, (c < 65536)%N) s ->
  TaintTransform.base64RoundTrip s = toWellFormed s
  /\ (TaintTransform.base64RoundTrip s = s <-> well_formed s = true)
  /\ TaintTransform.base64RoundTrip (TaintTransform.base64RoundTrip s)
     = TaintTransform.base64RoundTrip s.
Proof.
  intros Hb.
  assert (Hrt : ∀ t, Forall (λ c, (c < 65536)%N) t ->
                     TaintTransform.base64RoundTrip t = toWellFormed t).
  { intros t Ht. destruct (utf8_decode_encode t Ht) as [Hbytes Hdec].
    unfold TaintTransform.base64RoundTrip. cbv zeta.
    by rewrite (base64_decode_encode _ Hbytes). }
  split; [by apply Hrt|]. split.
  - rewrite (Hrt s Hb). split.
    + intros Heq. rewrite <- Heq. by apply toWellFormed_well_formed.
    + apply toWellFormed_id.
  - rewrite (Hrt s Hb).
    pose proof (toWellFormed_well_formed s Hb) as Hwf.
    rewrite (Hrt _ (well_formed_bounded _ Hwf)). by apply toWellFormed_id.
Qed.

Lemma base64RoundTrip_toWellFormed_witness :
  TaintTransform.base64RoundTrip [108; 55296; 115]%N = toWellFormed [108; 55296; 115]%N
  /\ (TaintTransform.base64RoundTrip [108; 55296; 115]%N = [108; 55296; 115]%N
      <-> well_formed [108; 55296; 115]%N = true)
  /\ TaintTransform.base64RoundTrip (TaintTransform.base64RoundTrip [108; 55296; 115]%N)
     = TaintTransform.base64RoundTrip [108; 55296; 115]%N.
Proof.
  apply (base64RoundTrip_toWellFormed [108; 55296; 115]%N).
  repeat (constructor; [reflexivity|]). constructor.
Defined.

(** ** [TaintTransform.jsonRoundTrip] on every value *)

Lemma representable_array (elems : list value) :
  representable (VArr elems) = forallb representable elems.
Proof. reflexivity. Qed.

Lemma representable_object (props : list (jsstring * value)) :
  representable (VObj props) =
  bool_decide (NoDup props.*1) && forallb (λ kv, representable kv.2) props.
Proof.
  cbn [representable]. f_equal.
  induction props as [|[k x] ps IH]; [done|]. cbn [forallb snd]. by rewrite <- IH.
Qed.

Lemma json_image_array (elems : list value) :
  json_image (VArr elems) = Some (VArr ((λ x, default VNull (json_image x)) <$> elems)).
Proof. reflexivity. Qed.

Lemma json_image_object (props : list (jsstring * value)) :
  json_image (VObj props) =
  Some (VObj (omap (λ kv, (λ y, (kv.1, y)) <$> json_image kv.2) props)).
Proof.
  cbn [json_image]. do 2 f_equal.
  induction props as [|[k x] ps IH]; [done|].
  cbn [omap list_omap fst snd]. rewrite <- IH. by destruct (json_image x).
Qed.

Lemma reads_back_null : reads_back VNull (js "null").
Proof.
  split; [cbn; lia|]. split; [by eexists _, _|].
  intros [|fuel] rest Hfuel _; [cbn in Hfuel; lia|]. reflexivity.
Qed.

Lemma image_elems (elems : list value) :
  Forall (λ x, representable x = true -> image_read_back x) elems ->
  forallb representable elems = true ->
  Forall2 reads_back ((λ x, default VNull (json_image x)) <$> elems)
                     ((λ x, default (js "null") (JSON_stringify x)) <$> elems).
Proof.
  induction 1 as [|x xs Hx Hall IH]; intros Hrep; [constructor|].
  cbn [forallb] in Hrep. apply andb_true_iff in Hrep as [Hrx Hrxs].
  cbn [fmap list_fmap]. constructor; [|by apply IH].
  specialize (Hx Hrx). unfold image_read_back in Hx.
  destruct (JSON_stringify x), (json_image x); try done. apply reads_back_null.
Qed.

Lemma image_members (props : list (jsstring * value)) :
  Forall (λ kv, representable kv.2 = true -> image_read_back kv.2) props ->
  forallb (λ kv, representable kv.2) props = true ->
  Forall2 member_of
    (omap (λ kv, (λ y, (kv.1, y)) <$> json_image kv.2) props)
    (omap (λ kv, (λ text, quote kv.1 ++ js ":" ++ text) <$> JSON_stringify kv.2) props).
Proof.
  induction 1 as [|[k x] ps Hx Hall IH]; intros Hrep; [constructor|].
  cbn [forallb snd] in Hrep. apply andb_true_iff in Hrep as [Hrx Hrxs].
  cbn [omap list_omap fst snd] in *.
  specialize (Hx Hrx). unfold image_read_back in Hx.
  destruct (JSON_stringify x) as [text|], (json_image x) as [y|]; try done;
    cbn [fmap option_fmap option_map]; [|by apply IH].
  constructor; [|by apply IH]. by exists text.
Qed.

Lemma image_keys_sublist (props : list (jsstring * value)) :
  (omap (λ kv, (λ y, (kv.1, y)) <$> json_image kv.2) props).*1 `sublist_of` props.*1.
Proof.
  induction props as [|[k x] ps IH]; [done|].
  cbn [omap list_omap fst snd fmap list_fmap].
  destruct (json_image x); cbn [fmap option_fmap option_map list_fmap fst].
  - by apply sublist_skip.
  - by apply sublist_cons.
Qed.

Lemma stringify_image (v : value) :
  representable v = true -> image_read_back v.
Proof.
  induction v as [| |b|n|s|elems IH|props IH] using value_ind'; intros Hrep.
  - exact I.
  - exact reads_back_null.
  - destruct (stringify_reads_back (VBool b) eq_refl) as [text [Ht Hrb]].
    unfold image_read_back. by rewrite Ht.
  - destruct (stringify_reads_back (VNum n) Hrep) as [text [Ht Hrb]].
    unfold image_read_back. by rewrite Ht.
  - destruct (stringify_reads_back (VStr s) eq_refl) as [text [Ht Hrb]].
    unfold image_read_back. by rewrite Ht.
  - rewrite representable_array in Hrep.
    pose proof (image_elems elems IH Hrep) as Hall.
    unfold image_read_back. rewrite JSON_stringify_array, json_image_array.
    remember ((λ x, default VNull (json_image x)) <$> elems) as ys eqn:Hys.
    remember ((λ x, default (js "null") (JSON_stringify x)) <$> elems) as texts eqn:Hts.
    clear Hys Hts IH Hrep.
    unfold reads_back. rewrite need_array.
    destruct Hall as [|x text xs texts Hx Hall].
    + split; [cbn; lia|]. split; [by eexists _, _|].
      intros [|fuel] rest Hfuel _; [cbn in Hfuel; lia|]. reflexivity.
    + cbn [join_with fmap list_fmap]. change (js "[") with [91%N]. cbn [app].
      split; [|split].
      * cbn [length]. rewrite length_app. change (length (js "]")) with 1.
        assert (Hl : Forall2 (λ x t, need x <= length t) xs texts).
        { eapply Forall2_impl; [exact Hall|]. intros ? ? H. apply H. }
        pose proof (need_elems_length xs texts (need x) text (proj1 Hx) Hl) as Hlen.
        lia.
      * by eexists _, _.
      * intros [|fuel] rest Hfuel _; [cbn in Hfuel; lia|].
        cbn [parse_value skip_ws is_ws N.eqb Pos.eqb orb].
        pose proof Hx as (Hlen & (c & t & -> & Hws & Hc1 & Hc2) & Hparse).
        cbn [app]. rewrite (skip_ws_head c _ Hws).
        rewrite (proj2 (N.eqb_neq c 93) Hc1).
        change (c :: (t ++ ?a) ++ ?b) with (((c :: t) ++ a) ++ b).
        rewrite <- !app_assoc.
        apply (parse_elements_texts xs texts Hall x (c :: t) [] fuel rest Hx).
        cbn [fmap list_fmap]. lia.
  - rewrite representable_object in Hrep. apply andb_true_iff in Hrep as [Hnd Hrep].
    apply bool_decide_eq_true in Hnd.
    pose proof (image_members props IH Hrep) as Hall.
    pose proof (sublist_NoDup _ _ Hnd (image_keys_sublist props)) as Hnd'.
    unfold image_read_back. rewrite JSON_stringify_object, json_image_object.
    remember (omap (λ kv, (λ y, (kv.1, y)) <$> json_image kv.2) props) as qs eqn:Hqs.
    remember (omap (λ kv, (λ text, quote kv.1 ++ js ":" ++ text) <$> JSON_stringify kv.2) props)
      as mts eqn:Hmts.
    clear Hqs Hmts IH Hrep Hnd.
    unfold reads_back. rewrite need_object.
    destruct Hall as [|[k x] mtext ps mtexts Hm Hall].
    + split; [cbn; lia|]. split; [by eexists _, _|].
      intros [|fuel] rest Hfuel _; [cbn in Hfuel; lia|]. reflexivity.
    + cbn [join_with fmap list_fmap snd]. change (js "{") with [123%N]. cbn [app].
      pose proof (member_need _ _ Hall) as Hl.
      destruct Hm as [text [-> Hx]]. cbn [fst snd] in *.
      split; [|split].
      * cbn [length]. rewrite length_app. change (length (js "}")) with 1.
        assert (Hn : need x <= length (quote k ++ js ":" ++ text)).
        { rewrite !length_app. pose proof (proj1 Hx). lia. }
        pose proof (need_elems_length (snd <$> ps) mtexts (need x) _ Hn Hl) as Hlen.
        rewrite <- list_fmap_compose in Hlen. unfold compose in Hlen.
        lia.
      * unfold quote. by eexists _, _.
      * intros [|fuel] rest Hfuel _; [cbn in Hfuel; lia|].
        cbn [parse_value skip_ws is_ws N.eqb Pos.eqb orb].
        unfold quote at 1. cbn [app].
        rewrite skip_ws_head by reflexivity.
        change (34 =? 125)%N with false. cbv iota.
        change (34%N :: (quote_body k ++ [34%N]) ++ ?a) with (quote k ++ a).
        rewrite <- !app_assoc.
        rewrite (app_assoc (quote k)), (app_assoc (quote k ++ js ":")).
        rewrite <- (app_assoc (quote k)).
        apply (parse_members_texts ps mtexts Hall k x text [] fuel rest Hx Hnd').
        cbn [fmap list_fmap snd]. lia.
Qed.

Lemma image_json_data (v : value) :
  representable v = true -> ∀ w, json_image v = Some w -> json_data w = true.
Proof.
  induction v as [| |b|n|s|elems IH|props IH] using value_ind'; intros Hrep w Hw;
    try (injection Hw as <-; done).
  - discriminate Hw.
  - rewrite json_image_array in Hw. injection Hw as <-.
    rewrite representable_array in Hrep. rewrite json_data_array.
    induction IH as [|x xs Hx Hall IHxs]; [done|].
    cbn [forallb] in Hrep. apply andb_true_iff in Hrep as [Hrx Hrxs].
    cbn [fmap list_fmap forallb]. apply andb_true_iff. split; [|by apply IHxs].
    destruct (json_image x) as [y|] eqn:Hy; [|done]. by apply Hx.
  - rewrite json_image_object in Hw. injection Hw as <-.
    rewrite representable_object in Hrep. apply andb_true_iff in Hrep as [Hnd Hrep].
    apply bool_decide_eq_true in Hnd.
    rewrite json_data_object. apply andb_true_iff. split.
    + apply bool_decide_eq_true.
      exact (sublist_NoDup _ _ Hnd (image_keys_sublist props)).
    + clear Hnd. induction IH as [|[k x] ps Hx Hall IHps]; [done|].
      cbn [forallb snd] in Hrep. apply andb_true_iff in Hrep as [Hrx Hrps].
      cbn [omap list_omap fst snd] in *.
      destruct (json_image x) as [y|] eqn:Hy; cbn [fmap option_fmap option_map];
        [|by apply IHps].
      cbn [forallb snd]. apply andb_true_iff. split; [by apply Hx|by apply IHps].
Qed.

Lemma jsonRoundTrip_representable (v : value) :
  representable v = true ->
  TaintTransform.jsonRoundTrip v =
  match json_image v with
  | Some w => Parsed w []
  | None => SyntaxError
  end.
Proof.
  intros Hrep. pose proof (stringify_image v Hrep) as Him.
  unfold image_read_back in Him.
  unfold TaintTransform.jsonRoundTrip, JSON_parse.
  destruct (JSON_stringify v) as [text|], (json_image v) as [w|]; try done.
  destruct Him as (Hlen & _ & Hparse).
  change (default (js "undefined") (Some text)) with text.
  pose proof (Hparse (S (length text)) [] ltac:(lia) I) as Hp.
  rewrite app_nil_r in Hp. by rewrite Hp.
Qed.

(** X1. Round-trip identity of [jsonRoundTrip]: for every JSON datum (no
    [undefined] inside, safe integers, distinct keys) the result is the
    datum itself, so it carries the same labels under every labelling. *)
Theorem jsonRoundTrip_identity (v : value) (labels : value -> gset string) :
  json_data v = true ->
  TaintTransform.jsonRoundTrip v = Parsed v []
  /\ ∀ w rest, TaintTransform.jsonRoundTrip v = Parsed w rest -> labels w = labels v.
Proof.
  intros Hdata. rewrite (jsonRoundTrip_json_data v Hdata). split; [done|].
  by intros w rest [= <- _].
Qed.

Lemma jsonRoundTrip_identity_witness :
  TaintTransform.jsonRoundTrip
    (VObj [(js "field", VStr (js "id")); (js "value", VStr (js "1 OR 1=1"))])
  = Parsed (VObj [(js "field", VStr (js "id")); (js "value", VStr (js "1 OR 1=1"))]) []
  /\ ∀ w rest,
       TaintTransform.jsonRoundTrip
         (VObj [(js "field", VStr (js "id")); (js "value", VStr (js "1 OR 1=1"))])
       = Parsed w rest ->
       (λ _ : value, ({["WEBSOCKET"]} : gset string)) w
       = (λ _ : value, ({["WEBSOCKET"]} : gset string))
           (VObj [(js "field", VStr (js "id")); (js "value", VStr (js "1 OR 1=1"))]).
Proof.
  apply (jsonRoundTrip_identity
           (VObj [(js "field", VStr (js "id")); (js "value", VStr (js "1 OR 1=1"))])
           (λ _, {["WEBSOCKET"]})).
  apply (bool_decide_unpack _). by vm_compute.
Defined.

(** X3. What [jsonRoundTrip] loses: on every value whose numbers are safe
    integers it throws a [SyntaxError] for [undefined] and otherwise returns
    the value with each [undefined] array element turned into [null] and
    each [undefined]-valued property left out, nothing else changed; a
    second round trip then changes nothing. *)
Theorem jsonRoundTrip_image (v : value) :
  representable v = true ->
  TaintTransform.jsonRoundTrip v =
    match json_image v with
    | Some w => Parsed w []
    | None => SyntaxError
    end
  /\ (json_image v = None <-> v = VUndefined)
  /\ ∀ w, json_image v = Some w -> TaintTransform.jsonRoundTrip w = Parsed w [].
Proof.
  intros Hrep. split; [by apply jsonRoundTrip_representable|]. split.
  - destruct v; cbn; split; (done || discriminate).
  - intros w Hw. apply jsonRoundTrip_json_data. by apply (image_json_data v).
Qed.

Lemma jsonRoundTrip_image_witness :
  TaintTransform.jsonRoundTrip (VArr [VUndefined; VObj [(js "a", VUndefined); (js "b", VNum 1)]]) =
    match json_image (VArr [VUndefined; VObj [(js "a", VUndefined); (js "b", VNum 1)]]) with
    | Some w => Parsed w []
    | None => SyntaxError
    end
  /\ (json_image (VArr [VUndefined; VObj [(js "a", VUndefined); (js "b", VNum 1)]]) = None
      <-> VArr [VUndefined; VObj [(js "a", VUndefined); (js "b", VNum 1)]] = VUndefined)
  /\ ∀ w, json_image (VArr [VUndefined; VObj [(js "a", VUndefined); (js "b", VNum 1)]]) = Some w ->
       TaintTransform.jsonRoundTrip w = Parsed w [].
Proof.
  apply (jsonRoundTrip_image (VArr [VUndefined; VObj [(js "a", VUndefined); (js "b", VNum 1)]])).
  apply (bool_decide_unpack _). by vm_compute.
Defined.

Example jsonRoundTrip_image_ex :
  TaintTransform.jsonRoundTrip (VArr [VUndefined; VObj [(js "a", VUndefined); (js "b", VNum 1)]])
  = Parsed (VArr [VNull; VObj [(js "b", VNum 1)]]) [].
Proof. vm_compute. reflexivity. Qed.

(** ** [WeakSanitizers]: the other sanitizers *)

Lemma occurrences_app (c : code_unit) (s t : jsstring) :
  occurrences c (s ++ t) = occurrences c s + occurrences c t.
Proof. unfold occurrences. by rewrite filter_app, length_app. Qed.

Lemma unescape_quotes_cons_ne (x : code_unit) (s : jsstring) :
  x ≠ 39%N -> WeakSanitizers.unescape_quotes (x :: s) = x :: WeakSanitizers.unescape_quotes s.
Proof.
  intros Hx. destruct s as [|d s]; [reflexivity|].
  cbn [WeakSanitizers.unescape_quotes].
  by rewrite (proj2 (N.eqb_neq x 39) Hx).
Qed.

Lemma occurrences_singleton (c x : code_unit) :
  occurrences c [x] = if decide (x = c) then 1 else 0.
Proof. rewrite occurrences_cons. change (occurrences c []) with 0. lia. Qed.

Lemma occurrences_replace_each (c q : code_unit) (s : jsstring) :
  occurrences c (WeakSanitizers.replace_each q [q; q] s)
  = occurrences c s + (if decide (q = c) then occurrences c s else 0).
Proof.
  induction s as [|x s IH]; [by destruct (decide (q = c))|].
  cbn [WeakSanitizers.replace_each]. rewrite occurrences_app, IH, (occurrences_cons c x s).
  destruct (N.eqb_spec x q) as [->|Hne].
  - rewrite (occurrences_cons c q [q]), occurrences_singleton.
    destruct (decide (q = c)); lia.
  - rewrite occurrences_singleton.
    destruct (decide (x = c)) as [->|]; destruct (decide (q = c)); (congruence || lia).
Qed.

Lemma unescape_quotes_pair (s : jsstring) :
  WeakSanitizers.unescape_quotes (39 :: 39 :: s)%N = 39%N :: WeakSanitizers.unescape_quotes s.
Proof. reflexivity. Qed.

(** X4. [sanitizeSQL] doubles every single quote and changes nothing else:
    the number of quotes doubles, every other character keeps its count,
    reading two quotes as one gives the input back, and an input is returned
    as it is exactly when it has no quote. *)
Theorem sanitizeSQL_doubles_quotes (input : jsstring) :
  occurrences 39%N (WeakSanitizers.sanitizeSQL input) = 2 * occurrences 39%N input
  /\ (∀ c, c ≠ 39%N ->
        occurrences c (WeakSanitizers.sanitizeSQL input) = occurrences c input)
  /\ WeakSanitizers.unescape_quotes (WeakSanitizers.sanitizeSQL input) = input
  /\ (WeakSanitizers.sanitizeSQL input = input <-> 39%N ∉ input).
Proof.
  unfold WeakSanitizers.sanitizeSQL.
  assert (Hq : occurrences 39%N (WeakSanitizers.replace_each 39 [39; 39]%N input)
               = 2 * occurrences 39%N input).
  { rewrite occurrences_replace_each. rewrite decide_True by done. lia. }
  split; [exact Hq|]. split; [|split].
  - intros c Hc. rewrite occurrences_replace_each. rewrite decide_False by congruence. lia.
  - clear Hq. induction input as [|x s IH]; [done|].
    cbn [WeakSanitizers.replace_each].
    destruct (N.eqb_spec x 39) as [->|Hne].
    + cbn [app]. by rewrite unescape_quotes_pair, IH.
    + cbn [app]. by rewrite (unescape_quotes_cons_ne x _ Hne), IH.
  - split.
    + intros Heq Hin.
      assert (Hpos : 0 < occurrences 39%N input).
      { clear Hq Heq. induction input as [|x s IH]; [by apply not_elem_of_nil in Hin|].
        rewrite occurrences_cons. apply elem_of_cons in Hin as [<-|Hin].
        - rewrite decide_True by done. lia.
        - specialize (IH Hin). lia. }
      rewrite Heq in Hq. lia.
    + intros Hnin. clear Hq. induction input as [|x s IH]; [done|].
      apply not_elem_of_cons in Hnin as [Hne Hnin].
      cbn [WeakSanitizers.replace_each].
      rewrite (proj2 (N.eqb_neq x 39)) by congruence. cbn [app]. by rewrite IH.
Qed.

Lemma strip_tags_gt (inside : bool) (s : jsstring) :
  62%N ∈ WeakSanitizers.strip_tags inside s -> 62%N ∈ s.
Proof.
  revert inside. induction s as [|c s IH]; intros inside Hin; [done|].
  cbn [WeakSanitizers.strip_tags] in Hin. apply elem_of_cons.
  destruct inside.
  - destruct (c =? 62)%N; right; by eapply IH.
  - destruct ((c =? 60)%N && bool_decide (62%N ∈ s)).
    + right. by eapply IH.
    + apply elem_of_cons in Hin as [->|Hin]; [by left|right; by eapply IH].
Qed.

Lemma strip_tags_no_tag (inside : bool) (s : jsstring) :
  WeakSanitizers.has_tag (WeakSanitizers.strip_tags inside s) = false.
Proof.
  revert inside. induction s as [|c s IH]; intros inside; [done|].
  cbn [WeakSanitizers.strip_tags]. destruct inside.
  - destruct (c =? 62)%N; apply IH.
  - destruct ((c =? 60)%N && bool_decide (62%N ∈ s)) eqn:Hopen; [apply IH|].
    cbn [WeakSanitizers.has_tag]. rewrite IH, orb_false_r.
    apply andb_false_iff. apply andb_false_iff in Hopen as [Hc|Hgt]; [by left|right].
    apply bool_decide_eq_false. apply bool_decide_eq_false in Hgt.
    intros Hin. apply Hgt. by eapply strip_tags_gt.
Qed.

Lemma strip_tags_id (s : jsstring) :
  WeakSanitizers.has_tag s = false -> WeakSanitizers.strip_tags false s = s.
Proof.
  induction s as [|c s IH]; intros Htag; [done|].
  cbn [WeakSanitizers.has_tag] in Htag. apply orb_false_iff in Htag as [Hopen Htag].
  cbn [WeakSanitizers.strip_tags]. rewrite Hopen. by rewrite IH.
Qed.

Lemma has_tag_no_gt (s : jsstring) : 62%N ∉ s -> WeakSanitizers.has_tag s = false.
Proof.
  induction s as [|c s IH]; intros Hgt; [done|].
  apply not_elem_of_cons in Hgt as [Hne Hgt].
  cbn [WeakSanitizers.has_tag]. rewrite (IH Hgt), orb_false_r.
  apply andb_false_iff. right. by apply bool_decide_eq_false.
Qed.

(** X5. [sanitizeHTML] leaves no complete tag (no [<] with a [>] after it),
    so a second pass changes nothing; and it returns unchanged every input
    without [>]: an unclosed tag passes. *)
Theorem sanitizeHTML_no_complete_tag (input : jsstring) :
  WeakSanitizers.has_tag (WeakSanitizers.sanitizeHTML input) = false
  /\ WeakSanitizers.sanitizeHTML (WeakSanitizers.sanitizeHTML input)
     = WeakSanitizers.sanitizeHTML input
  /\ (WeakSanitizers.sanitizeHTML input = input <-> WeakSanitizers.has_tag input = false)
  /\ ∀ unclosed : jsstring, 62%N ∉ unclosed ->
       WeakSanitizers.sanitizeHTML unclosed = unclosed.
Proof.
  unfold WeakSanitizers.sanitizeHTML.
  pose proof (strip_tags_no_tag false input) as Hno.
  split; [exact Hno|]. split; [by apply strip_tags_id|]. split.
  - split; [intros Heq; by rewrite <- Heq|apply strip_tags_id].
  - intros unclosed Hgt. apply strip_tags_id. by apply has_tag_no_gt.
Qed.

(** X6. The result of [sanitizeFilename] holds no path separator and no other
    character of the forbidden class, a second pass changes nothing, and a
    name made of full stops only (as [".."]) is returned as it is. *)
Theorem sanitizeFilename_no_separator (filename : jsstring) (n : nat) :
  Forall (λ c, c ∉ WeakSanitizers.filename_forbidden) (WeakSanitizers.sanitizeFilename filename)
  /\ (47%N ∉ WeakSanitizers.sanitizeFilename filename)
  /\ (92%N ∉ WeakSanitizers.sanitizeFilename filename)
  /\ WeakSanitizers.sanitizeFilename (WeakSanitizers.sanitizeFilename filename)
     = WeakSanitizers.sanitizeFilename filename
  /\ WeakSanitizers.sanitizeFilename (replicate n 46%N) = replicate n 46%N.
Proof.
  unfold WeakSanitizers.sanitizeFilename.
  assert (Hall : Forall (λ c, c ∉ WeakSanitizers.filename_forbidden)
                   (filter (λ c, c ∉ WeakSanitizers.filename_forbidden) filename)).
  { apply Forall_forall. intros c Hc. by apply list_elem_of_filter in Hc as [Hc _]. }
  split; [exact Hall|].
  assert (Hsep : ∀ c, c ∈ WeakSanitizers.filename_forbidden ->
                      c ∉ filter (λ c, c ∉ WeakSanitizers.filename_forbidden) filename).
  { intros c Hc Hin. apply list_elem_of_filter in Hin as [Hin _]. by apply Hin. }
  split; [apply Hsep; apply (bool_decide_unpack _); by vm_compute|].
  split; [apply Hsep; apply (bool_decide_unpack _); by vm_compute|].
  split.
  - revert Hall. generalize (filter (λ c, c ∉ WeakSanitizers.filename_forbidden) filename).
    intros l Hall. induction Hall as [|c s Hc Hall IH]; [done|].
    rewrite filter_cons_True by done. by rewrite IH.
  - induction n as [|n IH]; [done|]. cbn [replicate].
    rewrite filter_cons_True; [by rewrite IH|].
    apply (bool_decide_unpack _). by vm_compute.
Qed.

Lemma own_property_delete_ne (k p : jsstring) (props : list (jsstring * value)) :
  k ≠ p ->
  own_property k (WeakSanitizers.delete_property p props) = own_property k props.
Proof.
  intros Hk. unfold WeakSanitizers.delete_property.
  induction props as [|[k' v] ps IH]; [done|].
  destruct (decide (k' = p)) as [->|Hne].
  - rewrite filter_cons_False by (cbn; intros H; by apply H).
    cbn [own_property]. rewrite decide_False by congruence. exact IH.
  - rewrite filter_cons_True by done. cbn [own_property].
    destruct (decide (k' = k)); [done|exact IH].
Qed.

Lemma own_property_delete_eq (p : jsstring) (props : list (jsstring * value)) :
  own_property p (WeakSanitizers.delete_property p props) = None.
Proof.
  unfold WeakSanitizers.delete_property.
  induction props as [|[k' v] ps IH]; [done|].
  destruct (decide (k' = p)) as [->|Hne].
  - rewrite filter_cons_False by (cbn; intros H; by apply H). exact IH.
  - rewrite filter_cons_True by done. cbn [own_property].
    by rewrite decide_False.
Qed.

Lemma delete_property_absent (p : jsstring) (props : list (jsstring * value)) :
  own_property p props = None -> WeakSanitizers.delete_property p props = props.
Proof.
  unfold WeakSanitizers.delete_property.
  induction props as [|[k' v] ps IH]; intros Hp; [done|].
  cbn [own_property] in Hp. destruct (decide (k' = p)); [done|].
  rewrite filter_cons_True by done. by rewrite IH.
Qed.

(** X7. [sanitizeJSON] works on the top level only.  On a data object it throws
    a [TypeError] when the object has an own property named
    [hasOwnProperty]; otherwise it returns the object without its own
    [__proto__] property and with every other property as it was, so a
    [__proto__] key nested under any other key is kept. *)
Theorem sanitizeJSON_top_level_only (props : list (jsstring * value)) :
  WeakSanitizers.sanitizeJSON (VObj props) =
    match own_property (js "hasOwnProperty") props with
    | Some _ => Throw (NativeError (js "TypeError"))
    | None => Normal (VObj (WeakSanitizers.delete_property (js "__proto__") props))
    end
  /\ own_property (js "__proto__") (WeakSanitizers.delete_property (js "__proto__") props) = None
  /\ ∀ k, k ≠ js "__proto__" ->
       own_property k (WeakSanitizers.delete_property (js "__proto__") props)
       = own_property k props.
Proof.
  split; [|split].
  - unfold WeakSanitizers.sanitizeJSON, WeakSanitizers.hasOwnProperty_call.
    destruct (own_property (js "hasOwnProperty") props); [reflexivity|].
    cbn [mbind completion_bind].
    destruct (own_property (js "__proto__") props) as [v|] eqn:Hp.
    + rewrite bool_decide_eq_true_2 by by eexists. reflexivity.
    + rewrite bool_decide_eq_false_2 by (intros [? ?]; discriminate).
      by rewrite (delete_property_absent _ _ Hp).
  - apply own_property_delete_eq.
  - intros k Hk. by apply own_property_delete_ne.
Qed.

Lemma split_on_join (sep : code_unit) (s : jsstring) :
  ∃ p ps, split_on sep s = p :: ps
          ∧ s = p ++ concat ((λ q, sep :: q) <$> ps)
          ∧ Forall (λ q, sep ∉ q) (p :: ps).
Proof.
  induction s as [|c s (p & ps & Hsplit & Hs & Hall)].
  - exists [], []. split; [reflexivity|]. split; [reflexivity|].
    constructor; [apply not_elem_of_nil|constructor].
  - cbn [split_on]. rewrite Hsplit. destruct (N.eqb_spec c sep) as [->|Hne].
    + exists [], (p :: ps). split; [reflexivity|]. split.
      * cbn. by rewrite <- Hs.
      * constructor; [apply not_elem_of_nil|exact Hall].
    + exists (c :: p), ps. split; [reflexivity|]. split.
      * cbn. by rewrite <- Hs.
      * apply Forall_cons in Hall as [Hp Hall]. constructor; [|exact Hall].
        apply not_elem_of_cons. split; [congruence|exact Hp].
Qed.

Lemma dotted_spec (domain : jsstring) :
  WeakSanitizers.dotted domain = true
  <-> ∃ b c, domain = b ++ 46%N :: c ∧ b ≠ [] ∧ c ≠ [].
Proof.
  unfold WeakSanitizers.dotted. destruct domain as [|x rest].
  - split; [discriminate|]. intros (b & c & Hd & Hb & _). by destruct b.
  - rewrite bool_decide_eq_true. split.
    + intros Hin. destruct rest as [|y rest'] using rev_ind; [by apply not_elem_of_nil in Hin|].
      clear IHrest'. rewrite removelast_last in Hin.
      apply list_elem_of_split in Hin as (r1 & r2 & ->).
      exists (x :: r1), (r2 ++ [y]). split; [|split].
      * cbn. by rewrite <- !app_assoc.
      * done.
      * by destruct r2.
    + intros (b & c & Hd & Hb & Hc).
      destruct b as [|x' b]; [done|]. injection Hd as -> ->.
      destruct c as [|y c'] using rev_ind; [done|]. clear IHc'.
      replace (b ++ 46%N :: c' ++ [y]) with ((b ++ 46%N :: c') ++ [y])
        by by rewrite <- app_assoc.
      rewrite removelast_last. apply elem_of_app. right. apply elem_of_cons. by left.
Qed.

(** X8. [validateEmail] accepts exactly the strings made of a non-empty part,
    an [@], a non-empty part, a full stop and a non-empty part, none of the
    three parts holding an [@]; nothing else is asked of the characters
    (spaces, quotes, angle brackets and line breaks pass). *)
Theorem validateEmail_language (email : jsstring) :
  WeakSanitizers.validateEmail email = true
  <-> ∃ a b c, email = a ++ 64%N :: b ++ 46%N :: c
               ∧ a ≠ [] ∧ b ≠ [] ∧ c ≠ []
               ∧ (64%N ∉ a) ∧ (64%N ∉ b) ∧ (64%N ∉ c).
Proof.
  unfold WeakSanitizers.validateEmail. split.
  - destruct (split_on_join 64 email) as (p & ps & Hsplit & Hs & Hall).
    rewrite Hsplit. destruct ps as [|domain [|? ?]]; try discriminate.
    intros Hok. apply andb_true_iff in Hok as [Hlocal Hdot].
    apply negb_true_iff, bool_decide_eq_false in Hlocal.
    apply dotted_spec in Hdot as (b & c & -> & Hb & Hc).
    apply Forall_cons in Hall as [Hp Hall]. apply Forall_cons in Hall as [Hd _].
    exists p, b, c. cbn in Hs. rewrite app_nil_r in Hs.
    repeat split; try done.
    + intros Hin. apply Hd. apply elem_of_app. by left.
    + intros Hin. apply Hd. apply elem_of_app. right. apply elem_of_cons. by right.
  - intros (a & b & c & -> & Ha & Hb & Hc & Ha' & Hb' & Hc').
    rewrite split_on_app by done.
    rewrite split_on_no_sep.
    + apply andb_true_iff. split.
      * apply negb_true_iff, bool_decide_eq_false. exact Ha.
      * apply dotted_spec. by exists b, c.
    + intros Hin. apply elem_of_app in Hin as [Hin|Hin]; [by apply Hb'|].
      apply elem_of_cons in Hin as [Hin|Hin]; [discriminate|by apply Hc'].
Qed.

(** X9. [isInternalIP] takes for external every address that does not begin
    with the character 1, and every address of the private block 172.16/12
    whose second number is 19 to 31. *)
Theorem isInternalIP_misses (ip rest : jsstring) (second : Z) :
  (∀ tail, ip ≠ 49%N :: tail) ->
  (19 <= second <= 31)%Z ->
  WeakSanitizers.isInternalIP ip = false
  /\ WeakSanitizers.isInternalIP (js "172." ++ Number_toString second ++ js "." ++ rest) = false.
Proof.
  intros Hip Hsecond. split.
  - destruct ip as [|c tail]; [reflexivity|].
    assert (Hc : c ≠ 49%N) by (intros ->; by apply (Hip tail)).
    assert (H : ∀ t, starts_with (49%N :: t) (c :: tail) = false).
    { intros t. cbn [starts_with]. by rewrite (proj2 (N.eqb_neq 49 c)) by congruence. }
    unfold WeakSanitizers.isInternalIP, WeakSanitizers.internalRanges. cbn [existsb].
    change (js "127.") with (49%N :: js "27.").
    change (js "10.") with (49%N :: js "0.").
    change (js "192.168.") with (49%N :: js "92.168.").
    change (js "172.16.") with (49%N :: js "72.16.").
    change (js "172.17.") with (49%N :: js "72.17.").
    change (js "172.18.") with (49%N :: js "72.18.").
    by rewrite !H.
  - assert (Hcases : second ∈ [19; 20; 21; 22; 23; 24; 25; 26; 27; 28; 29; 30; 31]%Z).
    { assert (∃ n : nat, second = (19 + Z.of_nat n)%Z ∧ n < 13) as (n & -> & Hn)
        by (exists (Z.to_nat (second - 19)); lia).
      do 13 (destruct n as [|n]; [apply (bool_decide_unpack _); by vm_compute|]). lia. }
    repeat (apply elem_of_cons in Hcases as [->|Hcases]; [reflexivity|]).
    by apply not_elem_of_nil in Hcases.
Qed.

Lemma isInternalIP_misses_witness :
  WeakSanitizers.isInternalIP (js "0.0.0.0") = false
  /\ WeakSanitizers.isInternalIP (js "172." ++ Number_toString 31 ++ js "." ++ js "255.254") = false.
Proof.
  apply (isInternalIP_misses (js "0.0.0.0") (js "255.254") 31).
  - intros tail. discriminate.
  - lia.
Defined.

Lemma remove_all_from_skip (pat : jsstring) (n : nat) (s t : jsstring) :
  length s = n -> remove_all_from pat n (s ++ t) = remove_all_from pat 0 t.
Proof.
  revert s. induction n as [|n IH]; intros s Hs.
  - by destruct s.
  - destruct s as [|c s]; [done|]. cbn [app remove_all_from]. apply IH.
    by injection Hs.
Qed.

Lemma starts_with_cons (a b : code_unit) (p s : jsstring) :
  starts_with (a :: p) (b :: s) = (a =? b)%N && starts_with p s.
Proof. reflexivity. Qed.

Lemma bypass_path_cons (dots : nat) (c : code_unit) (t : jsstring) :
  WeakSanitizers.bypass_path dots (c :: t) =
  if (c =? 46)%N then c :: WeakSanitizers.bypass_path (min 2 (S dots)) t
  else if (c =? 47)%N && bool_decide (dots = 2)
       then [46; 46; 47]%N ++ c :: WeakSanitizers.bypass_path 0 t
       else c :: WeakSanitizers.bypass_path 0 t.
Proof. reflexivity. Qed.

Lemma bypass_path_head (t : jsstring) :
  starts_with [47%N] (WeakSanitizers.bypass_path 2 t) = false.
Proof.
  destruct t as [|d t]; [reflexivity|]. rewrite bypass_path_cons.
  destruct (N.eqb_spec d 46) as [->|Hd]; [reflexivity|].
  destruct (N.eqb_spec d 47) as [->|Hd']; [reflexivity|].
  cbn [andb]. rewrite starts_with_cons.
  by rewrite (proj2 (N.eqb_neq 47 d)) by congruence.
Qed.

Lemma bypass_path_no_match (dots : nat) (t : jsstring) :
  1 <= dots -> starts_with [46; 47]%N (WeakSanitizers.bypass_path dots t) = false.
Proof.
  intros Hdots. destruct t as [|c t]; [reflexivity|]. rewrite bypass_path_cons.
  destruct (N.eqb_spec c 46) as [->|Hc].
  - rewrite starts_with_cons. replace (min 2 (S dots)) with 2 by lia.
    rewrite bypass_path_head. reflexivity.
  - destruct ((c =? 47)%N && bool_decide (dots = 2)); [reflexivity|].
    rewrite starts_with_cons. by rewrite (proj2 (N.eqb_neq 46 c)) by congruence.
Qed.

Lemma remove_all_from_cons (pat : jsstring) (c : code_unit) (s : jsstring) :
  remove_all_from pat 0 (c :: s) =
  if starts_with pat (c :: s) then remove_all_from pat (pred (length pat)) s
  else c :: remove_all_from pat 0 s.
Proof. reflexivity. Qed.

Lemma sanitizePath_bypass (dots : nat) (target : jsstring) :
  WeakSanitizers.sanitizePath (WeakSanitizers.bypass_path dots target) = target.
Proof.
  unfold WeakSanitizers.sanitizePath, String_remove_all.
  change (js "../") with [46; 46; 47]%N.
  revert dots. induction target as [|c t IH]; intros dots; [reflexivity|].
  rewrite bypass_path_cons.
  destruct (N.eqb_spec c 46) as [->|Hc].
  - rewrite remove_all_from_cons, starts_with_cons.
    rewrite bypass_path_no_match by lia. cbn [andb N.eqb Pos.eqb]. by rewrite IH.
  - destruct ((c =? 47)%N && bool_decide (dots = 2)).
    + change ([46; 46; 47]%N ++ c :: WeakSanitizers.bypass_path 0 t)
        with (46%N :: [46; 47]%N ++ c :: WeakSanitizers.bypass_path 0 t).
      rewrite remove_all_from_cons.
      change (starts_with [46; 46; 47]%N
                (46%N :: [46; 47]%N ++ c :: WeakSanitizers.bypass_path 0 t)) with true.
      cbv iota. change (pred (length [46; 46; 47]%N)) with 2.
      rewrite (remove_all_from_skip _ 2 [46; 47]%N) by reflexivity.
      rewrite remove_all_from_cons, starts_with_cons.
      rewrite (proj2 (N.eqb_neq 46 c)) by congruence. cbn [andb]. by rewrite IH.
    + rewrite remove_all_from_cons, starts_with_cons.
      rewrite (proj2 (N.eqb_neq 46 c)) by congruence. cbn [andb]. by rewrite IH.
Qed.

(** X10. [sanitizePath] excludes no result: every string, a traversal path
    included, is what it returns for some input, the one with ["../"] put
    before each solidus that follows two full stops. *)
Theorem sanitizePath_surjective (target : jsstring) :
  WeakSanitizers.sanitizePath (WeakSanitizers.bypass_path 0 target) = target
  /\ ∃ input, WeakSanitizers.sanitizePath input = target.
Proof.
  split; [apply sanitizePath_bypass|].
  exists (WeakSanitizers.bypass_path 0 target). apply sanitizePath_bypass.
Qed.

Lemma drop_first_of_each_prefix (todo : list code_unit) (t : jsstring) :
  NoDup todo -> WeakSanitizers.drop_first_of_each todo (todo ++ t) = t.
Proof.
  induction 1 as [|c todo Hc Hnd IH]; [apply drop_first_of_each_nil|].
  cbn [app WeakSanitizers.drop_first_of_each].
  rewrite decide_True by (apply elem_of_cons; by left).
  rewrite filter_cons_False by (intros H; by apply H).
  by rewrite filter_ne_id.
Qed.

(** X11. [sanitizeCommand] excludes no result either: with one copy of each
    blacklisted character put in front, every command comes out as it is. *)
Theorem sanitizeCommand_surjective (target : jsstring) :
  WeakSanitizers.sanitizeCommand (js ";&|`$(){}" ++ target) = target
  /\ ∃ input, WeakSanitizers.sanitizeCommand input = target.
Proof.
  assert (H : WeakSanitizers.sanitizeCommand (js ";&|`$(){}" ++ target) = target).
  { rewrite sanitizeCommand_drop_first.
    apply (drop_first_of_each_prefix WeakSanitizers.blacklisted).
    apply (bool_decide_unpack _). by vm_compute. }
  split; [exact H|]. eexists. exact H.
Qed.

(** ** [ChainBuilder]: order and failure of the other chains *)

(** X12. [sequentialSinks] invokes the second sink only once the first one has
    delivered, in the turn in which it does, and with what it delivered; when
    the first sink's promise is rejected or never settles the second sink is
    not invoked at all, and the rejection is the chain's. *)
Theorem sequentialSinks_order (source : value)
    (sink1 sink2 : value -> completion returned) (ret1 : returned) (now : nat) :
  sink1 source = Normal ret1 ->
  match as_promise now ret1 with
  | Settles t (Fulfilled v1) =>
      events (ChainBuilder.sequentialSinks source sink1 sink2 now)
        = [Invoke (Sink 0) source now; Invoke (Sink 1) v1 t]
      /\ now <= t
      /\ result (ChainBuilder.sequentialSinks source sink1 sink2 now) =
           match sink2 v1 with
           | Normal ret2 => as_promise t ret2
           | Throw e => Settles t (Rejected e)
           end
  | Settles t (Rejected e) =>
      ChainBuilder.sequentialSinks source sink1 sink2 now
      = Started [Invoke (Sink 0) source now] (Settles t (Rejected e))
  | Forever =>
      ChainBuilder.sequentialSinks source sink1 sink2 now
      = Started [Invoke (Sink 0) source now] Forever
  end.
Proof.
  intros H1.
  unfold ChainBuilder.sequentialSinks, async_function, mbind, async_bind, call.
  rewrite H1. cbn.
  destruct ret1 as [v1|[t [v1|e]|]]; cbn; [| |done|done].
  - destruct (sink2 v1) as [[r|[t2 [v|e]|]]|e]; cbn;
      (split; [done|]); (split; [done|]); done.
  - destruct (sink2 v1) as [[r|[t2 [v|e]|]]|e]; cbn;
      (split; [done|]); (split; [lia|]); done.
Qed.

Lemma sequentialSinks_order_witness :
  match as_promise 0 (Thenable (Settles 2 (Rejected (NativeError (js "Error"))))) with
  | Settles t (Fulfilled v1) =>
      events (ChainBuilder.sequentialSinks (VStr (js "x"))
                (λ _, Normal (Thenable (Settles 2 (Rejected (NativeError (js "Error"))))))
                (λ v, Normal (Plain v)) 0)
        = [Invoke (Sink 0) (VStr (js "x")) 0; Invoke (Sink 1) v1 t]
      /\ 0 <= t
      /\ result (ChainBuilder.sequentialSinks (VStr (js "x"))
                (λ _, Normal (Thenable (Settles 2 (Rejected (NativeError (js "Error"))))))
                (λ v, Normal (Plain v)) 0) =
           match (λ v, Normal (Plain v)) v1 with
           | Normal ret2 => as_promise t ret2
           | Throw e => Settles t (Rejected e)
           end
  | Settles t (Rejected e) =>
      ChainBuilder.sequentialSinks (VStr (js "x"))
        (λ _, Normal (Thenable (Settles 2 (Rejected (NativeError (js "Error"))))))
        (λ v, Normal (Plain v)) 0
      = Started [Invoke (Sink 0) (VStr (js "x")) 0] (Settles t (Rejected e))
  | Forever =>
      ChainBuilder.sequentialSinks (VStr (js "x"))
        (λ _, Normal (Thenable (Settles 2 (Rejected (NativeError (js "Error"))))))
        (λ v, Normal (Plain v)) 0
      = Started [Invoke (Sink 0) (VStr (js "x")) 0] Forever
  end.
Proof.
  apply (sequentialSinks_order (VStr (js "x"))
           (λ _, Normal (Thenable (Settles 2 (Rejected (NativeError (js "Error"))))))
           (λ v, Normal (Plain v))
           (Thenable (Settles 2 (Rejected (NativeError (js "Error"))))) 0).
  reflexivity.
Defined.

(** X13. When the transformer of [simpleChain] throws, the sink is never
    invoked and the chain is rejected, in the turn of the call, with what
    the transformer threw. *)
Theorem simpleChain_transformer_failure (source : value) (e : exn)
    (transformer : value -> completion value)
    (sink : value -> completion returned) (now : nat) :
  transformer source = Throw e ->
  sink_arguments (events (ChainBuilder.simpleChain source transformer sink now)) = []
  /\ sinks_invoked (events (ChainBuilder.simpleChain source transformer sink now)) = []
  /\ result (ChainBuilder.simpleChain source transformer sink now) = Settles now (Rejected e).
Proof.
  intros Ht.
  by rewrite (simpleChain_transformer_throws source e transformer sink now Ht).
Qed.

Lemma simpleChain_transformer_failure_witness :
  sink_arguments (events (ChainBuilder.simpleChain VNull
      (λ _, Throw (NativeError (js "TypeError"))) (λ v, Normal (Plain v)) 0)) = []
  /\ sinks_invoked (events (ChainBuilder.simpleChain VNull
      (λ _, Throw (NativeError (js "TypeError"))) (λ v, Normal (Plain v)) 0)) = []
  /\ result (ChainBuilder.simpleChain VNull
      (λ _, Throw (NativeError (js "TypeError"))) (λ v, Normal (Plain v)) 0)
      = Settles 0 (Rejected (NativeError (js "TypeError"))).
Proof.
  apply (simpleChain_transformer_failure VNull (NativeError (js "TypeError"))
           (λ _, Throw (NativeError (js "TypeError"))) (λ v, Normal (Plain v)) 0).
  reflexivity.
Defined.

(** X14. [mergedSources] invokes the sink once, in the turn of the call, with
    what the merger made of the sources, and settles as the sink's result
    does; when the merger throws, the sink is not invoked and the chain is
    rejected with what the merger threw. *)
Theorem mergedSources_run (sources : list value)
    (merger : list value -> completion value)
    (sink : value -> completion returned) (now : nat) :
  match merger sources with
  | Normal merged =>
      events (ChainBuilder.mergedSources sources merger sink now)
        = [Invoke (Sink 0) merged now]
      /\ result (ChainBuilder.mergedSources sources merger sink now) =
           match sink merged with
           | Normal ret => as_promise now ret
           | Throw e => Settles now (Rejected e)
           end
  | Throw e =>
      ChainBuilder.mergedSources sources merger sink now
      = Started [] (Settles now (Rejected e))
  end.
Proof.
  unfold ChainBuilder.mergedSources, async_function, mbind, async_bind, lift, call.
  destruct (merger sources) as [merged|e]; [|reflexivity]. cbn.
  destruct (sink merged) as [[r|[t [v|e']|]]|e']; cbn; by split.
Qed.

(** X15. A sink of [parallelSinks] that throws at the call ends the fan-out:
    the sinks listed after it are never invoked and the run is rejected with
    what was thrown, in the turn of the call, whatever the promises of the
    sinks before it do. *)
Theorem parallelSinks_synchronous_throw (source : value)
    (before after : list (value -> completion returned))
    (k : value -> completion returned) (rets : list returned) (e : exn) (now : nat) :
  Forall2 (λ k r, k source = Normal r) before rets ->
  k source = Throw e ->
  sinks_invoked (events (ChainBuilder.parallelSinks source (before ++ k :: after) now))
    = seq 0 (S (length before))
  /\ result (ChainBuilder.parallelSinks source (before ++ k :: after) now)
     = Settles now (Rejected e).
Proof.
  intros Hall Hk.
  unfold ChainBuilder.parallelSinks, async_function, mbind, async_bind.
  rewrite (map_invoke_throws source before after k rets e 0 now Hall Hk).
  cbn [trace status_of events result]. split; [|done].
  unfold sinks_invoked.
  assert (Hgen : ∀ (l : list (value -> completion returned)) i,
            omap (λ ev, match callee_of ev with Sink j => Some j | Transformer => None end)
              (imap (λ j _, Invoke (Sink (i + j)) source now) l) = seq i (length l)).
  { induction l as [|x l IH]; intros i; [done|].
    cbn [imap omap list_omap callee_of length seq]. rewrite Nat.add_0_r. f_equal.
    rewrite <- (IH (S i)). f_equal. apply imap_ext. intros j y _. cbn. do 2 f_equal. lia. }
  rewrite (Hgen (before ++ [k]) 0). rewrite length_app. cbn [length].
  by rewrite Nat.add_1_r.
Qed.

Lemma parallelSinks_synchronous_throw_witness :
  sinks_invoked (events (ChainBuilder.parallelSinks (VStr (js "x"))
     ([ (λ v, Normal (Plain v)) ] ++ (λ _, Throw (NativeError (js "Error")))
        :: [ (λ v, Normal (Plain v)) ]) 0))
    = seq 0 (S (length [ (λ v : value, @Normal returned (Plain v)) ]))
  /\ result (ChainBuilder.parallelSinks (VStr (js "x"))
     ([ (λ v, Normal (Plain v)) ] ++ (λ _, Throw (NativeError (js "Error")))
        :: [ (λ v, Normal (Plain v)) ]) 0)
     = Settles 0 (Rejected (NativeError (js "Error"))).
Proof.
  apply (parallelSinks_synchronous_throw (VStr (js "x"))
           [ (λ v, Normal (Plain v)) ] [ (λ v, Normal (Plain v)) ]
           (λ _, Throw (NativeError (js "Error")))
           [Plain (VStr (js "x"))] (NativeError (js "Error")) 0).
  - repeat constructor.
  - reflexivity.
Defined.

(** ** [TaintTransform]: what the other transforms keep *)

Lemma foldl_snoc (acc l : list value) :
  foldl (λ acc item, acc ++ [item]) acc l = acc ++ l.
Proof.
  revert acc. induction l as [|x l IH]; intros acc; cbn [foldl].
  - by rewrite app_nil_r.
  - rewrite IH. by rewrite <- app_assoc.
Qed.

Lemma arrayOperations_filter (elems : list value) :
  TaintTransform.arrayOperations (VArr elems)
  = Normal (VArr (filter (λ item, ToBoolean item = true) elems)).
Proof.
  unfold TaintTransform.arrayOperations. cbv zeta.
  by rewrite list_fmap_id, foldl_snoc.
Qed.

(** X16. [arrayOperations] returns the truthy elements of an array, in their
    order: an element that is [undefined], [null], [false], [0] or the empty
    string is dropped, so the array comes back unchanged exactly when every
    element is truthy; a second pass changes nothing. *)
Theorem arrayOperations_keeps_truthy (elems : list value) :
  ∃ kept, TaintTransform.arrayOperations (VArr elems) = Normal (VArr kept)
    ∧ kept `sublist_of` elems
    ∧ (∀ x, x ∈ kept ↔ x ∈ elems ∧ ToBoolean x = true)
    ∧ (kept = elems ↔ Forall (λ x, ToBoolean x = true) elems)
    ∧ TaintTransform.arrayOperations (VArr kept) = Normal (VArr kept).
Proof.
  exists (filter (λ item, ToBoolean item = true) elems).
  split; [apply arrayOperations_filter|]. split; [apply sublist_filter|].
  split; [|split].
  - intros x. rewrite list_elem_of_filter. tauto.
  - split.
    + intros Heq. rewrite <- Heq. apply Forall_forall. intros x Hx.
      by apply list_elem_of_filter in Hx as [Hx _].
    + intros Hall. induction Hall as [|x l Hx Hall IH]; [done|].
      rewrite filter_cons_True by done. by rewrite IH.
  - rewrite arrayOperations_filter. by rewrite list_filter_filter_l.
Qed.

Lemma define_property_keys (k : jsstring) (v : value) (acc : list (jsstring * value)) :
  NoDup acc.*1 -> NoDup (define_property k v acc).*1.
Proof.
  intros Hacc. destruct (decide (k ∈ acc.*1)) as [Hin|Hout].
  - assert (Hsame : (define_property k v acc).*1 = acc.*1); [|by rewrite Hsame].
    clear Hacc. induction acc as [|[k' v'] acc IH]; [by apply elem_of_nil in Hin|].
    cbn [define_property]. destruct (decide (k' = k)) as [->|Hne]; [done|].
    cbn [fmap list_fmap fst] in *. apply elem_of_cons in Hin as [->|Hin]; [done|].
    f_equal. by apply IH.
  - rewrite (define_property_fresh k v acc Hout), fmap_app. cbn.
    apply NoDup_app. split; [done|]. split; [|apply NoDup_singleton].
    intros x Hx Hx'. apply list_elem_of_singleton in Hx'. by subst.
Qed.

Lemma spread_keys (entries acc : list (jsstring * value)) :
  NoDup acc.*1 ->
  NoDup (foldl (λ acc entry, define_property entry.1 entry.2 acc) acc entries).*1.
Proof.
  revert acc. induction entries as [|[k v] entries IH]; intros acc Hacc; [done|].
  cbn [foldl]. apply IH. by apply define_property_keys.
Qed.

Lemma spread_copy (entries acc : list (jsstring * value)) :
  NoDup (acc ++ entries).*1 ->
  foldl (λ acc entry, define_property entry.1 entry.2 acc) acc entries = acc ++ entries.
Proof.
  revert acc. induction entries as [|[k v] entries IH]; intros acc Hnd; cbn [foldl].
  - by rewrite app_nil_r.
  - cbn [fst snd]. rewrite define_property_fresh.
    + rewrite IH; rewrite <- app_assoc; [done|exact Hnd].
    + rewrite fmap_app in Hnd. apply NoDup_app in Hnd as (_ & Hdisj & _).
      intros Hin. apply (Hdisj k Hin). cbn. apply elem_of_cons. by left.
Qed.

(** X17. [objectSpread] always returns an object with distinct keys, which a
    second spread copies as it is; of an object (whose keys are distinct) it
    is an equal copy, with the properties in the same order. *)
Theorem objectSpread_copy (taintedObj : value) :
  ∃ props, TaintTransform.objectSpread taintedObj = VObj props
    ∧ NoDup props.*1
    ∧ TaintTransform.objectSpread (VObj props) = VObj props
    ∧ ∀ ps, taintedObj = VObj ps -> NoDup ps.*1 -> props = ps.
Proof.
  eexists. split; [reflexivity|].
  assert (Hnd : NoDup (foldl (λ acc entry, define_property entry.1 entry.2 acc) []
                         match Object_entries taintedObj with
                         | Normal entries => entries
                         | Throw _ => []
                         end).*1) by (apply spread_keys; constructor).
  split; [exact Hnd|]. split.
  - unfold TaintTransform.objectSpread at 1. cbn [Object_entries].
    by rewrite (spread_copy _ [] Hnd).
  - intros ps -> Hps. cbn [Object_entries]. by rewrite (spread_copy ps [] Hps).
Qed.

(** X18. What [destructure] returns has the properties [a], [b] and [c] and
    no other, each with the value of the argument's own property of that
    name, and with [undefined] where the argument has none or is no object:
    every other property of the argument is gone.  The result is a fixed
    point of [destructure] and of [objectSpread]. *)
Theorem destructure_fixed_shape (taintedObj w : value) :
  TaintTransform.destructure taintedObj = Normal w ->
  w = VObj ((λ name, (name, match taintedObj with
                            | VObj props => default VUndefined (own_property name props)
                            | _ => VUndefined
                            end)) <$> [js "a"; js "b"; js "c"])
  ∧ TaintTransform.destructure w = Normal w
  ∧ TaintTransform.objectSpread w = w.
Proof.
  intros Hw.
  assert (Hshape : w = VObj ((λ name, (name, match taintedObj with
                               | VObj props => default VUndefined (own_property name props)
                               | _ => VUndefined
                               end)) <$> [js "a"; js "b"; js "c"])).
  { destruct taintedObj; cbn in Hw; try discriminate Hw; by injection Hw as <-. }
  split; [exact Hshape|]. rewrite Hshape. split; reflexivity.
Qed.

Lemma destructure_fixed_shape_witness :
  VObj [(js "a", VNum 1); (js "b", VUndefined); (js "c", VStr (js "x"))]
  = VObj ((λ name, (name, match VObj [(js "d", VNum 4); (js "c", VStr (js "x"));
                                      (js "a", VNum 1)] with
                          | VObj props => default VUndefined (own_property name props)
                          | _ => VUndefined
                          end)) <$> [js "a"; js "b"; js "c"])
  ∧ TaintTransform.destructure
      (VObj [(js "a", VNum 1); (js "b", VUndefined); (js "c", VStr (js "x"))])
    = Normal (VObj [(js "a", VNum 1); (js "b", VUndefined); (js "c", VStr (js "x"))])
  ∧ TaintTransform.objectSpread
      (VObj [(js "a", VNum 1); (js "b", VUndefined); (js "c", VStr (js "x"))])
    = VObj [(js "a", VNum 1); (js "b", VUndefined); (js "c", VStr (js "x"))].
Proof.
  apply (destructure_fixed_shape
           (VObj [(js "d", VNum 4); (js "c", VStr (js "x")); (js "a", VNum 1)])
           (VObj [(js "a", VNum 1); (js "b", VUndefined); (js "c", VStr (js "x"))])).
  reflexivity.
Defined.

(** *** [interpolate] *)

Lemma substitution_plain (matched before after rep : jsstring) :
  (36%N ∉ rep) -> substitution matched before after rep = rep.
Proof.
  induction rep as [|c rep IH]; intros Hrep; [done|].
  apply not_elem_of_cons in Hrep as [Hne Hrep].
  cbn [substitution]. destruct (N.eqb_spec c 36) as [->|_]; [done|].
  by rewrite (IH Hrep).
Qed.

Lemma replace_first_cons (pat rep before : jsstring) (c : code_unit) (s : jsstring) :
  replace_first pat rep before (c :: s) =
  if starts_with pat (c :: s)
  then before ++ substitution pat before (drop (length pat) (c :: s)) rep
         ++ drop (length pat) (c :: s)
  else replace_first pat rep (before ++ [c]) s.
Proof. reflexivity. Qed.

Lemma replace_first_skip (a : code_unit) (pat rep before pre s : jsstring) :
  (a ∉ pre) ->
  replace_first (a :: pat) rep before (pre ++ s)
  = replace_first (a :: pat) rep (before ++ pre) s.
Proof.
  revert before. induction pre as [|c pre IH]; intros before Hpre.
  - by rewrite app_nil_r.
  - apply not_elem_of_cons in Hpre as [Hne Hpre]. cbn [app].
    rewrite replace_first_cons, starts_with_cons.
    destruct (N.eqb_spec a c) as [->|_]; [done|]. cbn [andb].
    rewrite (IH (before ++ [c]) Hpre). by rewrite <- app_assoc.
Qed.

Lemma starts_with_app (p s : jsstring) : starts_with p (p ++ s) = true.
Proof.
  induction p as [|a p IH]; [done|]. cbn [app starts_with].
  by rewrite N.eqb_refl, IH.
Qed.

Lemma replace_first_here (pat rep before post : jsstring) :
  replace_first pat rep before (pat ++ post)
  = before ++ substitution pat before post rep ++ post.
Proof.
  destruct pat as [|a pat]; [by destruct post|].
  cbn [app]. rewrite replace_first_cons.
  change (a :: pat ++ post) with ((a :: pat) ++ post).
  by rewrite starts_with_app, drop_app_length.
Qed.

Lemma replace_first_absent (a : code_unit) (pat rep before s : jsstring) :
  (a ∉ s) -> replace_first (a :: pat) rep before s = before ++ s.
Proof.
  intros Hs. rewrite <- (app_nil_r s) at 1.
  rewrite (replace_first_skip a pat rep before s [] Hs). reflexivity.
Qed.

(** X19. [interpolate] with one value replaces the first placeholder only
    (what follows it is kept as it is, further placeholders of the same name
    included), and the value is not inserted as it is but as a replacement
    pattern: it is inserted unchanged when it has no dollar sign. *)
Theorem interpolate_first_placeholder (pre key text post : jsstring) :
  (123%N ∉ pre) ->
  TaintTransform.interpolate (VStr (pre ++ js "{" ++ key ++ js "}" ++ post))
    (VObj [(key, VStr text)])
  = Normal (VStr (pre ++ substitution (js "{" ++ key ++ js "}") pre post text ++ post))
  ∧ ((36%N ∉ text) ->
     TaintTransform.interpolate (VStr (pre ++ js "{" ++ key ++ js "}" ++ post))
       (VObj [(key, VStr text)])
     = Normal (VStr (pre ++ text ++ post))).
Proof.
  intros Hpre.
  assert (Hrun : TaintTransform.interpolate
                   (VStr (pre ++ js "{" ++ key ++ js "}" ++ post)) (VObj [(key, VStr text)])
                 = Normal (VStr (pre ++ substitution (js "{" ++ key ++ js "}") pre post text
                                   ++ post))).
  { unfold TaintTransform.interpolate. cbn [Object_entries mbind completion_bind foldl
      replace_method ToString fst snd mret completion_ret].
    do 2 f_equal.
    assert (Hsplit : js "{" ++ key ++ js "}" ++ post = (js "{" ++ key ++ js "}") ++ post)
      by (cbn [js app]; by rewrite <- app_assoc).
    rewrite Hsplit.
    change (js "{" ++ key ++ js "}") with (123%N :: key ++ js "}").
    rewrite (replace_first_skip 123 (key ++ js "}") text [] pre _ Hpre).
    by rewrite replace_first_here. }
  split; [exact Hrun|]. intros Htext. rewrite Hrun.
  by rewrite (substitution_plain _ pre post text Htext).
Qed.

Lemma interpolate_first_placeholder_witness :
  TaintTransform.interpolate (VStr (js "ls " ++ js "{" ++ js "f" ++ js "}" ++ js " {f}"))
    (VObj [(js "f", VStr (js ";id"))])
  = Normal (VStr (js "ls " ++ substitution (js "{" ++ js "f" ++ js "}") (js "ls ") (js " {f}")
                               (js ";id") ++ js " {f}"))
  ∧ ((36%N ∉ js ";id") ->
     TaintTransform.interpolate (VStr (js "ls " ++ js "{" ++ js "f" ++ js "}" ++ js " {f}"))
       (VObj [(js "f", VStr (js ";id"))])
     = Normal (VStr (js "ls " ++ js ";id" ++ js " {f}"))).
Proof.
  apply (interpolate_first_placeholder (js "ls ") (js "f") (js ";id") (js " {f}")).
  apply (bool_decide_unpack _). by vm_compute.
Defined.

(** X20. A template without an opening brace comes back from [interpolate]
    unchanged, whatever the values are, as long as each of them converts to
    a string. *)
Theorem interpolate_no_placeholder (template : jsstring) (values : list (jsstring * value)) :
  (123%N ∉ template) ->
  Forall (λ entry, ∃ text, ToString entry.2 = Normal text) values ->
  TaintTransform.interpolate (VStr template) (VObj values) = Normal (VStr template).
Proof.
  intros Htemplate Hvalues. unfold TaintTransform.interpolate.
  cbn [Object_entries mbind completion_bind].
  induction Hvalues as [|[k v] values [text Htext] Hvalues IH]; [done|].
  cbn [foldl fst snd replace_method mbind completion_bind] in *.
  rewrite Htext. cbn [mbind completion_bind mret completion_ret].
  change (js "{" ++ k ++ js "}") with (123%N :: k ++ js "}").
  rewrite (replace_first_absent 123 (k ++ js "}") text [] template Htemplate).
  exact IH.
Qed.

Lemma interpolate_no_placeholder_witness :
  TaintTransform.interpolate (VStr (js "ls -la")) (VObj [(js "f", VNum 7)])
  = Normal (VStr (js "ls -la")).
Proof.
  apply (interpolate_no_placeholder (js "ls -la") [(js "f", VNum 7)]).
  - apply (bool_decide_unpack _). by vm_compute.
  - repeat constructor. by eexists.
Defined.

(** ** [ContextPropagation]: other keys, and the key [__proto__] *)

(** X21. A write leaves the other keys alone: a key that has been set keeps
    its value through a write to any other key, and a write to a key other
    than [__proto__] changes the reading of no other key at all. *)
Theorem set_frame (k k' : jsstring) (v : value) (c : ContextPropagation.context) :
  k ≠ k' ->
  (k ≠ js "__proto__" ->
   ContextPropagation.get k' (ContextPropagation.set k v c) = ContextPropagation.get k' c)
  ∧ (∀ w, ContextPropagation.own c !! k' = Some w ->
       ContextPropagation.get k' (ContextPropagation.set k v c) = Data w).
Proof.
  intros Hne. split.
  - intros Hk. rewrite (set_ordinary_key k v c Hk). unfold ContextPropagation.get. cbn.
    by rewrite lookup_insert_ne.
  - intros w Hw. unfold ContextPropagation.set.
    destruct (bool_decide (k = js "__proto__") && bool_decide (ContextPropagation.own c !! k = None)
              && ContextPropagation.reaches_proto_accessor (ContextPropagation.proto c)).
    + unfold ContextPropagation.get. destruct v; cbn; by rewrite Hw.
    + unfold ContextPropagation.get. cbn. rewrite lookup_insert_ne by done. by rewrite Hw.
Qed.

Lemma set_frame_witness :
  (js "cmd" ≠ js "__proto__" ->
   ContextPropagation.get (js "tpl")
     (ContextPropagation.set (js "cmd") VNull
        (ContextPropagation.set (js "tpl") (VNum 1) ContextPropagation.new))
   = ContextPropagation.get (js "tpl")
       (ContextPropagation.set (js "tpl") (VNum 1) ContextPropagation.new))
  ∧ (∀ w, ContextPropagation.own
            (ContextPropagation.set (js "tpl") (VNum 1) ContextPropagation.new) !! js "tpl"
          = Some w ->
       ContextPropagation.get (js "tpl")
         (ContextPropagation.set (js "cmd") VNull
            (ContextPropagation.set (js "tpl") (VNum 1) ContextPropagation.new)) = Data w).
Proof.
  apply (set_frame (js "cmd") (js "tpl") VNull
           (ContextPropagation.set (js "tpl") (VNum 1) ContextPropagation.new)).
  discriminate.
Defined.

(** X22. A write of an object under the key [__proto__], on a store where
    that key was not set before, stores nothing under the key: the object
    becomes the prototype of the store, and each of its properties is read
    back under its own name by [get], for every key that was never set. *)
Theorem set_proto_key_injects (props : list (jsstring * value)) (k : jsstring) (w : value)
    (c : ContextPropagation.context) :
  ContextPropagation.own c !! js "__proto__" = None ->
  ContextPropagation.reaches_proto_accessor (ContextPropagation.proto c) = true ->
  ContextPropagation.own c !! k = None ->
  own_property k props = Some w ->
  ContextPropagation.own (ContextPropagation.set (js "__proto__") (VObj props) c)
  = ContextPropagation.own c
  ∧ ContextPropagation.get k (ContextPropagation.set (js "__proto__") (VObj props) c) = Data w.
Proof.
  intros Hown Hreach Hk Hw. unfold ContextPropagation.set.
  rewrite bool_decide_eq_true_2 by done. rewrite bool_decide_eq_true_2 by done.
  rewrite Hreach. cbn. split; [done|].
  unfold ContextPropagation.get. cbn. by rewrite Hk, Hw.
Qed.

Lemma set_proto_key_injects_witness :
  ContextPropagation.own
    (ContextPropagation.set (js "__proto__") (VObj [(js "cmd", VStr (js "id"))])
       ContextPropagation.new)
  = ContextPropagation.own ContextPropagation.new
  ∧ ContextPropagation.get (js "cmd")
      (ContextPropagation.set (js "__proto__") (VObj [(js "cmd", VStr (js "id"))])
         ContextPropagation.new) = Data (VStr (js "id")).
Proof.
  apply (set_proto_key_injects [(js "cmd", VStr (js "id"))] (js "cmd") (VStr (js "id"))
           ContextPropagation.new); reflexivity.
Defined.

(** ** [JwtSource.extractFromHeader] *)

Lemma is_bearer_no_space (scheme : jsstring) :
  JwtSource.is_bearer scheme = true -> (32%N ∉ scheme).
Proof.
  intros Hb Hin. apply bool_decide_eq_true_1 in Hb.
  apply (list_elem_of_fmap_2 JwtSource.ascii_lower) in Hin. rewrite Hb in Hin.
  revert Hin. apply (bool_decide_unpack _). by vm_compute.
Qed.

(** X23. For a header that is the word [bearer], in letters of either case,
    one space and a token, [extractFromHeader] answers as [extractClaims]
    does on the token; anything after a second space is ignored. *)
Theorem extractFromHeader_bearer (base64_to_text : jsstring -> jsstring)
    (JSON_parse : jsstring -> completion value) (scheme token rest : jsstring) :
  JwtSource.is_bearer scheme = true ->
  (32%N ∉ token) ->
  JwtSource.extractFromHeader base64_to_text JSON_parse (VStr (scheme ++ 32%N :: token))
  = JwtSource.extractClaims base64_to_text JSON_parse (VStr token)
  ∧ JwtSource.extractFromHeader base64_to_text JSON_parse
      (VStr (scheme ++ 32%N :: token ++ 32%N :: rest))
    = JwtSource.extractClaims base64_to_text JSON_parse (VStr token).
Proof.
  intros Hb Htoken. pose proof (is_bearer_no_space scheme Hb) as Hscheme.
  assert (Htruthy : ∀ s, ToBoolean (VStr (scheme ++ s)) = true).
  { intros s. destruct scheme; [discriminate Hb|reflexivity]. }
  unfold JwtSource.extractFromHeader. split.
  - rewrite Htruthy. cbn [negb JwtSource.split_method mbind completion_bind].
    rewrite (split_on_app 32 scheme token Hscheme), (split_on_no_sep 32 token Htoken).
    cbn [lookup list_lookup]. by rewrite Hb.
  - rewrite Htruthy. cbn [negb JwtSource.split_method mbind completion_bind].
    rewrite (split_on_app 32 scheme _ Hscheme), (split_on_app 32 token rest Htoken).
    cbn [lookup list_lookup]. by rewrite Hb.
Qed.

Lemma extractFromHeader_bearer_witness :
  JwtSource.extractFromHeader (λ s, s) (λ s, Normal (VStr s))
    (VStr (js "BeArEr" ++ 32%N :: js "a.b.c"))
  = JwtSource.extractClaims (λ s, s) (λ s, Normal (VStr s)) (VStr (js "a.b.c"))
  ∧ JwtSource.extractFromHeader (λ s, s) (λ s, Normal (VStr s))
      (VStr (js "BeArEr" ++ 32%N :: js "a.b.c" ++ 32%N :: js "x"))
    = JwtSource.extractClaims (λ s, s) (λ s, Normal (VStr s)) (VStr (js "a.b.c")).
Proof.
  apply (extractFromHeader_bearer (λ s, s) (λ s, Normal (VStr s))
           (js "BeArEr") (js "a.b.c") (js "x")).
  - reflexivity.
  - apply (bool_decide_unpack _). by vm_compute.
Defined.

(** X24. Unlike [extractClaims], [extractFromHeader] is not total: it throws
    exactly on the truthy arguments that are not strings, and returns on
    every other one. *)
Theorem extractFromHeader_throws (base64_to_text : jsstring -> jsstring)
    (JSON_parse : jsstring -> completion value) (authHeader : value) :
  (∃ e, JwtSource.extractFromHeader base64_to_text JSON_parse authHeader = Throw e)
  ↔ ToBoolean authHeader = true ∧ ∀ s, authHeader ≠ VStr s.
Proof.
  unfold JwtSource.extractFromHeader.
  destruct authHeader as [| |[|]|n|s|elems|props]; cbn [ToBoolean negb].
  1-2,4: (split; [by intros [e He]|by intros [Hf _]]).
  1,4,5: (split; [done|intros _; by eexists]).
  - destruct (n =? 0)%Z; cbn [negb].
    + split; [by intros [e He]|by intros [Hf _]].
    + split; [done|intros _; by eexists].
  - split; [|intros [_ Hs]; by destruct (Hs s)].
    intros [e He]. exfalso. destruct s as [|c s]; [discriminate He|].
    cbn [negb JwtSource.split_method mbind completion_bind] in He.
    destruct (split_on 32 (c :: s) !! 0) as [p|]; [|discriminate He].
    destruct (JwtSource.is_bearer p); [|discriminate He].
    by rewrite extractClaims_described in He.
Qed.

(** ** [AuthMiddleware]: what an unsigned token is worth *)

Lemma base64_digit_plain (i : N) : base64_digit i ≠ 46%N ∧ base64_digit i ≠ 32%N.
Proof.
  unfold base64_digit.
  destruct (N.ltb_spec i 26); [lia|]. destruct (N.ltb_spec i 52); [lia|].
  destruct (N.ltb_spec i 62); [lia|]. destruct (i =? 62)%N; lia.
Qed.

Lemma base64_encode_plain (bytes : list N) :
  Forall (λ c, c ≠ 46%N ∧ c ≠ 32%N) (base64_encode bytes).
Proof.
  remember (length bytes) as n eqn:Hn. revert bytes Hn.
  induction n as [n IH] using lt_wf_ind. intros bytes Hn.
  destruct bytes as [|a [|b [|c rest]]]; cbn [base64_encode].
  - constructor.
  - repeat (constructor; [first [apply base64_digit_plain|lia]|]). constructor.
  - repeat (constructor; [first [apply base64_digit_plain|lia]|]). constructor.
  - apply Forall_app. split.
    + repeat (constructor; [apply base64_digit_plain|]). constructor.
    + apply (IH (length rest)); [subst n; cbn; lia|done].
Qed.

Lemma not_elem_of_app_3 (c : code_unit) (a b d : jsstring) (x y : code_unit) :
  (c ∉ a) -> (c ∉ b) -> (c ∉ d) -> c ≠ x -> c ≠ y -> c ∉ a ++ x :: b ++ y :: d.
Proof.
  intros Ha Hb Hd Hx Hy Hin.
  apply elem_of_app in Hin as [Hin|Hin]; [done|].
  apply elem_of_cons in Hin as [Hin|Hin]; [done|].
  apply elem_of_app in Hin as [Hin|Hin]; [done|].
  apply elem_of_cons in Hin as [Hin|Hin]; done.
Qed.

(** X25. No signature stands between a token and a role.  Take any text that
    [JSON.parse] reads as an object with a string [role]; the authorization
    header made of the word [bearer], a space and a token whose payload part
    is the base64 of the text, with any header part and any signature part
    at all, passes [extractUser], which puts that role on the request, and
    then passes [requireRole] for that role. *)
Theorem unsigned_token_passes_role_check (JSON_parse : jsstring -> completion value)
    (scheme header signature text role : jsstring) (props : list (jsstring * value)) :
  JwtSource.is_bearer scheme = true ->
  (46%N ∉ header) -> (46%N ∉ signature) -> (32%N ∉ header) -> (32%N ∉ signature) ->
  well_formed text = true ->
  JSON_parse text = Normal (VObj props) ->
  own_property (js "role") props = Some (VStr role) ->
  ∃ user,
    AuthMiddleware.extractUser (λ s, utf8_decode (base64_decode s)) JSON_parse
      (VStr (scheme ++ 32%N :: header ++ 46%N :: base64_encode (utf8_encode text)
               ++ 46%N :: signature))
    = Normal (AuthMiddleware.Next (Some user))
    ∧ AuthMiddleware.role user = Data (VStr role)
    ∧ AuthMiddleware.requireRole role (Some user) = AuthMiddleware.Next (Some user).
Proof.
  intros Hb Hh Hs Hh' Hs' Hwf Hparse Hrole.
  set (payload := base64_encode (utf8_encode text)).
  pose proof (base64_encode_plain (utf8_encode text)) as Hplain. fold payload in Hplain.
  assert (Hp : 46%N ∉ payload).
  { intros Hin. by destruct (proj1 (Forall_forall _ _) Hplain _ Hin). }
  assert (Hp' : 32%N ∉ payload).
  { intros Hin. by destruct (proj1 (Forall_forall _ _) Hplain _ Hin). }
  assert (Htoken : 32%N ∉ header ++ 46%N :: payload ++ 46%N :: signature)
    by (by apply not_elem_of_app_3).
  assert (Htext : utf8_decode (base64_decode payload) = text)
    by apply (base64RoundTrip_well_formed text Hwf).
  assert (Hclaims : JwtSource.extractFromHeader (λ s, utf8_decode (base64_decode s)) JSON_parse
                      (VStr (scheme ++ 32%N :: header ++ 46%N :: payload ++ 46%N :: signature))
                    = Normal (VObj props)).
  { unfold JwtSource.extractFromHeader.
    assert (Htruthy : ∀ s, ToBoolean (VStr (scheme ++ s)) = true).
    { intros s. destruct scheme; [discriminate Hb|reflexivity]. }
    rewrite Htruthy. cbn [negb JwtSource.split_method mbind completion_bind].
    rewrite (split_on_app 32 scheme _ (is_bearer_no_space scheme Hb)).
    rewrite (split_on_no_sep 32 _ Htoken). cbn [lookup list_lookup]. rewrite Hb.
    rewrite extractClaims_described. f_equal.
    unfold JwtSource.described_claims.
    rewrite (split_on_app 46 header _ Hh), (split_on_app 46 payload _ Hp),
      (split_on_no_sep 46 signature Hs).
    rewrite Htext, Hparse. by destruct header. }
  eexists. unfold AuthMiddleware.extractUser.
  assert (Htruthy : ToBoolean (VStr (scheme ++ 32%N :: header ++ 46%N :: payload
                                       ++ 46%N :: signature)) = true).
  { destruct scheme; [discriminate Hb|reflexivity]. }
  rewrite Htruthy, Hclaims.
  cbn [negb mbind completion_bind ToBoolean AuthMiddleware.claim].
  split; [reflexivity|]. cbn [AuthMiddleware.role AuthMiddleware.name_of].
  unfold AuthMiddleware.requireRole, Object_get. rewrite Hrole.
  split; [reflexivity|]. by rewrite decide_True.
Qed.

Lemma unsigned_token_passes_role_check_witness :
  ∃ user,
    AuthMiddleware.extractUser (λ s, utf8_decode (base64_decode s))
      (λ s, match JSON_parse s with
            | Parsed v [] => Normal v
            | _ => Throw (NativeError (js "SyntaxError"))
            end)
      (VStr (js "Bearer" ++ 32%N :: js "e30" ++ 46%N
               :: base64_encode (utf8_encode
                    (default [] (JSON_stringify (VObj [(js "role", VStr (js "admin"))]))))
               ++ 46%N :: js "unsigned"))
    = Normal (AuthMiddleware.Next (Some user))
    ∧ AuthMiddleware.role user = Data (VStr (js "admin"))
    ∧ AuthMiddleware.requireRole (js "admin") (Some user) = AuthMiddleware.Next (Some user).
Proof.
  apply (unsigned_token_passes_role_check
           (λ s, match JSON_parse s with
                 | Parsed v [] => Normal v
                 | _ => Throw (NativeError (js "SyntaxError"))
                 end)
           (js "Bearer") (js "e30") (js "unsigned")
           (default [] (JSON_stringify (VObj [(js "role", VStr (js "admin"))])))
           (js "admin") [(js "role", VStr (js "admin"))]).
  - reflexivity.
  - apply (bool_decide_unpack _). by vm_compute.
  - apply (bool_decide_unpack _). by vm_compute.
  - apply (bool_decide_unpack _). by vm_compute.
  - apply (bool_decide_unpack _). by vm_compute.
  - by vm_compute.
  - by vm_compute.
  - reflexivity.
Defined.
